(** * Belgrad.su storefront: product store, product loader and modal image
      rotation, embedded from the JavaScript sources.

    - [ProductLoader] follows [js/load-all-products.js];
    - [ProductData] follows the product-data module ([loadProducts],
      [filterProductsByCategory], [getProductById], ...);
    - [UI] follows the user-interface module ([openProductModal],
      [startModalImageRotationWithIndex], [switchMainImage],
      [closeProductModal], ...), together with a model of the host's timer
      queue ([setInterval], [setTimeout], [clearInterval]).

    JavaScript strings are [string]s that hold their UTF-8 encoding; arrays
    are lists; a [Map] is a [gmap]; [null] and the different shapes a
    cached value can take are constructors of [value]; numbers are
    integers, rationals where the code divides, and doubles, given by
    their values, where it parses a price or times the grid's animations;
    an [async] function is cut at its [await]s into the part that runs at
    the call and the part that runs when the awaited promise settles; a
    closure handed to a timer is a constructor of [callback], and the
    variables it closes over live in the page state.

    - [Grid] follows the product grid of the user-interface module
      ([displayProducts], [createProductCard], [resetDisplayFlag]), and
      [Events] the category filter of the events module ([filterProducts]).

    The definitions come first: the two data modules, the user-interface
    module, then sample data and the notions the statements use. The
    results follow: the product store ([Section Store]) and the image
    rotation ([Section Rotation]), then the queries and the loader, the
    progress bar, the rotation switch and cycle, the modal, and the
    grid. *)

From Stdlib Require Import ZArith QArith Lia Ascii String.
From Stdlib Require PrimFloat FloatOps SpecFloat Uint63.
From stdpp Require Import gmap strings list pretty.

Local Open Scope string_scope.
Local Open Scope Z_scope.
Local Open Scope list_scope.

(** ** Products *)

(** A product object as the JSON documents give it:
    [{id, name, description, price, country, category, images, tags}]. *)
Record product := Product {
  id : Z;
  name : string;
  description : string;
  price : string;
  country : string;
  category : string;
  images : list string;
  tags : list string
}.

(** ** Console *)

Inductive level := Info | Warn | Error | Debug.

(** [safeLog level message]: one console line. The messages of the source
    are Russian sentences; the model keeps the level and a short tag. *)
Definition entry : Type := level * string.

(** ** Values held by the filter cache

    The product-data module keeps one [Map], [filterCache], for all its
    queries, so one key can hold an array of products, one product, [null],
    or the array of tag strings of [getUniqueCategories]. *)
Inductive value :=
| VArray (ps : list product)
| VProduct (p : product)
| VNull
| VStrings (l : list string).

(** [getProductsStats]: [{total, byCountry, byCategory}]. *)
Record stats := Stats {
  total : nat;
  byCountry : gmap string nat;
  byCategory : gmap string nat
}.

(** ** Module state of the two data modules and the console they log to *)
Record state := State {
  (* product-data module *)
  products : list product;
  filterCache : gmap string value;
  statsCache : option stats;
  dataIsLoading : bool;
  (* load-all-products.js *)
  productsCache : gmap string (list product);
  loaderIsLoading : bool;
  (* console.log *)
  console : list entry
}.

Definition set_products (ps : list product) (st : state) : state :=
  State ps (filterCache st) (statsCache st) (dataIsLoading st)
        (productsCache st) (loaderIsLoading st) (console st).
Definition set_filterCache (c : gmap string value) (st : state) : state :=
  State (products st) c (statsCache st) (dataIsLoading st)
        (productsCache st) (loaderIsLoading st) (console st).
Definition set_statsCache (c : option stats) (st : state) : state :=
  State (products st) (filterCache st) c (dataIsLoading st)
        (productsCache st) (loaderIsLoading st) (console st).
Definition set_dataIsLoading (b : bool) (st : state) : state :=
  State (products st) (filterCache st) (statsCache st) b
        (productsCache st) (loaderIsLoading st) (console st).
Definition set_productsCache (c : gmap string (list product)) (st : state) : state :=
  State (products st) (filterCache st) (statsCache st) (dataIsLoading st)
        c (loaderIsLoading st) (console st).
Definition set_loaderIsLoading (b : bool) (st : state) : state :=
  State (products st) (filterCache st) (statsCache st) (dataIsLoading st)
        (productsCache st) b (console st).

Definition safeLog (l : level) (message : string) (st : state) : state :=
  State (products st) (filterCache st) (statsCache st) (dataIsLoading st)
        (productsCache st) (loaderIsLoading st) (console st ++ [(l, message)]).

(** The page as the scripts find it when they are loaded. *)
Definition initial_state : state := State [] ∅ None false ∅ false [].

(** A console line at level [Error]. *)
Definition is_error (e : entry) : bool :=
  match fst e with Error => true | _ => false end.

(** ** Exceptions

    The body of a [try] block either completes with a value or throws. *)
Inductive result (A : Type) :=
| Ok (a : A)
| Exn (e : string).
Arguments Ok {A} a.
Arguments Exn {A} e.

(** ** The network

    What [fetch(path)] followed by [response.json()] gives: the request
    fails ([fetch] rejects), or a response arrives with its [ok] flag and
    status, whose body either does not parse or parses to a document. *)
Inductive body (D : Type) :=
| Unparsable
| Parsed (d : D).
Arguments Unparsable {D}.
Arguments Parsed {D} d.

Inductive fetched (D : Type) :=
| NetworkError
| Response (ok : bool) (status : Z) (b : body D).
Arguments NetworkError {D}.
Arguments Response {D} ok status b.

(** A per-country document: a JSON array of product objects, or any other
    JSON value (an object, [null], a number, a string). *)
Inductive document :=
| DocArray (ps : list product)
| DocOther.

(** What [data.products] is for the combined document [data]: an array of
    product objects; [undefined] (the document has no such member) or
    [null]; or any other value (a string, a number, a boolean, an object),
    of which the code reads the [length] only: [long] says that it is
    greater than 0. *)
Inductive member :=
| MArray (ps : list product)
| MNullish
| MOther (long : bool).

(** The combined document [product/product.json]: JSON [null], of which no
    member can be read, or any other value, with its [products] member. *)
Inductive combined_document :=
| CombinedNull
| Combined (products : member).

(** [fetch] then [json], inside a [try]: a rejected [fetch] and a body that
    does not parse throw at their [await]. *)
Definition response_of {D} (f : fetched D) : result (bool * Z * body D) :=
  match f with
  | NetworkError => Exn "TypeError: Failed to fetch"
  | Response ok status b => Ok (ok, status, b)
  end.
Definition json_of {D} (b : body D) : result D :=
  match b with
  | Unparsable => Exn "SyntaxError: Unexpected token"
  | Parsed d => Ok d
  end.

(** ** A state-and-exception monad for the loader code

    [M A]: a computation over the module state that completes with a value
    or throws. [async] functions settle their promise with this [result]:
    [Ok] fulfils it, [Exn] rejects it. *)
Definition M (A : Type) : Type := state → state * result A.

Global Instance M_ret : MRet M := λ A a st, (st, Ok a).
Global Instance M_bind : MBind M := λ A B f m st,
  match m st with
  | (st', Ok a) => f a st'
  | (st', Exn e) => (st', Exn e)
  end.

Definition throw {A} (e : string) : M A := λ st, (st, Exn e).
Definition lift {A} (r : result A) : M A := λ st, (st, r).
Definition gets {A} (f : state → A) : M A := λ st, (st, Ok (f st)).
Definition modify (f : state → state) : M unit := λ st, (f st, Ok tt).

(** [try { body } catch (error) { handler }] *)
Definition try_catch {A} (body : M A) (handler : string → M A) : M A := λ st,
  match body st with
  | (st', Exn e) => handler e st'
  | r => r
  end.

(** [... finally { fin }] *)
Definition finally {A} (body : M A) (fin : state → state) : M A := λ st,
  let '(st', r) := body st in (fin st', r).

(** What an [async] call has done when it returns to its caller: it has
    settled already, or it is suspended at an [await]. *)
Inductive pending (W : Type) :=
| Settled (r : result (list product))
| Awaiting (w : W).
Arguments Settled {W} r.
Arguments Awaiting {W} w.

(** * load-all-products.js *)
Module ProductLoader.

(** The six per-country files, in the order of [loadPromises]. *)
Definition files : list string :=
  [ "product/serbia-products.json"; "product/russia-products.json";
    "product/china-products.json"; "product/czech-products.json";
    "product/georgia-products.json"; "product/germany-products.json" ].

(** [loadProductsFromFile(filePath)]. The cache is looked up at the call; the
    [try] block runs when the response [net filePath] has arrived. *)
Definition loadProductsFromFile (net : string → fetched document)
    (filePath : string) : M (list product) :=
  cached ← gets (λ st, productsCache st !! filePath);
  match cached with
  | Some ps => mret ps
  | None =>
      try_catch
        ('(ok, status, b) ← lift (response_of (net filePath));
         if negb ok then throw ("HTTP error! status for " +:+ filePath)
         else
           products ← lift (json_of b);
           match products with
           | DocOther =>
               throw ("Invalid data format: expected array in " +:+ filePath)
           | DocArray ps =>
               modify (safeLog Info ("loaded " +:+ filePath));;
               modify (λ st, set_productsCache (<[filePath := ps]> (productsCache st)) st);;
               mret ps
           end)
        (λ error,
           modify (safeLog Error ("error loading " +:+ filePath));;
           mret [])
  end.

(** [Promise.allSettled(loadPromises)]: every load is run to its end and its
    outcome recorded. The loads write different cache keys; the model runs
    them in the order of the array. *)
Fixpoint allSettled (net : string → fetched document) (paths : list string)
    (st : state) : state * list (result (list product)) :=
  match paths with
  | [] => (st, [])
  | p :: paths' =>
      let '(st1, r) := loadProductsFromFile net p st in
      let '(st2, rs) := allSettled net paths' st1 in
      (st2, r :: rs)
  end.

(** [...(x.status === 'fulfilled' ? x.value : [])] over the six outcomes. *)
Definition merge (settled : list (result (list product))) : list product :=
  concat (map (λ r, match r with Ok v => v | Exn _ => [] end) settled).

(** Where a call of [loadAllProducts] can be suspended. *)
Inductive wait :=
| Polling      (* in the [while (loaderIsLoading)] loop, asleep for 100 ms *)
| Loading.     (* at [await Promise.allSettled(loadPromises)] *)

(** [loadAllProducts()], from the call to its first [await]. *)
Definition loadAllProducts_call (st : state) : state * pending wait :=
  match productsCache st !! "all_products" with
  | Some ps => (safeLog Info "products served from cache" st, Settled (Ok ps))
  | None =>
      if loaderIsLoading st then
        (safeLog Info "products already loading" st, Awaiting Polling)
      else
        (safeLog Info "loading all products" (set_loaderIsLoading true st),
         Awaiting Loading)
  end.

(** One wake-up of a call suspended in the polling loop: it sleeps again
    while the flag is up, and otherwise returns
    [productsCache.get('all_products') || []]. *)
Definition loadAllProducts_poll (st : state) : state * pending wait :=
  if loaderIsLoading st then (st, Awaiting Polling)
  else (st, Settled (Ok (default [] (productsCache st !! "all_products")))).

(** The rest of the [try] block once the six loads have settled, with its
    [catch] and [finally]. (The [catch] also shows a toast through
    [Utils.showNotification]; the toast is not modelled.) *)
Definition loadAllProducts_settle (settled : list (result (list product)))
    : M (list product) :=
  finally
    (try_catch
       (let allProducts := merge settled in
        modify (safeLog Info ("loaded products: " +:+ pretty (length allProducts)));;
        modify (safeLog Info "loaded per country");;
        modify (λ st, set_productsCache (<["all_products" := allProducts]> (productsCache st)) st);;
        mret allProducts)
       (λ error,
          modify (safeLog Error "error loading all products");;
          mret []))
    (set_loaderIsLoading false).

(** A call of [loadAllProducts] run to its end with nothing else running in
    between. [None]: the call polls for a load that some other call has in
    flight, and only that other call can end the wait. *)
Definition loadAllProducts (net : string → fetched document) (st : state)
    : option (state * result (list product)) :=
  match loadAllProducts_call st with
  | (st1, Settled r) => Some (st1, r)
  | (st1, Awaiting Polling) => None
  | (st1, Awaiting Loading) =>
      let '(st2, settled) := allSettled net files st1 in
      Some (loadAllProducts_settle settled st2)
  end.

(** [clearCaches()] of the loader ([metadataCache] is not modelled). *)
Definition clearCaches (st : state) : state :=
  safeLog Info "loader caches cleared" (set_productsCache ∅ st).

End ProductLoader.

(** * String and number primitives of the host

    A string of the page is held as its UTF-8 encoding: one code point of
    the JavaScript string is one to four characters of the [string]. The
    host's string functions work on code points. A character that is part
    of no well-formed sequence stands for itself and is left alone. *)

(** The code point [0x110000 + b] stands for a byte [b] that encodes
    nothing. *)
Definition stray (b : ascii) : N := (1114112 + N_of_ascii b)%N.

Definition continues (b : ascii) : bool :=
  ((128 <=? N_of_ascii b) && (N_of_ascii b <=? 191))%N.

(** The code points of a string. *)
Fixpoint code_points (s : string) : list N :=
  match s with
  | EmptyString => []
  | String b0 s1 =>
      let n0 := N_of_ascii b0 in
      if (n0 <? 128)%N then n0 :: code_points s1
      else
        match s1 with
        | String b1 s2 =>
            let c2 := ((n0 - 192) * 64 + (N_of_ascii b1 - 128))%N in
            if ((194 <=? n0) && (n0 <=? 223))%N && continues b1
            then c2 :: code_points s2
            else
              match s2 with
              | String b2 s3 =>
                  let c3 := ((n0 - 224) * 4096 + (N_of_ascii b1 - 128) * 64
                             + (N_of_ascii b2 - 128))%N in
                  if ((224 <=? n0) && (n0 <=? 239))%N && continues b1 && continues b2
                     && (2048 <=? c3)%N && negb ((55296 <=? c3) && (c3 <=? 57343))%N
                  then c3 :: code_points s3
                  else
                    match s3 with
                    | String b3 s4 =>
                        let c4 := ((n0 - 240) * 262144 + (N_of_ascii b1 - 128) * 4096
                                   + (N_of_ascii b2 - 128) * 64 + (N_of_ascii b3 - 128))%N in
                        if ((240 <=? n0) && (n0 <=? 244))%N
                           && continues b1 && continues b2 && continues b3
                           && ((65536 <=? c4) && (c4 <=? 1114111))%N
                        then c4 :: code_points s4
                        else stray b0 :: code_points s1
                    | EmptyString => stray b0 :: code_points s1
                    end
              | EmptyString => stray b0 :: code_points s1
              end
        | EmptyString => [stray b0]
        end
  end.

(** The UTF-8 encoding of one code point. *)
Definition utf8 (c : N) : string :=
  if (c <? 128)%N then String (ascii_of_N c) ""
  else if (c <? 2048)%N then
    String (ascii_of_N (192 + c / 64)) (String (ascii_of_N (128 + c mod 64)) "")
  else if (c <? 65536)%N then
    String (ascii_of_N (224 + c / 4096))
      (String (ascii_of_N (128 + (c / 64) mod 64)) (String (ascii_of_N (128 + c mod 64)) ""))
  else if (c <? 1114112)%N then
    String (ascii_of_N (240 + c / 262144))
      (String (ascii_of_N (128 + (c / 4096) mod 64))
         (String (ascii_of_N (128 + (c / 64) mod 64))
            (String (ascii_of_N (128 + c mod 64)) "")))
  else String (ascii_of_N (c - 1114112)) "".

Definition of_code_points (l : list N) : string :=
  foldr (λ c s, utf8 c +:+ s) "" l.

Definition in_ranges (c : N) (ranges : list (N * N)) : bool :=
  existsb (λ r, (fst r <=? c) && (c <=? snd r))%N ranges.

(** ** Lower case

    The case data are those of Unicode 14. A row [(first, last, step,
    target)] of [lower_case_rows] says that the code points [first],
    [first + step], ... up to [last] have the lower-case forms [target],
    [target + step], ...: the simple lower-case mappings of
    [UnicodeData.txt]. *)
Definition lower_case_rows : list (N * N * N * N) :=
  [
    (65, 90, 1, 97); (192, 214, 1, 224); (216, 222, 1, 248); (256, 302, 2, 257);
    (306, 310, 2, 307); (313, 327, 2, 314); (330, 374, 2, 331); (376, 376, 1, 255);
    (377, 381, 2, 378); (385, 385, 1, 595); (386, 388, 2, 387); (390, 390, 1, 596);
    (391, 391, 1, 392); (393, 394, 1, 598); (395, 395, 1, 396); (398, 398, 1, 477);
    (399, 399, 1, 601); (400, 400, 1, 603); (401, 401, 1, 402); (403, 403, 1, 608);
    (404, 404, 1, 611); (406, 406, 1, 617); (407, 407, 1, 616); (408, 408, 1, 409);
    (412, 412, 1, 623); (413, 413, 1, 626); (415, 415, 1, 629); (416, 420, 2, 417);
    (422, 422, 1, 640); (423, 423, 1, 424); (425, 425, 1, 643); (428, 428, 1, 429);
    (430, 430, 1, 648); (431, 431, 1, 432); (433, 434, 1, 650); (435, 437, 2, 436);
    (439, 439, 1, 658); (440, 440, 1, 441); (444, 444, 1, 445); (452, 452, 1, 454);
    (453, 453, 1, 454); (455, 455, 1, 457); (456, 456, 1, 457); (458, 458, 1, 460);
    (459, 475, 2, 460); (478, 494, 2, 479); (497, 497, 1, 499); (498, 500, 2, 499);
    (502, 502, 1, 405); (503, 503, 1, 447); (504, 542, 2, 505); (544, 544, 1, 414);
    (546, 562, 2, 547); (570, 570, 1, 11365); (571, 571, 1, 572); (573, 573, 1, 410);
    (574, 574, 1, 11366); (577, 577, 1, 578); (579, 579, 1, 384); (580, 580, 1, 649);
    (581, 581, 1, 652); (582, 590, 2, 583); (880, 882, 2, 881); (886, 886, 1, 887);
    (895, 895, 1, 1011); (902, 902, 1, 940); (904, 906, 1, 941); (908, 908, 1, 972);
    (910, 911, 1, 973); (913, 929, 1, 945); (931, 939, 1, 963); (975, 975, 1, 983);
    (984, 1006, 2, 985); (1012, 1012, 1, 952); (1015, 1015, 1, 1016); (1017, 1017, 1, 1010);
    (1018, 1018, 1, 1019); (1021, 1023, 1, 891); (1024, 1039, 1, 1104); (1040, 1071, 1, 1072);
    (1120, 1152, 2, 1121); (1162, 1214, 2, 1163); (1216, 1216, 1, 1231); (1217, 1229, 2, 1218);
    (1232, 1326, 2, 1233); (1329, 1366, 1, 1377); (4256, 4293, 1, 11520);
    (4295, 4295, 1, 11559); (4301, 4301, 1, 11565); (5024, 5103, 1, 43888);
    (5104, 5109, 1, 5112); (7312, 7354, 1, 4304); (7357, 7359, 1, 4349); (7680, 7828, 2, 7681);
    (7838, 7838, 1, 223); (7840, 7934, 2, 7841); (7944, 7951, 1, 7936); (7960, 7965, 1, 7952);
    (7976, 7983, 1, 7968); (7992, 7999, 1, 7984); (8008, 8013, 1, 8000); (8025, 8031, 2, 8017);
    (8040, 8047, 1, 8032); (8072, 8079, 1, 8064); (8088, 8095, 1, 8080); (8104, 8111, 1, 8096);
    (8120, 8121, 1, 8112); (8122, 8123, 1, 8048); (8124, 8124, 1, 8115); (8136, 8139, 1, 8050);
    (8140, 8140, 1, 8131); (8152, 8153, 1, 8144); (8154, 8155, 1, 8054); (8168, 8169, 1, 8160);
    (8170, 8171, 1, 8058); (8172, 8172, 1, 8165); (8184, 8185, 1, 8056); (8186, 8187, 1, 8060);
    (8188, 8188, 1, 8179); (8486, 8486, 1, 969); (8490, 8490, 1, 107); (8491, 8491, 1, 229);
    (8498, 8498, 1, 8526); (8544, 8559, 1, 8560); (8579, 8579, 1, 8580); (9398, 9423, 1, 9424);
    (11264, 11311, 1, 11312); (11360, 11360, 1, 11361); (11362, 11362, 1, 619);
    (11363, 11363, 1, 7549); (11364, 11364, 1, 637); (11367, 11371, 2, 11368);
    (11373, 11373, 1, 593); (11374, 11374, 1, 625); (11375, 11375, 1, 592);
    (11376, 11376, 1, 594); (11378, 11378, 1, 11379); (11381, 11381, 1, 11382);
    (11390, 11391, 1, 575); (11392, 11490, 2, 11393); (11499, 11501, 2, 11500);
    (11506, 11506, 1, 11507); (42560, 42604, 2, 42561); (42624, 42650, 2, 42625);
    (42786, 42798, 2, 42787); (42802, 42862, 2, 42803); (42873, 42875, 2, 42874);
    (42877, 42877, 1, 7545); (42878, 42886, 2, 42879); (42891, 42891, 1, 42892);
    (42893, 42893, 1, 613); (42896, 42898, 2, 42897); (42902, 42920, 2, 42903);
    (42922, 42922, 1, 614); (42923, 42923, 1, 604); (42924, 42924, 1, 609);
    (42925, 42925, 1, 620); (42926, 42926, 1, 618); (42928, 42928, 1, 670);
    (42929, 42929, 1, 647); (42930, 42930, 1, 669); (42931, 42931, 1, 43859);
    (42932, 42946, 2, 42933); (42948, 42948, 1, 42900); (42949, 42949, 1, 642);
    (42950, 42950, 1, 7566); (42951, 42953, 2, 42952); (42960, 42960, 1, 42961);
    (42966, 42968, 2, 42967); (42997, 42997, 1, 42998); (65313, 65338, 1, 65345);
    (66560, 66599, 1, 66600); (66736, 66771, 1, 66776); (66928, 66938, 1, 66967);
    (66940, 66954, 1, 66979); (66956, 66962, 1, 66995); (66964, 66965, 1, 67003);
    (68736, 68786, 1, 68800); (71840, 71871, 1, 71872); (93760, 93791, 1, 93792);
    (125184, 125217, 1, 125218)
  ]%N.

(** The code points with the property [Cased] and without the property
    [Case_Ignorable]. *)
Definition cased_ranges : list (N * N) :=
  [
    (65, 90); (97, 122); (170, 170); (181, 181); (186, 186); (192, 214); (216, 246);
    (248, 442); (444, 447); (452, 659); (661, 687); (880, 883); (886, 887); (891, 893);
    (895, 895); (902, 902); (904, 906); (908, 908); (910, 929); (931, 1013); (1015, 1153);
    (1162, 1327); (1329, 1366); (1376, 1416); (4256, 4293); (4295, 4295); (4301, 4301);
    (4304, 4346); (4349, 4351); (5024, 5109); (5112, 5117); (7296, 7304); (7312, 7354);
    (7357, 7359); (7424, 7467); (7531, 7543); (7545, 7578); (7680, 7957); (7960, 7965);
    (7968, 8005); (8008, 8013); (8016, 8023); (8025, 8025); (8027, 8027); (8029, 8029);
    (8031, 8061); (8064, 8116); (8118, 8124); (8126, 8126); (8130, 8132); (8134, 8140);
    (8144, 8147); (8150, 8155); (8160, 8172); (8178, 8180); (8182, 8188); (8450, 8450);
    (8455, 8455); (8458, 8467); (8469, 8469); (8473, 8477); (8484, 8484); (8486, 8486);
    (8488, 8488); (8490, 8493); (8495, 8500); (8505, 8505); (8508, 8511); (8517, 8521);
    (8526, 8526); (8544, 8575); (8579, 8580); (9398, 9449); (11264, 11387); (11390, 11492);
    (11499, 11502); (11506, 11507); (11520, 11557); (11559, 11559); (11565, 11565);
    (42560, 42605); (42624, 42651); (42786, 42863); (42865, 42887); (42891, 42894);
    (42896, 42954); (42960, 42961); (42963, 42963); (42965, 42969); (42997, 42998);
    (43002, 43002); (43824, 43866); (43872, 43880); (43888, 43967); (64256, 64262);
    (64275, 64279); (65313, 65338); (65345, 65370); (66560, 66639); (66736, 66771);
    (66776, 66811); (66928, 66938); (66940, 66954); (66956, 66962); (66964, 66965);
    (66967, 66977); (66979, 66993); (66995, 67001); (67003, 67004); (68736, 68786);
    (68800, 68850); (71840, 71903); (93760, 93823); (119808, 119892); (119894, 119964);
    (119966, 119967); (119970, 119970); (119973, 119974); (119977, 119980); (119982, 119993);
    (119995, 119995); (119997, 120003); (120005, 120069); (120071, 120074); (120077, 120084);
    (120086, 120092); (120094, 120121); (120123, 120126); (120128, 120132); (120134, 120134);
    (120138, 120144); (120146, 120485); (120488, 120512); (120514, 120538); (120540, 120570);
    (120572, 120596); (120598, 120628); (120630, 120654); (120656, 120686); (120688, 120712);
    (120714, 120744); (120746, 120770); (120772, 120779); (122624, 122633); (122635, 122654);
    (125184, 125251); (127280, 127305); (127312, 127337); (127344, 127369)
  ]%N.

(** The code points with the property [Case_Ignorable]. *)
Definition case_ignorable_ranges : list (N * N) :=
  [
    (39, 39); (46, 46); (58, 58); (94, 94); (96, 96); (168, 168); (173, 173); (175, 175);
    (180, 180); (183, 184); (688, 879); (884, 885); (890, 890); (900, 901); (903, 903);
    (1155, 1161); (1369, 1369); (1375, 1375); (1425, 1469); (1471, 1471); (1473, 1474);
    (1476, 1477); (1479, 1479); (1524, 1524); (1536, 1541); (1552, 1562); (1564, 1564);
    (1600, 1600); (1611, 1631); (1648, 1648); (1750, 1757); (1759, 1768); (1770, 1773);
    (1807, 1807); (1809, 1809); (1840, 1866); (1958, 1968); (2027, 2037); (2042, 2042);
    (2045, 2045); (2070, 2093); (2137, 2139); (2184, 2184); (2192, 2193); (2200, 2207);
    (2249, 2306); (2362, 2362); (2364, 2364); (2369, 2376); (2381, 2381); (2385, 2391);
    (2402, 2403); (2417, 2417); (2433, 2433); (2492, 2492); (2497, 2500); (2509, 2509);
    (2530, 2531); (2558, 2558); (2561, 2562); (2620, 2620); (2625, 2626); (2631, 2632);
    (2635, 2637); (2641, 2641); (2672, 2673); (2677, 2677); (2689, 2690); (2748, 2748);
    (2753, 2757); (2759, 2760); (2765, 2765); (2786, 2787); (2810, 2815); (2817, 2817);
    (2876, 2876); (2879, 2879); (2881, 2884); (2893, 2893); (2901, 2902); (2914, 2915);
    (2946, 2946); (3008, 3008); (3021, 3021); (3072, 3072); (3076, 3076); (3132, 3132);
    (3134, 3136); (3142, 3144); (3146, 3149); (3157, 3158); (3170, 3171); (3201, 3201);
    (3260, 3260); (3263, 3263); (3270, 3270); (3276, 3277); (3298, 3299); (3328, 3329);
    (3387, 3388); (3393, 3396); (3405, 3405); (3426, 3427); (3457, 3457); (3530, 3530);
    (3538, 3540); (3542, 3542); (3633, 3633); (3636, 3642); (3654, 3662); (3761, 3761);
    (3764, 3772); (3782, 3782); (3784, 3789); (3864, 3865); (3893, 3893); (3895, 3895);
    (3897, 3897); (3953, 3966); (3968, 3972); (3974, 3975); (3981, 3991); (3993, 4028);
    (4038, 4038); (4141, 4144); (4146, 4151); (4153, 4154); (4157, 4158); (4184, 4185);
    (4190, 4192); (4209, 4212); (4226, 4226); (4229, 4230); (4237, 4237); (4253, 4253);
    (4348, 4348); (4957, 4959); (5906, 5908); (5938, 5939); (5970, 5971); (6002, 6003);
    (6068, 6069); (6071, 6077); (6086, 6086); (6089, 6099); (6103, 6103); (6109, 6109);
    (6155, 6159); (6211, 6211); (6277, 6278); (6313, 6313); (6432, 6434); (6439, 6440);
    (6450, 6450); (6457, 6459); (6679, 6680); (6683, 6683); (6742, 6742); (6744, 6750);
    (6752, 6752); (6754, 6754); (6757, 6764); (6771, 6780); (6783, 6783); (6823, 6823);
    (6832, 6862); (6912, 6915); (6964, 6964); (6966, 6970); (6972, 6972); (6978, 6978);
    (7019, 7027); (7040, 7041); (7074, 7077); (7080, 7081); (7083, 7085); (7142, 7142);
    (7144, 7145); (7149, 7149); (7151, 7153); (7212, 7219); (7222, 7223); (7288, 7293);
    (7376, 7378); (7380, 7392); (7394, 7400); (7405, 7405); (7412, 7412); (7416, 7417);
    (7468, 7530); (7544, 7544); (7579, 7679); (8125, 8125); (8127, 8129); (8141, 8143);
    (8157, 8159); (8173, 8175); (8189, 8190); (8203, 8207); (8216, 8217); (8228, 8228);
    (8231, 8231); (8234, 8238); (8288, 8292); (8294, 8303); (8305, 8305); (8319, 8319);
    (8336, 8348); (8400, 8432); (11388, 11389); (11503, 11505); (11631, 11631); (11647, 11647);
    (11744, 11775); (11823, 11823); (12293, 12293); (12330, 12333); (12337, 12341);
    (12347, 12347); (12441, 12446); (12540, 12542); (40981, 40981); (42232, 42237);
    (42508, 42508); (42607, 42610); (42612, 42621); (42623, 42623); (42652, 42655);
    (42736, 42737); (42752, 42785); (42864, 42864); (42888, 42890); (42994, 42996);
    (43000, 43001); (43010, 43010); (43014, 43014); (43019, 43019); (43045, 43046);
    (43052, 43052); (43204, 43205); (43232, 43249); (43263, 43263); (43302, 43309);
    (43335, 43345); (43392, 43394); (43443, 43443); (43446, 43449); (43452, 43453);
    (43471, 43471); (43493, 43494); (43561, 43566); (43569, 43570); (43573, 43574);
    (43587, 43587); (43596, 43596); (43632, 43632); (43644, 43644); (43696, 43696);
    (43698, 43700); (43703, 43704); (43710, 43711); (43713, 43713); (43741, 43741);
    (43756, 43757); (43763, 43764); (43766, 43766); (43867, 43871); (43881, 43883);
    (44005, 44005); (44008, 44008); (44013, 44013); (64286, 64286); (64434, 64450);
    (65024, 65039); (65043, 65043); (65056, 65071); (65106, 65106); (65109, 65109);
    (65279, 65279); (65287, 65287); (65294, 65294); (65306, 65306); (65342, 65342);
    (65344, 65344); (65392, 65392); (65438, 65439); (65507, 65507); (65529, 65531);
    (66045, 66045); (66272, 66272); (66422, 66426); (67456, 67461); (67463, 67504);
    (67506, 67514); (68097, 68099); (68101, 68102); (68108, 68111); (68152, 68154);
    (68159, 68159); (68325, 68326); (68900, 68903); (69291, 69292); (69446, 69456);
    (69506, 69509); (69633, 69633); (69688, 69702); (69744, 69744); (69747, 69748);
    (69759, 69761); (69811, 69814); (69817, 69818); (69821, 69821); (69826, 69826);
    (69837, 69837); (69888, 69890); (69927, 69931); (69933, 69940); (70003, 70003);
    (70016, 70017); (70070, 70078); (70089, 70092); (70095, 70095); (70191, 70193);
    (70196, 70196); (70198, 70199); (70206, 70206); (70367, 70367); (70371, 70378);
    (70400, 70401); (70459, 70460); (70464, 70464); (70502, 70508); (70512, 70516);
    (70712, 70719); (70722, 70724); (70726, 70726); (70750, 70750); (70835, 70840);
    (70842, 70842); (70847, 70848); (70850, 70851); (71090, 71093); (71100, 71101);
    (71103, 71104); (71132, 71133); (71219, 71226); (71229, 71229); (71231, 71232);
    (71339, 71339); (71341, 71341); (71344, 71349); (71351, 71351); (71453, 71455);
    (71458, 71461); (71463, 71467); (71727, 71735); (71737, 71738); (71995, 71996);
    (71998, 71998); (72003, 72003); (72148, 72151); (72154, 72155); (72160, 72160);
    (72193, 72202); (72243, 72248); (72251, 72254); (72263, 72263); (72273, 72278);
    (72281, 72283); (72330, 72342); (72344, 72345); (72752, 72758); (72760, 72765);
    (72767, 72767); (72850, 72871); (72874, 72880); (72882, 72883); (72885, 72886);
    (73009, 73014); (73018, 73018); (73020, 73021); (73023, 73029); (73031, 73031);
    (73104, 73105); (73109, 73109); (73111, 73111); (73459, 73460); (78896, 78904);
    (92912, 92916); (92976, 92982); (92992, 92995); (94031, 94031); (94095, 94111);
    (94176, 94177); (94179, 94180); (110576, 110579); (110581, 110587); (110589, 110590);
    (113821, 113822); (113824, 113827); (118528, 118573); (118576, 118598); (119143, 119145);
    (119155, 119170); (119173, 119179); (119210, 119213); (119362, 119364); (121344, 121398);
    (121403, 121452); (121461, 121461); (121476, 121476); (121499, 121503); (121505, 121519);
    (122880, 122886); (122888, 122904); (122907, 122913); (122915, 122916); (122918, 122922);
    (123184, 123197); (123566, 123566); (123628, 123631); (125136, 125142); (125252, 125259);
    (127995, 127999); (917505, 917505); (917536, 917631); (917760, 917999)
  ]%N.

Definition lower_case (c : N) : N :=
  match
    List.find (λ '(first, last, step, _),
                 (first <=? c) && (c <=? last) && ((c - first) mod step =? 0))%N
              lower_case_rows
  with
  | Some (first, _, _, target) => (target + (c - first))%N
  | None => c
  end.

Fixpoint skip_case_ignorable (l : list N) : list N :=
  match l with
  | c :: l' => if in_ranges c case_ignorable_ranges then skip_case_ignorable l' else l
  | [] => []
  end.

(** The first code point of [l] that is not case-ignorable is cased. *)
Definition cased_next (l : list N) : bool :=
  match skip_case_ignorable l with
  | c :: _ => in_ranges c cased_ranges
  | [] => false
  end.

(** The lower-case form of the code points [l], which the code points
    [before] precede, nearest first. A capital sigma becomes the final
    sigma after a cased letter and not before one (case-ignorable code
    points in between do not count); a capital I with dot above becomes an
    [i] and a combining dot; every other code point has its simple
    mapping. *)
Fixpoint lower_case_all (before l : list N) : list N :=
  match l with
  | [] => []
  | c :: l' =>
      (if (c =? 931)%N then
         [if cased_next before && negb (cased_next l') then 962%N else 963%N]
       else if (c =? 304)%N then [105%N; 775%N]
       else [lower_case c])
      ++ lower_case_all (c :: before) l'
  end.

(** [String.prototype.toLowerCase] *)
Definition toLowerCase (s : string) : string :=
  of_code_points (lower_case_all [] (code_points s)).

(** ** White space *)

(** The code points [trim] removes: the white space and the line
    terminators of the language. *)
Definition white_space : list N :=
  [ 9; 10; 11; 12; 13; 32; 160; 5760;
    8192; 8193; 8194; 8195; 8196; 8197; 8198; 8199; 8200; 8201; 8202;
    8232; 8233; 8239; 8287; 12288; 65279 ]%N.

Fixpoint skip (n : nat) (s : string) : string :=
  match n, s with
  | S n', String _ s' => skip n' s'
  | _, _ => s
  end.

(** [s] without the first of [patterns] it starts with. *)
Definition strip (patterns : list string) (s : string) : option string :=
  match List.find (λ p, String.prefix p s) patterns with
  | Some p => Some (skip (String.length p) s)
  | None => None
  end.

(** [strip] as long as it applies; [fuel] bounds the number of rounds, and
    the length of [s] is enough of it. *)
Fixpoint strip_all (patterns : list string) (fuel : nat) (s : string) : string :=
  match fuel with
  | O => s
  | S fuel' =>
      match strip patterns s with
      | Some s' => strip_all patterns fuel' s'
      | None => s
      end
  end.

Definition trimStart (s : string) : string :=
  strip_all (map utf8 white_space) (String.length s) s.

Definition trimEnd (s : string) : string :=
  String.rev (strip_all (map (λ c, String.rev (utf8 c)) white_space)
                        (String.length s) (String.rev s)).

(** [String.prototype.trim] *)
Definition trim (s : string) : string := trimEnd (trimStart s).

(** [s.includes(sub)]: [sub] occurs in [s]. *)
Fixpoint includes (s sub : string) : bool :=
  String.prefix sub s ||
  match s with
  | EmptyString => false
  | String _ s' => includes s' sub
  end.

(** ** Numbers *)

Definition is_digit (c : ascii) : bool :=
  let n := nat_of_ascii c in ((48 <=? n) && (n <=? 57))%nat.

(** [s.replace(/[^\d.]/g, '')]: keep the digits and the dots. *)
Fixpoint keep_digits_and_dots (s : string) : string :=
  match s with
  | EmptyString => EmptyString
  | String c s' =>
      if is_digit c || Ascii.eqb c "."
      then String c (keep_digits_and_dots s')
      else keep_digits_and_dots s'
  end.

(** The leading digits of [s], read as a number and counted, and what
    follows them. *)
Fixpoint read_digits (s : string) (acc : Z) (count : nat) : Z * nat * string :=
  match s with
  | String c s' =>
      if is_digit c
      then read_digits s' (10 * acc + (Z.of_nat (nat_of_ascii c) - 48)) (S count)
      else (acc, count, s)
  | EmptyString => (acc, count, s)
  end.

(** A number of the host that is not [NaN]: a double, given by its value,
    or [Infinity]. *)
Inductive number :=
| Finite (x : Q)
| Infinity.

(** The double nearest to [n / d], for [0 ≤ n]: the quotient is cut to 53
    significant bits (fewer below [2^-1022]), to the nearest, and to the
    even one of two that are as near; from [2^1024] on the result is
    [Infinity]. *)
Definition to_double (n : Z) (d : positive) : number :=
  if n =? 0 then Finite 0
  else
    let l := Z.log2 n - Z.log2 (Z.pos d) in
    let e := if (if 0 <=? l then Z.pos d * 2 ^ l <=? n else Z.pos d <=? n * 2 ^ (- l))
             then l else l - 1 in
    let k := Z.max (e - 52) (-1074) in
    let num := if 0 <=? k then n else n * 2 ^ (- k) in
    let den := if 0 <=? k then Z.pos d * 2 ^ k else Z.pos d in
    let q := num / den in
    let r := num mod den in
    let m := if (den <? 2 * r) || ((2 * r =? den) && Z.odd q) then q + 1 else q in
    if 2 ^ (1024 - k) <=? m then Infinity
    else if 0 <=? k then Finite (inject_Z (m * 2 ^ k))
    else Finite (Qred (Qmake m (Z.to_pos (2 ^ (- k))))).

(** [parseFloat] on a string of digits and dots: the longest prefix
    [digits [. digits]] with a digit in it, read as a decimal number and
    rounded to a double; [None] for [NaN]. *)
Definition parseFloat (s : string) : option number :=
  let '(ip, ni, rest) := read_digits s 0 0%nat in
  match rest with
  | String "." rest' =>
      let '(fp, nf, _) := read_digits rest' 0 0%nat in
      if (nf =? 0)%nat then (if (ni =? 0)%nat then None else Some (to_double ip 1))
      else Some (to_double (ip * 10 ^ Z.of_nat nf + fp) (Pos.pow 10 (Pos.of_nat nf)))
  | _ => if (ni =? 0)%nat then None else Some (to_double ip 1)
  end.

(** * The global scope of the page

    The scripts are classic scripts: their top-level functions are
    properties of one global object, and a name that several scripts
    declare is bound to the function of the script that ran last.
    [loadAllModules] loads [utils.js], [load-all-products.js], the
    product-data module, the user-interface module and the events module,
    in this order. [clearCaches] is declared by the loader, by the
    product-data module and by the events module; each module exports its
    own function in its object, and a call [clearCaches()] inside a
    function runs the one the name is bound to at the call. *)

(** [clearCaches()] of the events module: it empties [eventHandlers],
    [formValidationCache] and [domCache], which are no part of [state], and
    logs. *)
Definition events_clearCaches (st : state) : state :=
  safeLog Info "event handler caches cleared" st.

(** * The product-data module *)
Module ProductData.

(** [clearCaches()], the function the module exports. *)
Definition clearCaches (st : state) : state :=
  safeLog Info "data caches cleared" (set_statsCache None (set_filterCache ∅ st)).

(** The call [clearCaches()] in [loadProducts] and [refreshProducts].
    [hasEvents]: the script of the events module has run, and the name is
    bound to its function; otherwise it is bound to the module's own. *)
Definition call_clearCaches (hasEvents : bool) (st : state) : state :=
  if hasEvents then events_clearCaches st else clearCaches st.

(** Where a call of [loadProducts] can be suspended. *)
Inductive wait :=
| AwaitLoader     (* at [await window.ProductLoader.loadAllProducts()] *)
| AwaitFetch.     (* at [await fetch('product/product.json')] *)

(** The first lines of the [try] block of [loadProducts], up to the
    [await]. [hasLoader]: [window.ProductLoader.loadAllProducts] is a
    function. *)
Definition loadProducts_start (hasLoader : bool) (st : state) : state * wait :=
  let st1 := safeLog Info "start loading products" (set_dataIsLoading true st) in
  if hasLoader then
    (safeLog Info "using ProductLoader" st1, AwaitLoader)
  else
    (safeLog Info "ProductLoader not found, falling back to product.json" st1,
     AwaitFetch).

(** [loadProducts()], from the call to its first [await]. *)
Definition loadProducts_call (hasLoader : bool) (st : state) : state * pending wait :=
  if dataIsLoading st then
    (safeLog Info "data already loading" st, Settled (Ok (products st)))
  else if (0 <? length (products st))%nat then
    (safeLog Info "data already loaded" st, Settled (Ok (products st)))
  else
    let '(st1, w) := loadProducts_start hasLoader st in (st1, Awaiting w).

(** The end of the [try] block, common to both branches:
    log, [clearCaches()], [return products]. *)
Definition loadProducts_finish (hasEvents : bool) : M (list product) :=
  n ← gets (λ st, length (products st));
  modify (safeLog Info ("products loaded: " +:+ pretty n));;
  modify (call_clearCaches hasEvents);;
  gets products.

Definition loadProducts_catch (error : string) : M (list product) :=
  modify (safeLog Error "error loading products");;
  mret [].

(** The rest of [loadProducts] once [loadAllProducts()] has settled with
    [awaited]. *)
Definition loadProducts_settle_loader (hasEvents : bool)
    (awaited : result (list product)) : M (list product) :=
  finally
    (try_catch
       (ps ← lift awaited;
        modify (set_products ps);;
        loadProducts_finish hasEvents)
       loadProducts_catch)
    (set_dataIsLoading false).

(** What the variable [products] holds when it is not an array: the
    fallback branch stores [data.products] as it finds it. *)
Inductive held :=
| Nullish                 (* [undefined] or [null] *)
| Other (long : bool).    (* see [MOther] *)

(** How a call of [loadProducts] leaves the page.
    - [Loaded st r]: the promise has settled with [r], and [products] is an
      array.
    - [Lost st h]: [products] holds [h], which is no array, and [st] gives
      the other variables of the page. For [Nullish] the promise is
      fulfilled with the empty array; for [Other long] it is fulfilled
      with the value [products] holds. *)
Inductive loaded :=
| Loaded (st : state) (r : result (list product))
| Lost (st : state) (h : held).

(** The rest of [loadProducts] on the fallback branch, once
    [product/product.json] has been fetched. *)
Definition loadProducts_settle_fetch (hasEvents : bool)
    (f : fetched combined_document) (st : state) : loaded :=
  let caught st :=
    (* [catch]: one line at level Error, [return []]; [finally] *)
    set_dataIsLoading false (safeLog Error "error loading products" st) in
  match f with
  | NetworkError => Loaded (caught st) (Ok [])          (* [fetch] rejects *)
  | Response false _ _ => Loaded (caught st) (Ok [])    (* [throw new Error(...)] *)
  | Response true _ Unparsable => Loaded (caught st) (Ok [])
  | Response true _ (Parsed CombinedNull) =>
      (* [data.products] throws; [products] is as it was *)
      Loaded (caught st) (Ok [])
  | Response true _ (Parsed (Combined (MArray ps))) =>
      let '(st', r) := loadProducts_finish hasEvents (set_products ps st) in
      Loaded (set_dataIsLoading false st') r
  | Response true _ (Parsed (Combined MNullish)) =>
      (* [products = data.products], and [products.length] throws *)
      Lost (caught st) Nullish
  | Response true _ (Parsed (Combined (MOther long))) =>
      (* [products = data.products]; the log line reads its [length];
         [clearCaches()]; [return products] *)
      Lost (set_dataIsLoading false
              (call_clearCaches hasEvents (safeLog Info "products loaded: no array" st)))
           (Other long)
  end.

(** A call of [loadProducts] run to its end with nothing else running in
    between, on a page where [products] is an array. [None]: the loader
    polls for a load another call has in flight. *)
Definition loadProducts (hasLoader hasEvents : bool) (net : string → fetched document)
    (combined : fetched combined_document) (st : state) : option loaded :=
  match loadProducts_call hasLoader st with
  | (st1, Settled r) => Some (Loaded st1 r)
  | (st1, Awaiting AwaitLoader) =>
      match ProductLoader.loadAllProducts net st1 with
      | Some (st2, awaited) =>
          let '(st3, r) := loadProducts_settle_loader hasEvents awaited st2 in
          Some (Loaded st3 r)
      | None => None
      end
  | (st1, Awaiting AwaitFetch) => Some (loadProducts_settle_fetch hasEvents combined st1)
  end.

(** How a call of [loadProducts] made while [products] holds [h] returns to
    its caller. *)
Inductive held_call :=
| ReturnsHeld (st : state)           (* fulfilled with [products], no array *)
| Rejects (st : state) (e : string)  (* [products.length] throws before the [try] *)
| Starts (st : state) (w : wait).    (* a new load, suspended at [w] *)

(** [loadProducts()], from the call to its first [await], on a page where
    [products] holds [h]. *)
Definition loadProducts_call_held (h : held) (hasLoader : bool) (st : state) : held_call :=
  if dataIsLoading st then ReturnsHeld (safeLog Info "data already loading" st)
  else
    match h with
    | Nullish => Rejects st "TypeError: Cannot read properties of undefined (reading 'length')"
    | Other true => ReturnsHeld (safeLog Info "data already loaded" st)
    | Other false => let '(st1, w) := loadProducts_start hasLoader st in Starts st1 w
    end.

(** [getAllProducts()] *)
Definition getAllProducts (st : state) : list product := products st.

(** [filterProductsByCategory(category)] *)
Definition filterProductsByCategory (category : string) (st : state) : value * state :=
  match filterCache st !! category with
  | Some cached => (cached, st)
  | None =>
      let filteredProducts :=
        if decide (category = "all") then products st
        else filter (λ product, category ∈ tags product) (products st) in
      (VArray filteredProducts,
       set_filterCache (<[category := VArray filteredProducts]> (filterCache st)) st)
  end.

(** [products.find(product => product.id === id) || null] *)
Definition find_by_id (i : Z) (ps : list product) : value :=
  match List.find (λ product, (id product =? i)%Z) ps with
  | Some product => VProduct product
  | None => VNull
  end.

(** [getProductById(id)] *)
Definition getProductById (i : Z) (st : state) : value * state :=
  let cacheKey := "product_" +:+ pretty i in
  match filterCache st !! cacheKey with
  | Some cached => (cached, st)
  | None =>
      let product := find_by_id i (products st) in
      (product, set_filterCache (<[cacheKey := product]> (filterCache st)) st)
  end.

(** [Array.from(new Set(...))]: first occurrences, in order. *)
Definition add_tag (seen : list string) (tag : string) : list string :=
  if decide (tag ∈ seen) then seen else seen ++ [tag].

(** [getUniqueCategories()] *)
Definition getUniqueCategories (st : state) : value * state :=
  match filterCache st !! "unique_categories" with
  | Some cached => (cached, st)
  | None =>
      let uniqueCategories := foldl add_tag [] (concat (map tags (products st))) in
      (VStrings uniqueCategories,
       set_filterCache (<["unique_categories" := VStrings uniqueCategories]> (filterCache st)) st)
  end.

Definition count_up (key : string) (m : gmap string nat) : gmap string nat :=
  <[key := S (default 0%nat (m !! key))]> m.

(** [getProductsStats()] *)
Definition getProductsStats (st : state) : stats * state :=
  match statsCache st with
  | Some cached => (cached, st)
  | None =>
      let s := Stats (length (products st))
                 (foldl (λ m product, count_up (country product) m) ∅ (products st))
                 (foldl (λ m product, count_up (category product) m) ∅ (products st)) in
      (s, set_statsCache (Some s) st)
  end.

(** The test of [searchProducts] on one product. *)
Definition matches (normalizedQuery : string) (product : product) : bool :=
  includes (toLowerCase (name product)) normalizedQuery ||
  includes (toLowerCase (description product)) normalizedQuery ||
  includes (toLowerCase (country product)) normalizedQuery ||
  includes (toLowerCase (category product)) normalizedQuery.

(** [searchProducts(query)] *)
Definition searchProducts (query : string) (st : state) : value * state :=
  if decide (query = "") then (VArray (products st), st)
  else if decide (trim query = "") then (VArray (products st), st)
  else
    let normalizedQuery := trim (toLowerCase query) in
    let cacheKey := "search_" +:+ normalizedQuery in
    match filterCache st !! cacheKey with
    | Some cached => (cached, st)
    | None =>
        let searchResults := List.filter (matches normalizedQuery) (products st) in
        (VArray searchResults,
         set_filterCache (<[cacheKey := VArray searchResults]> (filterCache st)) st)
    end.

(** [price >= minPrice && price <= maxPrice]: false for [NaN], and for
    [Infinity], which is above every bound. *)
Definition in_range (minPrice maxPrice : Z) (product : product) : bool :=
  match parseFloat (keep_digits_and_dots (price product)) with
  | Some (Finite p) => Qle_bool (inject_Z minPrice) p && Qle_bool p (inject_Z maxPrice)
  | Some Infinity => false
  | None => false
  end.

(** [getProductsByPriceRange(minPrice, maxPrice)], for bounds that are whole
    numbers (of those a double holds, and below [10^21], which a template
    writes with all their digits). *)
Definition getProductsByPriceRange (minPrice maxPrice : Z) (st : state) : value * state :=
  let cacheKey := "price_" +:+ pretty minPrice +:+ "_" +:+ pretty maxPrice in
  match filterCache st !! cacheKey with
  | Some cached => (cached, st)
  | None =>
      let filteredProducts := List.filter (in_range minPrice maxPrice) (products st) in
      (VArray filteredProducts,
       set_filterCache (<[cacheKey := VArray filteredProducts]> (filterCache st)) st)
  end.

(** [getProductsByCountry(country)] *)
Definition getProductsByCountry (c : string) (st : state) : value * state :=
  let cacheKey := "country_" +:+ c in
  match filterCache st !! cacheKey with
  | Some cached => (cached, st)
  | None =>
      let filteredProducts :=
        List.filter (λ product, String.eqb (toLowerCase (country product)) (toLowerCase c))
                    (products st) in
      (VArray filteredProducts,
       set_filterCache (<[cacheKey := VArray filteredProducts]> (filterCache st)) st)
  end.

(** [refreshProducts()] up to its [await loadProducts()]: [clearCaches()],
    [products = []], and the call. *)
Definition refreshProducts_call (hasLoader hasEvents : bool) (st : state)
    : state * pending wait :=
  loadProducts_call hasLoader (set_products [] (call_clearCaches hasEvents st)).

End ProductData.

(** * The user-interface module: the product modal and its image rotation *)
Module UI.

(** [IMAGE_ROTATION_CONFIG] *)
Record config := Config {
  enabled : bool;
  interval : Z;         (* milliseconds *)
  onlyInModal : bool
}.

(** An [img.thumbnail] of [#thumbnailImages]: its [src] and whether it
    carries the class [active]. Its click listener calls
    [switchMainImage(src, thumbnail)]. *)
Record thumbnail := Thumbnail {
  src : string;
  active : bool
}.

(** [#progressBar]: [style.width] as a percentage, [style.transition], and
    the class [animate]. The percentage is a rational number where the host
    has a double. *)
Record bar := Bar {
  width : Q;
  transition : string;
  animate : bool
}.

(** [currentRotationIntervals]: [null] or a timer handle in each slot. *)
Record intervals := Intervals {
  modal : option nat;
  progress : option nat
}.

(** The variables one call of [startModalImageRotationWithIndex] closes
    over, shared by its [rotateImages] and [updateProgress]. *)
Record session := Session {
  session_images : list string;
  currentImageIndex : Z;
  session_progress : Q
}.

(** The variables the pair [pauseOnHover] / [resumeOnLeave] closes over:
    [product.images], [intervalId] and [progressInterval]. *)
Record handler := Handler {
  hover_images : list string;
  intervalId : nat;
  progressInterval : nat
}.

(** The functions the module hands to [setInterval] and [setTimeout]. *)
Inductive callback :=
| RotateImages (sid : nat)          (* [rotateImages] of session [sid] *)
| UpdateProgress (sid : nat)        (* [updateProgress] of session [sid] *)
| RestoreTransition (t : string)    (* [progressBar.style.transition = t] *)
| OpenStart (imgs : list string)    (* the delayed start of [openProductModal] *)
| SwitchRestart (imgs : list string) (index : Z) (* the delayed restart of [switchMainImage] *)
| RestoreBar (t : string)           (* the delayed part of [resetProgressBar] *)
| TestStop (i p : nat).             (* the delayed stop of [testImageRotation] *)

(** A timer of the host: its handle, when it is due, its period when it
    repeats, and what it calls. *)
Record timer := Timer {
  tid : nat;
  due : Z;
  period : option Z;
  cb : callback
}.

(** The page: configuration, [App.products], the nodes of the DOM contract
    (taken to exist, so that [DOMCache] is filled), the module variables,
    the closures, and the host's timer queue and clock.

    Left out: the console lines of this module, the rotation inside the
    product cards ([startCardImageRotation], off while [onlyInModal] is set)
    and the debugging helper [startImageRotationWithoutMouseHandlers], which
    replaces the modal node by a clone. *)
Record world := World {
  cfg : config;
  App_products : list product;
  modal_display : bool;
  modalProductName : string;
  mainImage_src : string;
  thumbnails : list thumbnail;
  progressContainer_show : bool;
  progressBar : bar;
  currentRotationIntervals : intervals;
  sessions : list session;
  hover : list handler;
  timers : list timer;
  next_handle : nat;
  now : Z
}.

Definition set_cfg (x : config) (w : world) : world :=
  World x (App_products w) (modal_display w) (modalProductName w) (mainImage_src w) (thumbnails w) (progressContainer_show w) (progressBar w) (currentRotationIntervals w) (sessions w) (hover w) (timers w) (next_handle w) (now w).

Definition set_App_products (x : list product) (w : world) : world :=
  World (cfg w) x (modal_display w) (modalProductName w) (mainImage_src w) (thumbnails w) (progressContainer_show w) (progressBar w) (currentRotationIntervals w) (sessions w) (hover w) (timers w) (next_handle w) (now w).

Definition set_modal_display (x : bool) (w : world) : world :=
  World (cfg w) (App_products w) x (modalProductName w) (mainImage_src w) (thumbnails w) (progressContainer_show w) (progressBar w) (currentRotationIntervals w) (sessions w) (hover w) (timers w) (next_handle w) (now w).

Definition set_modalProductName (x : string) (w : world) : world :=
  World (cfg w) (App_products w) (modal_display w) x (mainImage_src w) (thumbnails w) (progressContainer_show w) (progressBar w) (currentRotationIntervals w) (sessions w) (hover w) (timers w) (next_handle w) (now w).

Definition set_mainImage_src (x : string) (w : world) : world :=
  World (cfg w) (App_products w) (modal_display w) (modalProductName w) x (thumbnails w) (progressContainer_show w) (progressBar w) (currentRotationIntervals w) (sessions w) (hover w) (timers w) (next_handle w) (now w).

Definition set_thumbnails (x : list thumbnail) (w : world) : world :=
  World (cfg w) (App_products w) (modal_display w) (modalProductName w) (mainImage_src w) x (progressContainer_show w) (progressBar w) (currentRotationIntervals w) (sessions w) (hover w) (timers w) (next_handle w) (now w).

Definition set_progressContainer_show (x : bool) (w : world) : world :=
  World (cfg w) (App_products w) (modal_display w) (modalProductName w) (mainImage_src w) (thumbnails w) x (progressBar w) (currentRotationIntervals w) (sessions w) (hover w) (timers w) (next_handle w) (now w).

Definition set_progressBar (x : bar) (w : world) : world :=
  World (cfg w) (App_products w) (modal_display w) (modalProductName w) (mainImage_src w) (thumbnails w) (progressContainer_show w) x (currentRotationIntervals w) (sessions w) (hover w) (timers w) (next_handle w) (now w).

Definition set_currentRotationIntervals (x : intervals) (w : world) : world :=
  World (cfg w) (App_products w) (modal_display w) (modalProductName w) (mainImage_src w) (thumbnails w) (progressContainer_show w) (progressBar w) x (sessions w) (hover w) (timers w) (next_handle w) (now w).

Definition set_sessions (x : list session) (w : world) : world :=
  World (cfg w) (App_products w) (modal_display w) (modalProductName w) (mainImage_src w) (thumbnails w) (progressContainer_show w) (progressBar w) (currentRotationIntervals w) x (hover w) (timers w) (next_handle w) (now w).

Definition set_hover (x : list handler) (w : world) : world :=
  World (cfg w) (App_products w) (modal_display w) (modalProductName w) (mainImage_src w) (thumbnails w) (progressContainer_show w) (progressBar w) (currentRotationIntervals w) (sessions w) x (timers w) (next_handle w) (now w).

Definition set_timers (x : list timer) (w : world) : world :=
  World (cfg w) (App_products w) (modal_display w) (modalProductName w) (mainImage_src w) (thumbnails w) (progressContainer_show w) (progressBar w) (currentRotationIntervals w) (sessions w) (hover w) x (next_handle w) (now w).

Definition set_next_handle (x : nat) (w : world) : world :=
  World (cfg w) (App_products w) (modal_display w) (modalProductName w) (mainImage_src w) (thumbnails w) (progressContainer_show w) (progressBar w) (currentRotationIntervals w) (sessions w) (hover w) (timers w) x (now w).

Definition set_now (x : Z) (w : world) : world :=
  World (cfg w) (App_products w) (modal_display w) (modalProductName w) (mainImage_src w) (thumbnails w) (progressContainer_show w) (progressBar w) (currentRotationIntervals w) (sessions w) (hover w) (timers w) (next_handle w) x.

(** The page after the scripts have run: default configuration, modal
    hidden, no timer. *)
Definition initial_world (ps : list product) : world :=
  World (Config true 3000 true) ps false "" "" [] false (Bar 0 "" false)
        (Intervals None None) [] [] [] 1%nat 0.

(** ** The host's timers *)

(** Handles are positive and never reused. *)
Definition setTimer (p : option Z) (f : callback) (delay : Z) (w : world) : world * nat :=
  let h := next_handle w in
  (set_next_handle (S h)
     (set_timers (timers w ++ [Timer h (now w + Z.max 0 delay) p f]) w), h).

Definition setInterval (f : callback) (delay : Z) (w : world) : world * nat :=
  setTimer (Some (Z.max 0 delay)) f delay w.

Definition setTimeout (f : callback) (delay : Z) (w : world) : world * nat :=
  setTimer None f delay w.

Definition clearInterval (h : nat) (w : world) : world :=
  set_timers (List.filter (λ t, negb (tid t =? h)%nat) (timers w)) w.

(** [if (handle) clearInterval(handle)]: [null] and [0] are falsy. *)
Definition truthy (h : option nat) : bool :=
  match h with
  | Some (S _) => true
  | _ => false
  end.

Definition clear_if_set (h : option nat) (w : world) : world :=
  match h with
  | Some (S n) => clearInterval (S n) w
  | _ => w
  end.

(** ** The progress bar *)

Definition set_width (x : Q) (w : world) : world :=
  set_progressBar (Bar x (transition (progressBar w)) (animate (progressBar w))) w.
Definition set_transition (t : string) (w : world) : world :=
  set_progressBar (Bar (width (progressBar w)) t (animate (progressBar w))) w.
Definition set_animate (b : bool) (w : world) : world :=
  set_progressBar (Bar (width (progressBar w)) (transition (progressBar w)) b) w.

(** [forceResetProgressBar()] *)
Definition forceResetProgressBar (w : world) : world :=
  let originalTransition := transition (progressBar w) in
  let w := set_transition "width 0.1s ease-out" w in
  let w := set_width 0 w in
  let w := set_animate false w in
  fst (setTimeout (RestoreTransition originalTransition) 150 w).

(** [resetProgressBar()] *)
Definition resetProgressBar (w : world) : world :=
  let originalTransition := transition (progressBar w) in
  let w := set_transition "none" w in
  let w := set_width 0 w in
  let w := set_animate false w in
  fst (setTimeout (RestoreBar originalTransition) 50 w).

(** ** Rotation sessions *)

(** [images[index]]; assigning [undefined] to [img.src] stores the string. *)
Definition image_at (imgs : list string) (index : Z) : string :=
  if index <? 0 then "undefined"
  else default "undefined" (imgs !! Z.to_nat index).

(** [updateActiveThumbnail(activeIndex)] *)
Definition updateActiveThumbnail (activeIndex : Z) (w : world) : world :=
  set_thumbnails
    (imap (λ index thumb, Thumbnail (src thumb) (bool_decide (Z.of_nat index = activeIndex)))
          (thumbnails w)) w.

Definition set_session (sid : nat) (s : session) (w : world) : world :=
  set_sessions (<[sid := s]> (sessions w)) w.

(** [rotateImages] of the session [sid]. [%] is the remainder of the
    host. *)
Definition rotateImages (sid : nat) (w : world) : world :=
  match sessions w !! sid with
  | None => w
  | Some s =>
      let index := Z.rem (currentImageIndex s + 1) (Z.of_nat (length (session_images s))) in
      let w := set_session sid (Session (session_images s) index (session_progress s)) w in
      let w := set_mainImage_src (image_at (session_images s) index) w in
      let w := updateActiveThumbnail index w in
      let w := set_session sid (Session (session_images s) index 0) w in
      let w := set_transition "width 0.1s ease-out" w in
      let w := set_width 0 w in
      fst (setTimeout (RestoreTransition "") 150 w)
  end.

(** [100 / (IMAGE_ROTATION_CONFIG.interval / 50)] *)
Definition increment (w : world) : Q :=
  (100 / (inject_Z (interval (cfg w)) / 50))%Q.

(** [updateProgress] of the session [sid] *)
Definition updateProgress (sid : nat) (w : world) : world :=
  match sessions w !! sid with
  | None => w
  | Some s =>
      let p := Qred (session_progress s + increment w) in
      let w := set_session sid (Session (session_images s) (currentImageIndex s) p) w in
      if Qle_bool p 100
      then set_width p (set_transition "width 0.05s linear" w)
      else w
  end.

(** [startModalImageRotationWithIndex(images, startIndex)]; the result is
    [{ intervalId, progressInterval }]. *)
Definition startModalImageRotationWithIndex (imgs : list string) (startIndex : Z)
    (w : world) : world * (nat * nat) :=
  let w := clear_if_set (modal (currentRotationIntervals w)) w in
  let w := clear_if_set (progress (currentRotationIntervals w)) w in
  let w := forceResetProgressBar w in
  let sid := length (sessions w) in
  let w := set_sessions (sessions w ++ [Session imgs startIndex 0]) w in
  let '(w, intervalId) := setInterval (RotateImages sid) (interval (cfg w)) w in
  let '(w, progressInterval) := setInterval (UpdateProgress sid) 50 w in
  let w := set_currentRotationIntervals (Intervals (Some intervalId) (Some progressInterval)) w in
  (w, (intervalId, progressInterval)).

(** [startModalImageRotation(images)] *)
Definition startModalImageRotation (imgs : list string) (w : world) : world * (nat * nat) :=
  startModalImageRotationWithIndex imgs 0 w.

(** [stopAllImageRotation()]. No code writes [dataset.rotationIntervals], so
    its loop over the cards does nothing. *)
Definition stopAllImageRotation (w : world) : world :=
  let w :=
    if truthy (modal (currentRotationIntervals w))
    then set_currentRotationIntervals
           (Intervals None (progress (currentRotationIntervals w)))
           (clear_if_set (modal (currentRotationIntervals w)) w)
    else w in
  if truthy (progress (currentRotationIntervals w))
  then set_currentRotationIntervals
         (Intervals (modal (currentRotationIntervals w)) None)
         (clear_if_set (progress (currentRotationIntervals w)) w)
  else w.

(** ** The modal *)

(** [fillModalContent(product)]: the name, and the main image. *)
Definition fillModalContent (p : product) (w : world) : world :=
  set_mainImage_src (image_at (images p) 0) (set_modalProductName (name p) w).

(** [createImageGallery(product)] *)
Definition createImageGallery (p : product) (w : world) : world :=
  match images p with
  | [] => w
  | first :: _ =>
      set_thumbnails
        (imap (λ index image, Thumbnail image (bool_decide (index = 0%nat))) (images p))
        (set_mainImage_src first w)
  end.

(** [showModal()] *)
Definition showModal (w : world) : world := set_modal_display true w.

(** [openProductModal(product)] for a product object. *)
Definition openProductModal (p : product) (w : world) : world :=
  let w := fillModalContent p w in
  let w := createImageGallery p w in
  let w := showModal w in
  if enabled (cfg w) && (1 <? length (images p))%nat then
    let w := set_progressContainer_show true w in
    let w := set_animate true w in
    let w := set_width 0 w in
    fst (setTimeout (OpenStart (images p)) 100 w)
  else w.

(** The callback [openProductModal] schedules after 100 ms: it starts the
    rotation when the modal is still shown, and registers a new pair of
    hover listeners ([removeEventListener] is given fresh functions and
    removes nothing). *)
Definition openStart (imgs : list string) (w : world) : world :=
  if negb (modal_display w) then w
  else
    let '(w, (i, p)) := startModalImageRotation imgs w in
    set_hover (hover w ++ [Handler imgs i p]) w.

(** [pauseOnHover] of the listener pair [h] *)
Definition pauseOnHover (h : handler) (w : world) : world :=
  match intervalId h with
  | S _ => set_animate false (clearInterval (progressInterval h) (clearInterval (intervalId h) w))
  | O => w
  end.

(** [resumeOnLeave] of the [k]-th listener pair *)
Definition resumeOnLeave (k : nat) (w : world) : world :=
  match hover w !! k with
  | None => w
  | Some h =>
      if enabled (cfg w) then
        let '(w, (i, p)) := startModalImageRotation (hover_images h) w in
        set_hover (<[k := Handler (hover_images h) i p]> (hover w)) w
      else w
  end.

(** [mouseenter] and [mouseleave] on the modal run every registered
    listener, in the order of registration. *)
Definition mouseenter (w : world) : world :=
  foldl (λ w h, pauseOnHover h w) w (hover w).

Definition mouseleave (w : world) : world :=
  foldl (λ w k, resumeOnLeave k w) w (seq 0 (length (hover w))).

(** [images.indexOf(imageSrc)] *)
Fixpoint indexOf (imgs : list string) (imageSrc : string) : Z :=
  match imgs with
  | [] => -1
  | image :: imgs' =>
      if String.eqb image imageSrc then 0
      else let r := indexOf imgs' imageSrc in if r <? 0 then -1 else r + 1
  end.

(** [switchMainImage(imageSrc, clickedThumbnail)], the clicked thumbnail
    given by its position in the strip. *)
Definition switchMainImage (imageSrc : string) (clicked : nat) (w : world) : world :=
  let w := set_mainImage_src imageSrc w in
  let w := set_thumbnails
             (imap (λ index thumb, Thumbnail (src thumb) (bool_decide (index = clicked)))
                   (thumbnails w)) w in
  if enabled (cfg w) then
    let w := clear_if_set (modal (currentRotationIntervals w)) w in
    let w := clear_if_set (progress (currentRotationIntervals w)) w in
    let w := forceResetProgressBar w in
    match List.find (λ p, String.eqb (name p) (modalProductName w)) (App_products w) with
    | Some currentProduct =>
        if (1 <? length (images currentProduct))%nat then
          let index := indexOf (images currentProduct) imageSrc in
          fst (setTimeout (SwitchRestart (images currentProduct) index) 150 w)
        else w
    | None => w
    end
  else w.

(** The callback [switchMainImage] schedules after 150 ms. *)
Definition switchRestart (imgs : list string) (index : Z) (w : world) : world :=
  let '(w, (i, p)) := startModalImageRotationWithIndex imgs index w in
  set_currentRotationIntervals (Intervals (Some i) (Some p)) w.

(** [closeProductModal()] *)
Definition closeProductModal (w : world) : world :=
  let w := set_modal_display false w in
  let w := stopAllImageRotation w in
  let w := set_progressContainer_show false w in
  let w := set_animate false w in
  set_width 0 w.

(** [Array.from(thumbnails).findIndex(thumb => thumb.src === currentSrc)],
    as "found or not". *)
Definition has_thumbnail (currentSrc : string) (w : world) : bool :=
  existsb (λ thumb, String.eqb (src thumb) currentSrc) (thumbnails w).

(** [restartImageRotation()] *)
Definition restartImageRotation (w : world) : world :=
  if negb (enabled (cfg w)) then w
  else if modal_display w then
    if negb (String.eqb (mainImage_src w) "") then
      if has_thumbnail (mainImage_src w) w then
        fst (startModalImageRotation (map src (thumbnails w)) w)
      else w
    else w
  else w.

Definition set_enabled (b : bool) (w : world) : world :=
  set_cfg (Config b (interval (cfg w)) (onlyInModal (cfg w))) w.

(** [toggleImageRotation(enabled)] *)
Definition toggleImageRotation (b : bool) (w : world) : world :=
  let w := set_enabled b w in
  if b then restartImageRotation w else stopAllImageRotation w.

(** [setImageRotationInterval(interval)] *)
Definition setImageRotationInterval (i : Z) (w : world) : world :=
  let w := set_cfg (Config (enabled (cfg w)) i (onlyInModal (cfg w))) w in
  if enabled (cfg w) then restartImageRotation w else w.

(** [setImageRotationMode(onlyInModal)] *)
Definition setImageRotationMode (b : bool) (w : world) : world :=
  set_cfg (Config (enabled (cfg w)) (interval (cfg w)) b) w.

(** [forceStartImageRotation()] *)
Definition forceStartImageRotation (w : world) : world :=
  let w := if negb (enabled (cfg w)) then set_enabled true w else w in
  restartImageRotation w.

(** [testImageRotation()] *)
Definition testImageRotation (w : world) : world :=
  if (1 <? length (thumbnails w))%nat then
    let '(w, (i, p)) := startModalImageRotation (map src (thumbnails w)) w in
    fst (setTimeout (TestStop i p) 5000 w)
  else w.

(** The callback [testImageRotation] schedules after 5 s. *)
Definition testStop (i p : nat) (w : world) : world :=
  clear_if_set (Some p) (clear_if_set (Some i) w).

(** ** The event loop *)

Definition run_callback (f : callback) (w : world) : world :=
  match f with
  | RotateImages sid => rotateImages sid w
  | UpdateProgress sid => updateProgress sid w
  | RestoreTransition t => set_transition t w
  | OpenStart imgs => openStart imgs w
  | SwitchRestart imgs index => switchRestart imgs index w
  | RestoreBar t => set_width 0 (set_transition t w)
  | TestStop i p => testStop i p w
  end.

(** [a] runs no later than [b]: it is due earlier, or at the same time with
    the older handle. *)
Definition earlier (a b : timer) : bool :=
  (due a <? due b) || ((due a =? due b) && (tid a <=? tid b)%nat).

(** The timer the host runs next. *)
Fixpoint next_timer (l : list timer) : option timer :=
  match l with
  | [] => None
  | t :: l' =>
      match next_timer l' with
      | None => Some t
      | Some u => if earlier t u then Some t else Some u
      end
  end.

(** After a timer has run it is rescheduled one period later when it
    repeats, and dropped when it does not. *)
Definition reschedule (t : timer) (l : list timer) : list timer :=
  match period t with
  | Some p => map (λ u, if (tid u =? tid t)%nat then Timer (tid u) (due u + p) (period u) (cb u) else u) l
  | None => List.filter (λ u, negb (tid u =? tid t)%nat) l
  end.

(** The host runs timer [t]: the clock reaches its due time, the queue is
    updated, the callback runs. *)
Definition fire (t : timer) (w : world) : world :=
  run_callback (cb t)
    (set_timers (reschedule t (timers w)) (set_now (Z.max (now w) (due t)) w)).

(** One turn of the event loop on the timer queue. *)
Definition fire_next (w : world) : world :=
  match next_timer (timers w) with
  | Some t => fire t w
  | None => w
  end.

(** Let [ms] milliseconds pass: every timer due by then runs, in order, and
    the clock ends at the new time. [fuel] bounds the number of callbacks. *)
Fixpoint run_until (fuel : nat) (deadline : Z) (w : world) : world :=
  match fuel with
  | O => w
  | S fuel' =>
      match next_timer (timers w) with
      | Some t =>
          if due t <=? deadline then run_until fuel' deadline (fire t w)
          else set_now deadline w
      | None => set_now deadline w
      end
  end.

Definition elapse (fuel : nat) (ms : Z) (w : world) : world :=
  run_until fuel (now w + ms) w.

(** What can happen to the page. *)
Inductive event :=
| Open (p : product)              (* a click on a product card *)
| Close                           (* the close button, the overlay, Escape *)
| ClickThumbnail (k : nat)
| MouseEnter
| MouseLeave
| Toggle (b : bool)               (* [toggleImageRotation] *)
| SetInterval (i : Z)             (* [setImageRotationInterval] *)
| SetMode (b : bool)              (* [setImageRotationMode] *)
| ForceStart                      (* [forceStartImageRotation] *)
| Restart                         (* [restartImageRotation] *)
| StopAll                         (* [stopAllImageRotation] *)
| ResetBar                        (* [resetProgressBar] *)
| ForceResetBar                   (* [forceResetProgressBar] *)
| TestRotation                    (* [testImageRotation] *)
| Tick.                           (* the host runs the next timer *)

Definition step (e : event) (w : world) : world :=
  match e with
  | Open p => openProductModal p w
  | Close => closeProductModal w
  | ClickThumbnail k =>
      match thumbnails w !! k with
      | Some thumb => switchMainImage (src thumb) k w
      | None => w
      end
  | MouseEnter => mouseenter w
  | MouseLeave => mouseleave w
  | Toggle b => toggleImageRotation b w
  | SetInterval i => setImageRotationInterval i w
  | SetMode b => setImageRotationMode b w
  | ForceStart => forceStartImageRotation w
  | Restart => restartImageRotation w
  | StopAll => stopAllImageRotation w
  | ResetBar => resetProgressBar w
  | ForceResetBar => forceResetProgressBar w
  | TestRotation => testImageRotation w
  | Tick => fire_next w
  end.

Definition run (events : list event) (w : world) : world :=
  foldl (λ w e, step e w) w events.

(** The live advance timers and the live progress timers. *)
Definition is_advance (t : timer) : bool :=
  match cb t with RotateImages _ => true | _ => false end.
Definition is_progress (t : timer) : bool :=
  match cb t with UpdateProgress _ => true | _ => false end.
Definition advance_timers (w : world) : list timer := List.filter is_advance (timers w).
Definition progress_timers (w : world) : list timer := List.filter is_progress (timers w).

End UI.

(** * Sample data and the notions the statements use *)

Definition rakija : product :=
  Product 1 "Rakija" "Plum brandy" "1200 RSD" "Serbia" "drinks"
          ["img/rakija-1.jpg"; "img/rakija-2.jpg"; "img/rakija-3.jpg"] ["serbia"].

Definition tea : product :=
  Product 2 "Green tea" "Loose leaf" "450 RSD" "China" "drinks"
          ["img/tea-1.jpg"] ["china"].

(** The product list held by the store in the examples. *)
Definition shop : state := set_products [rakija; tea] initial_state.

(** A product with a Russian name, and a shop that sells it. *)
Definition chai : product :=
  Product 3 "Чай зелёный" "Листовой" "450 руб." "Китай" "напитки"
          ["img/chai-1.jpg"] ["china"].

Definition lavka : state := set_products [rakija; chai] initial_state.

(** The queries of the product-data module. *)
Inductive query :=
| ByCategory (c : string)        (* [filterProductsByCategory] *)
| ById (i : Z)                   (* [getProductById] *)
| UniqueCategories               (* [getUniqueCategories] *)
| Statistics                     (* [getProductsStats] *)
| Search (q : string)            (* [searchProducts] *)
| ByPriceRange (lo hi : Z)       (* [getProductsByPriceRange] *)
| ByCountry (c : string).        (* [getProductsByCountry] *)

(** The module state after a query. *)
Definition ask (q : query) (st : state) : state :=
  match q with
  | ByCategory c => snd (ProductData.filterProductsByCategory c st)
  | ById i => snd (ProductData.getProductById i st)
  | UniqueCategories => snd (ProductData.getUniqueCategories st)
  | Statistics => snd (ProductData.getProductsStats st)
  | Search q => snd (ProductData.searchProducts q st)
  | ByPriceRange lo hi => snd (ProductData.getProductsByPriceRange lo hi st)
  | ByCountry c => snd (ProductData.getProductsByCountry c st)
  end.

(** The queries [qs], made one after another. *)
Definition asked (qs : list query) (st : state) : state :=
  foldl (λ st q, ask q st) st qs.

(** A key of the form another query kind gives its cache entries. *)
Definition foreign_key (k : string) : bool :=
  String.prefix "product_" k || String.prefix "search_" k ||
  String.prefix "price_" k || String.prefix "country_" k ||
  String.eqb k "unique_categories".

(** What a category query computes from the list when the cache has no
    entry for it. *)
Definition by_category (c : string) (ps : list product) : list product :=
  if decide (c = "all") then ps else filter (λ p, c ∈ tags p) ps.

(** Every cache entry under a key that only a category query writes is what
    the category query computes for that key. *)
Definition category_cache (st : state) : Prop :=
  ∀ k v, filterCache st !! k = Some v → foreign_key k = false →
         v = VArray (by_category k (products st)).

(** A per-country file fails to load: the request fails, the status is not
    OK, the body does not parse, or it parses to something that is not an
    array. *)
Definition fails (f : fetched document) : bool :=
  match f with
  | NetworkError => true
  | Response ok _ b =>
      negb ok ||
      match b with
      | Unparsable => true
      | Parsed DocOther => true
      | Parsed (DocArray _) => false
      end
  end.

(** The combined document fails to load: the request fails, the status is
    not OK, the body does not parse, or it parses to [null]. *)
Definition fails_combined (f : fetched combined_document) : bool :=
  match f with
  | NetworkError => true
  | Response ok _ b =>
      negb ok ||
      match b with
      | Unparsable => true
      | Parsed CombinedNull => true
      | Parsed (Combined _) => false
      end
  end.

(** The console has gained lines since [st], one of them at level Error. *)
Definition logs_error (st st' : state) : Prop :=
  ∃ l, console st' = console st ++ l ∧ existsb is_error l = true.

(** ** Notions for the rotation timers *)

(** The timers left once [startModalImageRotationWithIndex] has cleared the
    stored handles. *)
Definition cleared (w : UI.world) : list UI.timer :=
  UI.timers (UI.clear_if_set (UI.progress (UI.currentRotationIntervals w))
               (UI.clear_if_set (UI.modal (UI.currentRotationIntervals w)) w)).

(** The live advance and progress timers are the ones whose handles
    [currentRotationIntervals] holds; handles are positive, distinct, and
    below the next one the host hands out. *)
Record stored_pair (ts : list UI.timer) (cri : UI.intervals) (nh : nat) : Prop := StoredPair {
  sp_advance : ∀ t, t ∈ ts → UI.is_advance t = true → UI.modal cri = Some (UI.tid t);
  sp_progress : ∀ t, t ∈ ts → UI.is_progress t = true → UI.progress cri = Some (UI.tid t);
  sp_nodup : NoDup (map UI.tid ts);
  sp_fresh : ∀ t, t ∈ ts → (0 < UI.tid t < nh)%nat;
  sp_next : (0 < nh)%nat
}.

Definition timers_stored (w : UI.world) : Prop :=
  stored_pair (UI.timers w) (UI.currentRotationIntervals w) (UI.next_handle w).

(** [if (h) clearInterval(h)] on the queue alone. *)
Definition clear_list (h : option nat) (ts : list UI.timer) : list UI.timer :=
  match h with
  | Some (S n) => List.filter (λ t, negb (UI.tid t =? S n)%nat) ts
  | _ => ts
  end.

(** The queue after a start: the old timers that survive the clearing, the
    transition timer of the reset, and the new pair. *)
Definition started (ts : list UI.timer) (cri : UI.intervals) (nh : nat)
    (r a p : UI.timer) : list UI.timer :=
  clear_list (UI.progress cri) (clear_list (UI.modal cri) ts) ++ [r; a; p].

(** Only transition timers are pending, each a one-shot timer with a handle
    the host has handed out. *)
Definition quiet (w : UI.world) : Prop :=
  ∀ t, t ∈ UI.timers w →
    (UI.tid t < UI.next_handle w)%nat ∧ UI.period t = None ∧
    ∃ s, UI.cb t = UI.RestoreTransition s.

(** [k] turns of the event loop. *)
Definition turns (k : nat) (w : UI.world) : UI.world := Nat.iter k UI.fire_next w.

(** A session is running and has not advanced yet: its advance timer [a] is
    due at [T], its progress timer has handle [S a], every other timer is a
    transition timer, and the page still shows what it showed at the
    start. *)
Record running (imgs : list string) (i : Z) (sid a : nat) (T I : Z)
    (src0 : string) (th0 : list UI.thumbnail) (w : UI.world) : Prop := Running {
  run_advance : UI.Timer a T (Some I) (UI.RotateImages sid) ∈ UI.timers w;
  run_timers : ∀ t, t ∈ UI.timers w →
    t = UI.Timer a T (Some I) (UI.RotateImages sid) ∨
    (∃ d, t = UI.Timer (S a) d (Some 50) (UI.UpdateProgress sid)) ∨
    (UI.tid t ≠ a ∧ UI.tid t ≠ S a ∧ UI.period t = None ∧
     ∃ s, UI.cb t = UI.RestoreTransition s);
  run_session : ∃ q, UI.sessions w !! sid = Some (UI.Session imgs i q);
  run_src : UI.mainImage_src w = src0;
  run_thumbnails : UI.thumbnails w = th0;
  run_now : UI.now w ≤ T
}.

(** How many more times a timer can run before the advance timer due at
    [T]: a progress timer once per 50 ms, a one-shot timer once. *)
Definition runs_left (T : Z) (t : UI.timer) : nat :=
  match UI.cb t with
  | UI.RotateImages _ => 0
  | UI.UpdateProgress _ => Z.to_nat ((T - UI.due t + 49) / 50)
  | _ => 1
  end.

Definition work_left (T : Z) (ts : list UI.timer) : nat :=
  foldr (λ t n, (runs_left T t + n)%nat) 0%nat ts.

(** ** Scenarios on the sample shop *)

(** The page with the two sample products loaded. *)
Definition gallery : UI.world := UI.initial_world [rakija; tea].

(** The card of the three-image product is clicked; 100 ms later the
    delayed start has run and the rotation is on. *)
Definition opened : UI.world := UI.elapse 200 100 (UI.step (UI.Open rakija) gallery).

(** Two intervals later the third image is shown. *)
Definition at_third : UI.world := UI.elapse 200 6000 opened.

(** The pointer enters the modal 20 ms later, and leaves it again. *)
Definition hovered : UI.world := UI.step UI.MouseEnter (UI.elapse 200 20 at_third).
Definition resumed : UI.world := UI.step UI.MouseLeave hovered.

(** One interval after the pointer has left. *)
Definition after_resume : UI.world := UI.elapse 200 3000 resumed.

(** The card of the one-image product is clicked, and 100 ms pass. *)
Definition single : UI.world := UI.elapse 200 100 (UI.step (UI.Open tea) gallery).

(** In the open modal of the three-image product the second thumbnail is
    clicked; 50 ms later the modal is closed; then 3100 ms pass. *)
Definition clicked : UI.world := UI.step (UI.ClickThumbnail 1) opened.
Definition closed : UI.world := UI.step UI.Close (UI.elapse 200 50 clicked).
Definition long_after_close : UI.world := UI.elapse 200 3100 closed.

(** * Further parts of the data modules *)

(** ** The queries as a whole *)

(** What a query returns: a value, cached or computed, or the statistics
    object. *)
Inductive reply :=
| Value (v : value)
| Statistic (s : stats).

Definition answer (q : query) (st : state) : reply :=
  match q with
  | ByCategory c => Value (fst (ProductData.filterProductsByCategory c st))
  | ById i => Value (fst (ProductData.getProductById i st))
  | UniqueCategories => Value (fst (ProductData.getUniqueCategories st))
  | Statistics => Statistic (fst (ProductData.getProductsStats st))
  | Search q => Value (fst (ProductData.searchProducts q st))
  | ByPriceRange lo hi => Value (fst (ProductData.getProductsByPriceRange lo hi st))
  | ByCountry c => Value (fst (ProductData.getProductsByCountry c st))
  end.

(** [!query || !query.trim()] *)
Definition blank (q : string) : bool :=
  bool_decide (q = "") || bool_decide (trim q = "").

(** The key of [filterCache] a query reads and writes; [getProductsStats]
    and a blank search use none. *)
Definition cache_key (q : query) : option string :=
  match q with
  | ByCategory c => Some c
  | ById i => Some ("product_" +:+ pretty i)
  | UniqueCategories => Some "unique_categories"
  | Statistics => None
  | Search q => if blank q then None else Some ("search_" +:+ trim (toLowerCase q))
  | ByPriceRange lo hi => Some ("price_" +:+ pretty lo +:+ "_" +:+ pretty hi)
  | ByCountry c => Some ("country_" +:+ c)
  end.

(** What the body of a query computes from the list [ps] when it finds
    nothing cached. *)
Definition computed (q : query) (ps : list product) : reply :=
  match q with
  | ByCategory c => Value (VArray (by_category c ps))
  | ById i => Value (ProductData.find_by_id i ps)
  | UniqueCategories =>
      Value (VStrings (foldl ProductData.add_tag [] (concat (map tags ps))))
  | Statistics =>
      Statistic (Stats (length ps)
                   (foldl (λ m p, ProductData.count_up (country p) m) ∅ ps)
                   (foldl (λ m p, ProductData.count_up (category p) m) ∅ ps))
  | Search q =>
      Value (VArray (if blank q then ps
                     else List.filter (ProductData.matches (trim (toLowerCase q))) ps))
  | ByPriceRange lo hi => Value (VArray (List.filter (ProductData.in_range lo hi) ps))
  | ByCountry c =>
      Value (VArray (List.filter
                       (λ p, String.eqb (toLowerCase (country p)) (toLowerCase c)) ps))
  end.

(** A category query whose tag is not a key of another query kind; every
    other query. *)
Definition own_key (q : query) : bool :=
  match q with
  | ByCategory c => negb (foreign_key c)
  | _ => true
  end.

(** Every entry is what the query of its key computes from the list [ps],
    and so is the cached statistics object. *)
Definition transparent (ps : list product) (st : state) : Prop :=
  products st = ps ∧
  (∀ q k v, own_key q = true → cache_key q = Some k →
            filterCache st !! k = Some v → Value v = computed q ps) ∧
  (∀ s, statsCache st = Some s → Statistic s = computed Statistics ps).

(** The character [c] occurs in [s]. *)
Fixpoint has_char (c : ascii) (s : string) : bool :=
  match s with
  | EmptyString => false
  | String x s' => Ascii.eqb x c || has_char c s'
  end.

(** The names a plain object inherits from [Object.prototype]: under these
    [stats[name]] is not [undefined] before anything is counted. *)
Definition inherited_name (s : string) : bool :=
  bool_decide (s ∈ [ "constructor"; "__proto__"; "hasOwnProperty"; "isPrototypeOf";
                     "propertyIsEnumerable"; "toLocaleString"; "toString"; "valueOf";
                     "__defineGetter__"; "__defineSetter__"; "__lookupGetter__";
                     "__lookupSetter__" ]).

(** The number of products of [ps] whose field [f] is [c]. *)
Definition count_of (f : product → string) (c : string) (ps : list product) : nat :=
  length (List.filter (λ p, String.eqb (f p) c) ps).

(** ** The rest of load-all-products.js *)
Module LoaderQueries.

(** [getCountryStats()] *)
Definition getCountryStats (st : state) : gmap string nat :=
  match productsCache st !! "all_products" with
  | None => ∅
  | Some allProducts =>
      foldl (λ stats product,
               foldl (λ stats tag, ProductData.count_up tag stats) stats (tags product))
            ∅ allProducts
  end.

(** [getProductsByCountry(country)] of the loader *)
Definition getProductsByCountry (country : string) (st : state) : list product :=
  match productsCache st !! "all_products" with
  | None => []
  | Some allProducts => filter (λ product, country ∈ tags product) allProducts
  end.

End LoaderQueries.

(** The array a per-country request delivers when it does not fail. *)
Definition served (f : fetched document) : list product :=
  match f with
  | Response true _ (Parsed (DocArray ps)) => ps
  | _ => []
  end.

(** What [loadProductsFromFile(path)] resolves to in state [st]: the cached
    array, or what the request delivers. *)
Definition contribution (net : string → fetched document) (st : state)
    (path : string) : list product :=
  match productsCache st !! path with
  | Some ps => ps
  | None => served (net path)
  end.

(** The cache entry [loadProductsFromFile(path)] leaves under [path]: the
    one it found, or the array it was served; none when the request fails. *)
Definition file_entry (net : string → fetched document) (st : state)
    (path : string) : option (list product) :=
  match productsCache st !! path with
  | Some ps => Some ps
  | None => if fails (net path) then None else Some (served (net path))
  end.

(** The module state after [loadProductsFromFile(path)]. *)
Definition after_file (net : string → fetched document) (path : string)
    (st : state) : state :=
  match productsCache st !! path with
  | Some _ => st
  | None =>
      if fails (net path) then safeLog Error ("error loading " +:+ path) st
      else set_productsCache (<[path := served (net path)]> (productsCache st))
             (safeLog Info ("loaded " +:+ path) st)
  end.

(** [st'] differs from [st] at most in the loader's cache and the console. *)
Definition same_store (st st' : state) : Prop :=
  products st' = products st ∧ filterCache st' = filterCache st ∧
  statsCache st' = statsCache st ∧ dataIsLoading st' = dataIsLoading st ∧
  loaderIsLoading st' = loaderIsLoading st.

(** [refreshProducts()] of the product-data module, run to its end with
    nothing else running in between: [clearCaches()], [products = []],
    [loadProducts()]. *)
Definition refreshProducts (hasLoader hasEvents : bool) (net : string → fetched document)
    (combined : fetched combined_document) (st : state) : option ProductData.loaded :=
  ProductData.loadProducts hasLoader hasEvents net combined
    (set_products [] (ProductData.call_clearCaches hasEvents st)).

(** No load is in flight and the loader has not merged the files yet. *)
Definition ready_to_load (st : state) : Prop :=
  products st = [] ∧ dataIsLoading st = false ∧
  loaderIsLoading st = false ∧ productsCache st !! "all_products" = None.

(** * Further notions for the rotation *)

(** ** The progress bar *)

(** [setImageRotationInterval] is given a positive number of milliseconds. *)
Definition positive_interval (e : UI.event) : bool :=
  match e with
  | UI.SetInterval i => 0 <? i
  | _ => true
  end.

(** The interval is positive, the bar is between 0% and 100%, and no
    session has counted below 0. *)
Definition bar_within (w : UI.world) : Prop :=
  0 < UI.interval (UI.cfg w) ∧
  (0 <= UI.width (UI.progressBar w))%Q ∧ (UI.width (UI.progressBar w) <= 100)%Q ∧
  Forall (λ s, (0 <= UI.session_progress s)%Q) (UI.sessions w).

(** [w'] has the interval of [w], its bar where it was or at 0, and its
    sessions followed by new ones that start at 0. *)
Definition bar_kept (w w' : UI.world) : Prop :=
  UI.interval (UI.cfg w') = UI.interval (UI.cfg w) ∧
  (UI.width (UI.progressBar w') = UI.width (UI.progressBar w) ∨
   UI.width (UI.progressBar w') = 0%Q) ∧
  ∃ l, UI.sessions w' = UI.sessions w ++ l ∧
       Forall (λ s, UI.session_progress s = 0%Q) l.

(** ** The rotation switch *)

(** A timer whose callback starts no rotation and changes no image. *)
Definition harmless (t : UI.timer) : bool :=
  match UI.cb t with
  | UI.RestoreTransition _ | UI.RestoreBar _ | UI.TestStop _ _ => true
  | _ => false
  end.

(** No delayed start is pending: every timer is harmless or belongs to a
    rotation. *)
Definition no_start_pending (w : UI.world) : bool :=
  forallb (λ t, harmless t || UI.is_advance t || UI.is_progress t) (UI.timers w).

(** Rotation is switched off and nothing pending can start it. *)
Definition switched_off (w : UI.world) : Prop :=
  UI.enabled (UI.cfg w) = false ∧ forallb harmless (UI.timers w) = true.

(** The events that do not switch rotation on: all but
    [toggleImageRotation(true)], [forceStartImageRotation()] and
    [testImageRotation()]. *)
Definition keeps_off (e : UI.event) : bool :=
  match e with
  | UI.Toggle true | UI.ForceStart | UI.TestRotation => false
  | _ => true
  end.

(** [w'] has the switch of [w], and its timers are harmless or call what a
    timer of [w] calls. *)
Definition off_kept (w w' : UI.world) : Prop :=
  UI.enabled (UI.cfg w') = UI.enabled (UI.cfg w) ∧
  ∀ t, t ∈ UI.timers w' →
       (∃ u, u ∈ UI.timers w ∧ UI.cb u = UI.cb t) ∨ harmless t = true.

(** ** Handles *)


(** ** The bar inside one interval *)

(** The interval is positive, and the bar shows at most what session [sid]
    has counted, and at most 100%. *)
Definition bar_follows (sid : nat) (w : UI.world) : Prop :=
  0 < UI.interval (UI.cfg w) ∧
  (UI.width (UI.progressBar w) <= 100)%Q ∧
  ∃ s, UI.sessions w !! sid = Some s ∧
       (UI.width (UI.progressBar w) <= UI.session_progress s)%Q.

(** ** Hover *)

(** The listener pair registered last holds the handles that
    [currentRotationIntervals] stores. *)
Definition tracked (w : UI.world) : Prop :=
  ∃ hs h, UI.hover w = hs ++ [h] ∧ UI.intervalId h ≠ 0%nat ∧
          UI.currentRotationIntervals w
          = UI.Intervals (Some (UI.intervalId h)) (Some (UI.progressInterval h)).

(** ** A thumbnail click *)

(** A one-shot transition timer. *)
Definition is_transition (t : UI.timer) : bool :=
  match UI.cb t, UI.period t with
  | UI.RestoreTransition _, None => true
  | _, _ => false
  end.

(** Every pending timer belongs to the rotation or is a one-shot transition
    timer: no delayed start, restart or reset is pending. *)
Definition settled (w : UI.world) : bool :=
  forallb (λ t, UI.is_advance t || UI.is_progress t || is_transition t) (UI.timers w).


(** * The user-interface module: the product grid *)
Module Grid.
Import PrimFloat.
#[local] Set Warnings "-inexact-float".

(** What a card shows: [img.product-image], [.product-name],
    [.product-description], [.product-country], [.product-price]. *)
Record markup := Markup {
  shown_image : string;
  shown_name : string;
  shown_description : string;
  shown_country : string;
  shown_price : string
}.

(** A [.product-card]: what it shows, and the product its click listener
    opens the modal for. *)
Record card := Card {
  card_markup : markup;
  card_opens : product
}.

(** The children of [#productsGrid]. *)
Inductive content :=
| Children (cards : list card)
| NoProducts.                      (* the [.no-products] message *)

(** The functions [displayProducts] hands to [setTimeout]; each closes over
    the [requestId] of its call. *)
Inductive callback :=
| Render (requestId : nat) (productsToShow : list product)  (* after 150 ms *)
| AnimationDone (requestId : nat)                           (* after the animations *)
| Safety (requestId : nat).                                 (* after 2 s *)

Record timer := Timer {
  tid : nat;
  due : Z;
  cb : callback
}.

(** The grid, the two module variables [isDisplayingProducts] and
    [currentDisplayRequest], [productCardsCache], and the host: its timer
    queue, the requests whose [requestAnimationFrame] callback is pending,
    and its clock. A [requestId] is [Date.now() + Math.random()]: the model
    takes the next number of a counter, so that no two calls share one.

    Left out: the inline styles of the grid and the cards but for the
    grid's opacity, the rotation inside the cards (off while [onlyInModal]
    is set), and the console. *)
Record page := Page {
  productsGrid : content;
  grid_shown : bool;                      (* [style.opacity] is ['1'] *)
  isDisplayingProducts : bool;
  currentDisplayRequest : option nat;
  productCardsCache : gmap string markup;
  timers : list timer;
  frames : list nat;
  next_handle : nat;
  next_request : nat;
  now : Z
}.

(** The page after the scripts have run. *)
Definition initial_page : page := Page (Children []) true false None ∅ [] [] 1 1 0.

Definition setTimeout (f : callback) (delay : Z) (w : page) : page :=
  Page (productsGrid w) (grid_shown w) (isDisplayingProducts w) (currentDisplayRequest w)
       (productCardsCache w)
       (timers w ++ [Timer (next_handle w) (now w + Z.max 0 delay) f])
       (frames w) (S (next_handle w)) (next_request w) (now w).

Definition requestAnimationFrame (requestId : nat) (w : page) : page :=
  Page (productsGrid w) (grid_shown w) (isDisplayingProducts w) (currentDisplayRequest w)
       (productCardsCache w) (timers w) (frames w ++ [requestId])
       (next_handle w) (next_request w) (now w).

(** [isDisplayingProducts = false; currentDisplayRequest = null] *)
Definition resetDisplayFlag (w : page) : page :=
  Page (productsGrid w) (grid_shown w) false None (productCardsCache w) (timers w)
       (frames w) (next_handle w) (next_request w) (now w).

(** [if (currentDisplayRequest === requestId) { ... }] *)
Definition finish (requestId : nat) (w : page) : page :=
  if decide (currentDisplayRequest w = Some requestId) then resetDisplayFlag w else w.

(** The cache key [`${product.id}-${product.images[0]}`]. *)
Definition card_key (p : product) : string :=
  pretty (id p) +:+ "-" +:+ UI.image_at (images p) 0.

(** What a newly built card shows. *)
Definition fresh_markup (p : product) : markup :=
  Markup (UI.image_at (images p) 0) (name p)
         (if decide (description p = "") then "Описание товара отсутствует"
          else description p)
         (country p) (price p).

(** [createProductCard(product)]: a clone of the cached card when there is
    one, with a click listener of its own; a new card otherwise, whose clone
    goes to the cache. *)
Definition createProductCard (p : product) (cache : gmap string markup)
    : card * gmap string markup :=
  let cacheKey := card_key p in
  match cache !! cacheKey with
  | Some cachedCard => (Card cachedCard p, cache)
  | None => (Card (fresh_markup p) p, <[cacheKey := fresh_markup p]> cache)
  end.

(** [productsToShow.forEach(product => ... createProductCard(product) ...)] *)
Fixpoint createCards (ps : list product) (cache : gmap string markup)
    : list card * gmap string markup :=
  match ps with
  | [] => ([], cache)
  | p :: ps' =>
      let '(c, cache1) := createProductCard p cache in
      let '(cs, cache2) := createCards ps' cache1 in
      (c :: cs, cache2)
  end.

(** The callback of the first [setTimeout] of [displayProducts]. *)
Definition render (requestId : nat) (productsToShow : list product) (w : page) : page :=
  match productsToShow with
  | [] =>
      finish requestId
        (Page NoProducts true (isDisplayingProducts w) (currentDisplayRequest w)
              (productCardsCache w) (timers w) (frames w)
              (next_handle w) (next_request w) (now w))
  | _ =>
      let '(cards, cache) := createCards productsToShow (productCardsCache w) in
      requestAnimationFrame requestId
        (Page (Children cards) true (isDisplayingProducts w) (currentDisplayRequest w)
              cache (timers w) (frames w) (next_handle w) (next_request w) (now w))
  end.

(** The delay the host reads from a number: the number without its
    fraction (for a number below [2^31]), and 0 for [NaN] and the
    infinities. *)
Definition to_delay (x : PrimFloat.float) : Z :=
  match FloatOps.Prim2SF x with
  | SpecFloat.S754_finite sign m e =>
      let a := if 0 <=? e then Z.pos m * 2 ^ e else Z.pos m / 2 ^ (- e) in
      if sign then - a else a
  | _ => 0
  end.

(** [0.5 + (cards.length * 0.05)], in the host's double-precision
    arithmetic. *)
Definition totalAnimationTime (count : nat) : PrimFloat.float :=
  (0.5 + PrimFloat.of_uint63 (Uint63.of_Z (Z.of_nat count)) * 0.05)%float.

(** The callback of [requestAnimationFrame]: it counts the children of the
    grid and schedules the end of the animations,
    [totalAnimationTime * 1000] ms later. *)
Definition animate (requestId : nat) (w : page) : page :=
  let count := match productsGrid w with
               | Children cards => length cards
               | NoProducts => 1%nat
               end in
  setTimeout (AnimationDone requestId) (to_delay (totalAnimationTime count * 1000)%float) w.

(** [displayProducts(productsToShow)] for an array. The [clearTimeout] of
    its first lines is given the previous request id, a time stamp and not
    the handle of a timer: it cancels nothing. *)
Definition displayProducts (productsToShow : list product) (w : page) : page :=
  let requestId := next_request w in
  let w := Page (productsGrid w) false true (Some requestId) ∅ (timers w) (frames w)
                (next_handle w) (S requestId) (now w) in
  let w := setTimeout (Render requestId productsToShow) 150 w in
  setTimeout (Safety requestId) 2000 w.

(** ** The host *)

Definition run_callback (f : callback) (w : page) : page :=
  match f with
  | Render requestId productsToShow => render requestId productsToShow w
  | AnimationDone requestId => finish requestId w
  | Safety requestId => finish requestId w
  end.

(** [a] runs no later than [b]: it is due earlier, or at the same time with
    the older handle. *)
Definition earlier (a b : timer) : bool :=
  (due a <? due b) || ((due a =? due b) && (tid a <=? tid b)%nat).

Fixpoint next_timer (l : list timer) : option timer :=
  match l with
  | [] => None
  | t :: l' =>
      match next_timer l' with
      | None => Some t
      | Some u => if earlier t u then Some t else Some u
      end
  end.

(** The host runs timer [t]: the clock reaches its due time if it has not
    yet, the timer leaves the queue, the callback runs. *)
Definition fire (t : timer) (w : page) : page :=
  run_callback (cb t)
    (Page (productsGrid w) (grid_shown w) (isDisplayingProducts w) (currentDisplayRequest w)
          (productCardsCache w)
          (List.filter (λ u, negb (tid u =? tid t)%nat) (timers w))
          (frames w) (next_handle w) (next_request w) (Z.max (now w) (due t))).

Definition fire_next (w : page) : page :=
  match next_timer (timers w) with
  | Some t => fire t w
  | None => w
  end.

(** The next frame: the pending animation callbacks run, in the order of
    their registration. *)
Definition frame (w : page) : page :=
  foldl (λ w requestId, animate requestId w)
        (Page (productsGrid w) (grid_shown w) (isDisplayingProducts w)
              (currentDisplayRequest w) (productCardsCache w) (timers w) []
              (next_handle w) (next_request w) (now w))
        (frames w).

(** Time passes and no callback runs. *)
Definition wait (ms : Z) (w : page) : page :=
  Page (productsGrid w) (grid_shown w) (isDisplayingProducts w) (currentDisplayRequest w)
       (productCardsCache w) (timers w) (frames w) (next_handle w) (next_request w)
       (now w + Z.max 0 ms).

(** What can happen to the grid. Timers run in the order of their due
    times; frames and waits come in between in any order. *)
Inductive event :=
| Display (productsToShow : list product)  (* [displayProducts] *)
| ResetFlag                                (* [resetDisplayFlag] *)
| Tick                                     (* the host runs the next timer *)
| Frame                                    (* the host renders a frame *)
| Wait (ms : Z).

Definition step (e : event) (w : page) : page :=
  match e with
  | Display productsToShow => displayProducts productsToShow w
  | ResetFlag => resetDisplayFlag w
  | Tick => fire_next w
  | Frame => frame w
  | Wait ms => wait ms w
  end.

Definition run (events : list event) (w : page) : page :=
  foldl (λ w e, step e w) w events.


End Grid.

(** * The events module: the category filter *)
Module Events.

(** The page as [filterProducts] sees it: the product-data module, the
    grid of the user-interface module, and the module variable
    [currentFilter]. [window.ProductData] and [window.UI] are the two
    modules above, so the first branch of each choice runs. The log is left
    out. *)
Record app := App {
  app_data : state;
  app_grid : Grid.page;
  currentFilter : string
}.


End Events.

(** ** Notions for the grid *)




(** Pending timers have distinct handles, below the next one the host hands
    out. *)
Definition queue_sound (w : Grid.page) : Prop :=
  (∀ t, t ∈ Grid.timers w → (Grid.tid t < Grid.next_handle w)%nat) ∧
  NoDup (map Grid.tid (Grid.timers w)).


(** The flag is up exactly while a request is current, the safety timer of
    the current request is pending and due within two seconds, and request
    ids are below the next one. *)
Record flag_guarded (w : Grid.page) : Prop := FlagGuarded {
  fg_queue : queue_sound w;
  fg_flag : Grid.isDisplayingProducts w = true ↔ Grid.currentDisplayRequest w ≠ None;
  fg_safety : ∀ r, Grid.currentDisplayRequest w = Some r →
    ∃ t, t ∈ Grid.timers w ∧ Grid.cb t = Grid.Safety r ∧ Grid.due t ≤ Grid.now w + 2000
}.

(** * The product store *)
Section Store.
Import ProductData.

(** ** The primitives and the queries on the sample shop *)

Example parseFloat_examples :
  parseFloat (keep_digits_and_dots "1.250 RSD") = Some (Finite (5 # 4)) ∧
  parseFloat (keep_digits_and_dots "RSD") = None ∧
  parseFloat "." = None ∧
  parseFloat "12.5.3" = Some (Finite (25 # 2)) ∧
  parseFloat "7." = Some (Finite 7) ∧
  parseFloat ".5" = Some (Finite (1 # 2)) ∧
  parseFloat "0.1" = Some (Finite (3602879701896397 # 36028797018963968)) ∧
  parseFloat "9007199254740993" = Some (Finite 9007199254740992).
Proof. vm_compute. repeat split. Qed.

Example string_examples :
  trim "  ab c  " = "ab c" ∧ toLowerCase "AbZ9" = "abz9" ∧
  toLowerCase "РАКИЯ" = "ракия" ∧ toLowerCase "ΟΔΟΣ" = "οδος" ∧
  trim (String "194" (String "160" " чай ")) = "чай" ∧
  includes "hello" "ell" = true ∧ includes "hello" "elo" = false.
Proof. vm_compute. repeat split. Qed.

Example query_examples :
  fst (filterProductsByCategory "serbia" shop) = VArray [rakija] ∧
  fst (filterProductsByCategory "all" shop) = VArray [rakija; tea] ∧
  fst (getProductById 2 shop) = VProduct tea ∧
  fst (searchProducts "  TEA " shop) = VArray [tea] ∧
  fst (searchProducts "   " shop) = VArray [rakija; tea] ∧
  fst (getProductsByPriceRange 400 500 shop) = VArray [tea] ∧
  fst (getProductsByCountry "SERBIA" shop) = VArray [rakija] ∧
  fst (getUniqueCategories shop) = VStrings ["serbia"; "china"].
Proof. vm_compute. repeat split. Qed.

(** ** Category queries *)

Lemma by_category_elem c ps p :
  p ∈ by_category c ps ↔ p ∈ ps ∧ (c = "all" ∨ c ∈ tags p).
Proof.
  unfold by_category. case_decide as Hc.
  - split; [intros Hp; split; [done | by left] | by intros [Hp _]].
  - rewrite list_elem_of_filter. split.
    + intros [Hq Hp]. split; [done | by right].
    + by intros [Hp [Hq | Hq]].
Qed.

Lemma prefix_append p s : String.prefix p (p +:+ s) = true.
Proof.
  induction p as [|c p IH]; simpl; [by destruct s |].
  destruct (ascii_dec c c); [exact IH | done].
Qed.

Lemma foreign_product s : foreign_key ("product_" +:+ s) = true.
Proof. unfold foreign_key. by rewrite prefix_append. Qed.

Lemma foreign_search s : foreign_key ("search_" +:+ s) = true.
Proof. unfold foreign_key. rewrite (prefix_append "search_"). apply orb_true_iff. left. apply orb_true_iff. left. apply orb_true_iff. left. apply orb_true_r. Qed.

Lemma foreign_price s : foreign_key ("price_" +:+ s) = true.
Proof. unfold foreign_key. rewrite (prefix_append "price_"). apply orb_true_iff. left. apply orb_true_iff. left. apply orb_true_r. Qed.

Lemma foreign_country s : foreign_key ("country_" +:+ s) = true.
Proof. unfold foreign_key. rewrite (prefix_append "country_"). apply orb_true_iff. left. apply orb_true_r. Qed.

Lemma category_cache_insert_foreign k v st :
  foreign_key k = true →
  category_cache st →
  category_cache (set_filterCache (<[k := v]> (filterCache st)) st).
Proof.
  intros Hk Hc k' v'. unfold set_filterCache; simpl.
  rewrite lookup_insert. case_decide as E; [| apply Hc].
  subst k'. intros _ Hk'. congruence.
Qed.

Lemma filterProductsByCategory_coherent c st :
  category_cache st →
  (foreign_key c = false →
     fst (filterProductsByCategory c st) = VArray (by_category c (products st))) ∧
  category_cache (snd (filterProductsByCategory c st)) ∧
  products (snd (filterProductsByCategory c st)) = products st.
Proof.
  intros Hc. unfold filterProductsByCategory.
  destruct (filterCache st !! c) as [v|] eqn:Hl; simpl.
  - split; [by apply Hc | done].
  - split; [done |]. split; [| done].
    intros k v. unfold set_filterCache; simpl.
    rewrite lookup_insert. case_decide as Hk; [| apply Hc].
    intros [= <-] _. by subst k.
Qed.

(** No query changes the list, and none breaks the entries of the category
    queries. *)
Lemma ask_coherent q st :
  category_cache st →
  category_cache (ask q st) ∧ products (ask q st) = products st.
Proof.
  intros Hc. destruct q as [c | i | | | q | lo hi | c]; simpl.
  - by destruct (filterProductsByCategory_coherent c st Hc) as (_ & H1 & H2).
  - unfold getProductById. destruct (filterCache st !! _); simpl; [done |].
    split; [| done]. apply category_cache_insert_foreign; [apply foreign_product | done].
  - unfold getUniqueCategories. destruct (filterCache st !! _); simpl; [done |].
    split; [| done]. by apply category_cache_insert_foreign.
  - unfold getProductsStats. by destruct (statsCache st).
  - unfold searchProducts. repeat case_decide; simpl; try done.
    destruct (filterCache st !! _); simpl; [done |].
    split; [| done]. apply category_cache_insert_foreign; [apply foreign_search | done].
  - unfold getProductsByPriceRange. destruct (filterCache st !! _); simpl; [done |].
    split; [| done]. apply category_cache_insert_foreign; [apply foreign_price | done].
  - unfold getProductsByCountry. destruct (filterCache st !! _); simpl; [done |].
    split; [| done]. apply category_cache_insert_foreign; [apply foreign_country | done].
Qed.

Lemma asked_coherent qs st :
  category_cache st →
  category_cache (asked qs st) ∧ products (asked qs st) = products st.
Proof.
  revert st. induction qs as [|q qs IH]; intros st Hc; [done |].
  unfold asked in *; simpl.
  destruct (ask_coherent q st Hc) as [Hc' Hp].
  destruct (IH _ Hc') as [H1 H2]. split; [done |]. by rewrite H2.
Qed.

Lemma clearCaches_coherent st : category_cache (clearCaches st).
Proof. intros k v. unfold clearCaches; simpl. by rewrite lookup_empty. Qed.

(** C3, as stated, fails for the category ['all']: the query returns every
    product, also one whose tags do not contain ['all']. *)
Lemma filterByCategory_all_counterexample :
  fst (filterProductsByCategory "all" shop) = VArray [rakija; tea] ∧
  rakija ∈ [rakija; tea] ∧ "all" ∉ tags rakija.
Proof.
  split; [reflexivity |]. split; [by left |].
  intros H. apply list_elem_of_In in H. simpl in H. by destruct H as [H | []].
Qed.

(** C3 (amended): whatever queries the cache epoch has seen, for a tag [t]
    that is not a key of another query kind (it does not start with
    [product_], [search_], [price_] or [country_] and is not
    [unique_categories]), [filterProductsByCategory(t)] returns the whole
    list when [t] is ['all'] and otherwise exactly the products whose tags
    contain [t], in the order of the list. *)
Theorem filterProductsByCategory_exact (st : state) (qs : list query) (t : string) :
  foreign_key t = false →
  let ps := products st in
  let st' := asked qs (clearCaches st) in
  ∃ r, fst (filterProductsByCategory t st') = VArray r ∧
       r = (if decide (t = "all") then ps else filter (λ p, t ∈ tags p) ps) ∧
       ∀ p, p ∈ r ↔ p ∈ ps ∧ (t = "all" ∨ t ∈ tags p).
Proof.
  intros Ht ps st'.
  destruct (asked_coherent qs _ (clearCaches_coherent st)) as [Hc Hp].
  destruct (filterProductsByCategory_coherent t _ Hc) as (Hr & _).
  specialize (Hr Ht). fold st' in Hr, Hp. rewrite Hp in Hr.
  change (products (clearCaches st)) with ps in Hr.
  eexists. split; [exact Hr |]. split; [done |].
  intros p. apply by_category_elem.
Qed.

(** An instance: the tag ['serbia'] on the sample shop, after a lookup by id,
    a category query for the tag ['product_1'] and a search. *)
Lemma filterProductsByCategory_exact_witness :
  foreign_key "serbia" = false ∧
  fst (filterProductsByCategory "serbia"
         (asked [ById 1; ByCategory "product_1"; Search "tea"] (clearCaches shop)))
  = VArray [rakija].
Proof.
  assert (Ht : foreign_key "serbia" = false) by reflexivity.
  split; [exact Ht |].
  destruct (filterProductsByCategory_exact shop [ById 1; ByCategory "product_1"; Search "tea"]
              "serbia" Ht) as (r & Hr & -> & _).
  exact Hr.
Defined.

(** C4: after [getProductById(1)] the key ['product_1'] holds a product, and
    the category query for the tag ['product_1'] returns that cached product
    where the list gives the empty array. *)
Theorem category_query_reads_product_entry :
  let st1 := snd (getProductById 1 shop) in
  fst (filterProductsByCategory "product_1" st1) = VProduct rakija ∧
  fst (filterProductsByCategory "product_1" shop) = VArray [] ∧
  products st1 = products shop.
Proof. vm_compute. done. Qed.

(** A query writes the cache only under a key that has no entry: what is
    cached stays until the caches are cleared. *)
Lemma ask_keeps_entry q st k v :
  filterCache st !! k = Some v → filterCache (ask q st) !! k = Some v.
Proof.
  intros Hk.
  assert (Hins : ∀ k' v' r,
            filterCache
              (snd (match filterCache st !! k' with
                    | Some cached => (cached, st)
                    | None => (r, set_filterCache (<[k' := v']> (filterCache st)) st)
                    end)) !! k = Some v).
  { intros k' v' r. destruct (filterCache st !! k') eqn:E; simpl; [done |].
    rewrite lookup_insert_ne; [done | congruence]. }
  destruct q as [c | i | | | q | lo hi | c]; simpl.
  - apply Hins.
  - apply Hins.
  - apply Hins.
  - unfold getProductsStats. by destruct (statsCache st).
  - unfold searchProducts. repeat case_decide; simpl; try done.
  - apply Hins.
  - apply Hins.
Qed.

Lemma asked_keeps_entry qs st k v :
  filterCache st !! k = Some v → filterCache (asked qs st) !! k = Some v.
Proof.
  revert st. induction qs as [|q qs IH]; intros st Hk; [done |].
  unfold asked in *; simpl. by apply IH, ask_keeps_entry.
Qed.

(** C10: when the key ['product_' + id] has no entry, [getProductById] of an
    id without product returns [null] and caches it, and every later lookup
    of that id in the epoch returns [null]. But the category query for the
    tag ['product_7'] leaves an empty array under the key ['product_7'], and
    [getProductById(7)], for which the list has no product, then returns
    that array. *)
Theorem getProductById_reads_category_entry :
  (∀ st i qs,
     filterCache st !! ("product_" +:+ pretty i) = None →
     find_by_id i (products st) = VNull →
     fst (getProductById i st) = VNull ∧
     fst (getProductById i (asked qs (snd (getProductById i st)))) = VNull) ∧
  let st1 := snd (filterProductsByCategory "product_7" shop) in
  find_by_id 7 (products shop) = VNull ∧
  fst (getProductById 7 shop) = VNull ∧
  fst (getProductById 7 st1) = VArray [] ∧
  products st1 = products shop.
Proof.
  split; [| vm_compute; done].
  intros st i qs Hk Hf. unfold getProductById at 1 3. rewrite Hk. simpl.
  split; [done |].
  unfold getProductById.
  erewrite asked_keeps_entry; [done |].
  simpl. rewrite lookup_insert_eq. by rewrite Hf.
Qed.

(** C2: a call of [loadProducts] made while another one is suspended at the
    loader starts no fetch and returns at once with the list as it is then,
    the empty one; the call in flight later settles with the loaded list.
    ([loadAllProducts] does wait: a call made while a load is in flight
    polls, and returns the merged list once the load has settled.) *)
Theorem loadProducts_reentrant_call_returns_empty (hasEvents : bool) :
  (let '(st1, first) := loadProducts_call true initial_state in
   let '(st2, second) := loadProducts_call true st1 in
   let '(st3, loaded) := loadProducts_settle_loader hasEvents (Ok [rakija; tea]) st2 in
   first = Awaiting AwaitLoader ∧
   dataIsLoading st1 = true ∧
   second = Settled (Ok []) ∧
   productsCache st2 = productsCache st1 ∧
   loaded = Ok [rakija; tea] ∧
   products st3 = [rakija; tea]) ∧
  (let '(st1, first) := ProductLoader.loadAllProducts_call initial_state in
   let '(st2, second) := ProductLoader.loadAllProducts_call st1 in
   let '(st3, loaded) :=
     ProductLoader.loadAllProducts_settle [Ok [rakija]; Exn "rejected"; Ok [tea]] st2 in
   first = Awaiting ProductLoader.Loading ∧
   second = Awaiting ProductLoader.Polling ∧
   snd (ProductLoader.loadAllProducts_poll st2) = Awaiting ProductLoader.Polling ∧
   loaded = Ok [rakija; tea] ∧
   snd (ProductLoader.loadAllProducts_poll st3) = Settled (Ok [rakija; tea])).
Proof. destruct hasEvents; vm_compute; done. Qed.

End Store.

(** * The image rotation of the modal *)
Section Rotation.
Import UI.

(** ** What a start does to the page *)

Lemma start_shape imgs i w :
  let h := next_handle w in
  let sid := length (sessions w) in
  let I := Z.max 0 (interval (cfg w)) in
  startModalImageRotationWithIndex imgs i w =
  (World (cfg w) (App_products w) (modal_display w) (modalProductName w) (mainImage_src w)
         (thumbnails w) (progressContainer_show w) (Bar 0 "width 0.1s ease-out" false)
         (Intervals (Some (S h)) (Some (S (S h))))
         (sessions w ++ [Session imgs i 0]) (hover w)
         (cleared w ++ [Timer h (now w + 150) None (RestoreTransition (transition (progressBar w)));
                        Timer (S h) (now w + I) (Some I) (RotateImages sid);
                        Timer (S (S h)) (now w + 50) (Some 50) (UpdateProgress sid)])
         (S (S (S h))) (now w),
   (S h, S (S h))).
Proof.
  destruct w as [c ap md mn ms th ps pb [m p] ss hv ts nh nw].
  destruct m as [[|m]|], p as [[|p]|]; lazy -[Z.add Z.max app]; rewrite <- ?app_assoc; reflexivity.
Qed.

(** ** The stored handles cover the live rotation timers *)

Lemma stored_pair_filter f ts cri nh :
  stored_pair ts cri nh → stored_pair (List.filter f ts) cri nh.
Proof.
  intros [Ha Hp Hn Hf H0].
  assert (Hin : ∀ t, t ∈ List.filter f ts → t ∈ ts).
  { intros t Ht. apply list_elem_of_In in Ht. apply filter_In in Ht.
    apply list_elem_of_In. tauto. }
  split; auto.
  clear -Hn. induction ts as [|t ts IH]; simpl; [constructor |].
  inversion Hn as [|? ? Hnot Hn']; subst.
  destruct (f t); simpl; [| auto].
  constructor; [| auto].
  intros Hin. apply Hnot.
  apply list_elem_of_fmap in Hin as (u & Hu & Hin).
  apply list_elem_of_fmap. exists u. split; [done |].
  apply list_elem_of_In in Hin. apply filter_In in Hin.
  apply list_elem_of_In. tauto.
Qed.

Lemma stored_pair_other t ts cri nh :
  stored_pair ts cri nh →
  is_advance t = false → is_progress t = false → tid t = nh →
  stored_pair (ts ++ [t]) cri (S nh).
Proof.
  intros [Ha Hp Hn Hf H0] Hta Htp Hid. split.
  - intros u [Hu | Hu%list_elem_of_singleton]%elem_of_app; [auto | subst; congruence].
  - intros u [Hu | Hu%list_elem_of_singleton]%elem_of_app; [auto | subst; congruence].
  - rewrite map_app. apply NoDup_app. split; [done |]. split.
    + intros x Hx Hx'. apply list_elem_of_In in Hx'. simpl in Hx'.
      apply list_elem_of_fmap in Hx as (u & Hu & Hin).
      apply Hf in Hin. lia.
    + simpl. apply NoDup_singleton.
  - intros u [Hu | Hu%list_elem_of_singleton]%elem_of_app.
    + apply Hf in Hu. lia.
    + subst. lia.
  - lia.
Qed.

Lemma cleared_clear_list w :
  cleared w
  = clear_list (progress (currentRotationIntervals w))
      (clear_list (modal (currentRotationIntervals w)) (timers w)).
Proof.
  destruct w as [c ap md mn ms th ps pb [m p] ss hv ts nh nw].
  by destruct m as [[|m]|], p as [[|p]|].
Qed.

Lemma stored_pair_clear_list h ts cri nh :
  stored_pair ts cri nh → stored_pair (clear_list h ts) cri nh.
Proof.
  intros H. destruct h as [[|n]|]; simpl; [done | | done].
  by apply stored_pair_filter.
Qed.

Lemma elem_of_clear_list h ts t : t ∈ clear_list h ts → t ∈ ts.
Proof.
  destruct h as [[|n]|]; simpl; [done | | done].
  intros Ht. apply list_elem_of_In in Ht. apply filter_In in Ht.
  apply list_elem_of_In. tauto.
Qed.

Lemma not_elem_of_clear_list n ts t : t ∈ clear_list (Some n) ts → (0 < tid t)%nat → tid t ≠ n.
Proof.
  destruct n as [|n]; simpl; [lia |].
  intros Ht _. apply list_elem_of_In in Ht. apply filter_In in Ht as [_ Ht].
  apply negb_true_iff, Nat.eqb_neq in Ht. done.
Qed.

(** Once the stored handles are cleared no rotation timer is left. *)
Lemma cleared_no_rotation ts cri nh t :
  stored_pair ts cri nh →
  t ∈ clear_list (progress cri) (clear_list (modal cri) ts) →
  is_advance t = false ∧ is_progress t = false.
Proof.
  intros [Ha Hp Hn Hf H0] Ht.
  assert (Hin : t ∈ ts) by (by do 2 apply elem_of_clear_list in Ht).
  assert (Hpos : (0 < tid t)%nat) by (apply Hf in Hin; lia).
  split.
  - destruct (is_advance t) eqn:E; [| done]. exfalso.
    apply elem_of_clear_list in Ht.
    specialize (Ha t Hin E). rewrite Ha in Ht.
    by apply not_elem_of_clear_list in Ht.
  - destruct (is_progress t) eqn:E; [| done]. exfalso.
    specialize (Hp t Hin E). rewrite Hp in Ht.
    by apply not_elem_of_clear_list in Ht.
Qed.

Lemma filter_none {A} (f : A → bool) (l : list A) :
  (∀ x, x ∈ l → f x = false) → List.filter f l = [].
Proof.
  induction l as [|x l IH]; intros H; simpl; [done |].
  rewrite (H x) by (by left). apply IH. intros y Hy. apply H. by right.
Qed.

Lemma stored_pair_started ts cri nh r a p :
  stored_pair ts cri nh →
  tid r = nh → is_advance r = false → is_progress r = false →
  tid a = S nh → is_advance a = true → is_progress a = false →
  tid p = S (S nh) → is_advance p = false → is_progress p = true →
  stored_pair (started ts cri nh r a p) (Intervals (Some (S nh)) (Some (S (S nh)))) (S (S (S nh))) ∧
  List.filter is_advance (started ts cri nh r a p) = [a] ∧
  List.filter is_progress (started ts cri nh r a p) = [p].
Proof.
  intros H Hr Hra Hrp Ha Haa Hap Hp Hpa Hpp.
  pose proof (cleared_no_rotation ts cri nh) as Hno.
  pose proof (stored_pair_clear_list (progress cri) _ _ _
                (stored_pair_clear_list (modal cri) _ _ _ H)) as [Ca Cp Cn Cf C0].
  unfold started. set (ts' := clear_list _ _) in *.
  split; [| split].
  - split.
    + intros t [Ht | Ht]%elem_of_app Hta.
      * destruct (Hno t H Ht). congruence.
      * apply list_elem_of_In in Ht. simpl in Ht.
        destruct Ht as [<- | [<- | [<- | []]]]; simpl; congruence.
    + intros t [Ht | Ht]%elem_of_app Htp.
      * destruct (Hno t H Ht). congruence.
      * apply list_elem_of_In in Ht. simpl in Ht.
        destruct Ht as [<- | [<- | [<- | []]]]; simpl; congruence.
    + rewrite map_app. apply NoDup_app. split; [done |]. split.
      * intros x Hx Hx'.
        apply list_elem_of_fmap in Hx as (u & -> & Hin). apply Cf in Hin.
        apply list_elem_of_In in Hx'. simpl in Hx'. lia.
      * simpl. rewrite Hr, Ha, Hp.
        apply NoDup_cons. split; [| apply NoDup_cons; split; [| apply NoDup_singleton]].
        -- intros Hx. apply list_elem_of_In in Hx. simpl in Hx. lia.
        -- intros Hx. apply list_elem_of_In in Hx. simpl in Hx. lia.
    + intros t [Ht | Ht]%elem_of_app.
      * apply Cf in Ht. lia.
      * apply list_elem_of_In in Ht. simpl in Ht.
        destruct Ht as [<- | [<- | [<- | []]]]; lia.
    + lia.
  - rewrite List.filter_app, (filter_none is_advance ts'); simpl.
    + by rewrite Hra, Haa, Hpa.
    + intros t Ht. by destruct (Hno t H Ht).
  - rewrite List.filter_app, (filter_none is_progress ts'); simpl.
    + by rewrite Hrp, Hap, Hpp.
    + intros t Ht. by destruct (Hno t H Ht).
Qed.

Lemma start_stored imgs i w :
  timers_stored w →
  timers_stored (fst (startModalImageRotationWithIndex imgs i w)) ∧
  map tid (advance_timers (fst (startModalImageRotationWithIndex imgs i w)))
    = [fst (snd (startModalImageRotationWithIndex imgs i w))] ∧
  map tid (progress_timers (fst (startModalImageRotationWithIndex imgs i w)))
    = [snd (snd (startModalImageRotationWithIndex imgs i w))] ∧
  currentRotationIntervals (fst (startModalImageRotationWithIndex imgs i w))
    = Intervals (Some (fst (snd (startModalImageRotationWithIndex imgs i w))))
                (Some (snd (snd (startModalImageRotationWithIndex imgs i w)))).
Proof.
  intros H. rewrite start_shape.
  unfold timers_stored, advance_timers, progress_timers. cbn [fst snd timers currentRotationIntervals next_handle].
  rewrite cleared_clear_list.
  match goal with |- context [?l ++ [?r; ?a; ?p]] =>
    destruct (stored_pair_started (timers w) (currentRotationIntervals w) (next_handle w) r a p H)
      as (H1 & H2 & H3); try reflexivity
  end.
  unfold started in *. rewrite H2, H3. done.
Qed.

Lemma stored_same w w' :
  timers w' = timers w →
  currentRotationIntervals w' = currentRotationIntervals w →
  next_handle w' = next_handle w →
  timers_stored w → timers_stored w'.
Proof. unfold timers_stored. by intros -> -> ->. Qed.

(** [H] speaks of a page with the same queue, stored handles and handle
    counter as the page of the goal. *)
Ltac same_core H := revert H; by apply stored_same.

Lemma clearInterval_stored h w : timers_stored w → timers_stored (clearInterval h w).
Proof. unfold timers_stored, clearInterval; cbn. apply stored_pair_filter. Qed.

Lemma clear_if_set_stored h w : timers_stored w → timers_stored (clear_if_set h w).
Proof. destruct h as [[|n]|]; simpl; auto using clearInterval_stored. Qed.

Lemma setTimeout_stored f d w :
  (∀ sid, f ≠ RotateImages sid) → (∀ sid, f ≠ UpdateProgress sid) →
  timers_stored w → timers_stored (fst (setTimeout f d w)).
Proof.
  intros Ha Hp H. unfold timers_stored, setTimeout, setTimer; cbn.
  apply stored_pair_other; [done | | | done].
  - unfold is_advance; cbn. destruct f; try done. by destruct (Ha sid).
  - unfold is_progress; cbn. destruct f; try done. by destruct (Hp sid).
Qed.

Lemma forceResetProgressBar_stored w :
  timers_stored w → timers_stored (forceResetProgressBar w).
Proof.
  intros H. unfold forceResetProgressBar.
  apply setTimeout_stored; [done | done |].
  same_core H.
Qed.

Lemma resetProgressBar_stored w :
  timers_stored w → timers_stored (resetProgressBar w).
Proof.
  intros H. unfold resetProgressBar.
  apply setTimeout_stored; [done | done |].
  same_core H.
Qed.

Lemma rotateImages_stored sid w : timers_stored w → timers_stored (rotateImages sid w).
Proof.
  intros H. unfold rotateImages. destruct (sessions w !! sid) as [s|]; [| done].
  apply setTimeout_stored; [done | done |].
  same_core H.
Qed.

Lemma updateProgress_stored sid w : timers_stored w → timers_stored (updateProgress sid w).
Proof.
  intros H. unfold updateProgress. destruct (sessions w !! sid) as [s|]; [| done].
  destruct (Qle_bool _ _); revert H; by apply stored_same.
Qed.

Lemma start_keeps_stored imgs i w :
  timers_stored w → timers_stored (fst (startModalImageRotationWithIndex imgs i w)).
Proof. intros H. by destruct (start_stored imgs i w H). Qed.

Lemma timers_clear_if_set h w : timers (clear_if_set h w) = clear_list h (timers w).
Proof. by destruct h as [[|n]|]. Qed.

Lemma stored_pair_null_modal ts cri nh :
  stored_pair ts cri nh →
  stored_pair (clear_list (modal cri) ts) (Intervals None (progress cri)) nh.
Proof.
  intros H. pose proof (stored_pair_clear_list (modal cri) _ _ _ H) as [Ca Cp Cn Cf C0].
  split; try done.
  intros t Ht Hta. exfalso.
  pose proof (Cf t Ht) as Hpos.
  specialize (Ca t Ht Hta). rewrite Ca in Ht.
  apply not_elem_of_clear_list in Ht; [done | lia].
Qed.

Lemma stored_pair_null_progress ts cri nh :
  stored_pair ts cri nh →
  stored_pair (clear_list (progress cri) ts) (Intervals (modal cri) None) nh.
Proof.
  intros H. pose proof (stored_pair_clear_list (progress cri) _ _ _ H) as [Ca Cp Cn Cf C0].
  split; try done.
  intros t Ht Htp. exfalso.
  pose proof (Cf t Ht) as Hpos.
  specialize (Cp t Ht Htp). rewrite Cp in Ht.
  apply not_elem_of_clear_list in Ht; [done | lia].
Qed.

Lemma next_handle_clear_if_set h w : next_handle (clear_if_set h w) = next_handle w.
Proof. by destruct h as [[|n]|]. Qed.

Lemma stopAllImageRotation_stored w :
  timers_stored w → timers_stored (stopAllImageRotation w).
Proof.
  intros H. unfold stopAllImageRotation.
  set (w1 := if truthy (modal (currentRotationIntervals w)) then _ else w).
  assert (H1 : timers_stored w1).
  { subst w1. destruct (truthy _); [| done].
    change (stored_pair (timers (clear_if_set (modal (currentRotationIntervals w)) w))
              (Intervals None (progress (currentRotationIntervals w)))
              (next_handle (clear_if_set (modal (currentRotationIntervals w)) w))).
    rewrite timers_clear_if_set, next_handle_clear_if_set.
    by apply stored_pair_null_modal. }
  clearbody w1. clear H w. rename w1 into w.
  destruct (truthy _); [| done].
  change (stored_pair (timers (clear_if_set (progress (currentRotationIntervals w)) w))
            (Intervals (modal (currentRotationIntervals w)) None)
            (next_handle (clear_if_set (progress (currentRotationIntervals w)) w))).
  rewrite timers_clear_if_set, next_handle_clear_if_set.
  by apply stored_pair_null_progress.
Qed.

Lemma foldl_invariant {A B} (P : A → Prop) (f : A → B → A) (l : list B) (a : A) :
  (∀ a b, P a → P (f a b)) → P a → P (foldl f a l).
Proof. intros Hf. revert a. induction l as [|b l IH]; simpl; auto. Qed.

Lemma openProductModal_stored p w :
  timers_stored w → timers_stored (openProductModal p w).
Proof.
  intros H. unfold openProductModal.
  assert (H' : timers_stored (showModal (createImageGallery p (fillModalContent p w)))).
  { revert H. apply stored_same; unfold createImageGallery; by destruct (images p). }
  destruct (_ && _); [| done].
  apply setTimeout_stored; [done | done |].
  same_core H'.
Qed.

Lemma openStart_stored imgs w : timers_stored w → timers_stored (openStart imgs w).
Proof.
  intros H. unfold openStart, startModalImageRotation.
  destruct (negb _); [done |].
  pose proof (start_keeps_stored imgs 0 w H) as H'.
  destruct (startModalImageRotationWithIndex imgs 0 w) as [w' [i p]].
  same_core H'.
Qed.

Lemma pauseOnHover_stored h w : timers_stored w → timers_stored (pauseOnHover h w).
Proof.
  intros H. unfold pauseOnHover. destruct (intervalId h); [done |].
  eapply stored_same; [reflexivity | reflexivity | reflexivity |].
  by do 2 apply clearInterval_stored.
Qed.

Lemma resumeOnLeave_stored k w : timers_stored w → timers_stored (resumeOnLeave k w).
Proof.
  intros H. unfold resumeOnLeave, startModalImageRotation.
  destruct (hover w !! k) as [h|]; [| done].
  destruct (enabled (cfg w)); [| done].
  pose proof (start_keeps_stored (hover_images h) 0 w H) as H'.
  destruct (startModalImageRotationWithIndex (hover_images h) 0 w) as [w' [i p]].
  same_core H'.
Qed.

Lemma switchMainImage_stored imageSrc clicked w :
  timers_stored w → timers_stored (switchMainImage imageSrc clicked w).
Proof.
  intros H. unfold switchMainImage.
  set (w1 := set_thumbnails _ _).
  assert (H1 : timers_stored w1) by same_core H.
  clearbody w1. destruct (enabled (cfg w1)); [| done].
  set (w2 := forceResetProgressBar _).
  assert (H2 : timers_stored w2).
  { apply forceResetProgressBar_stored. by do 2 apply clear_if_set_stored. }
  clearbody w2.
  destruct (List.find _ _) as [currentProduct|]; [| done].
  destruct (1 <? _)%nat; [| done].
  by apply setTimeout_stored.
Qed.

Lemma switchRestart_stored imgs index w :
  timers_stored w → timers_stored (switchRestart imgs index w).
Proof.
  intros H. unfold switchRestart.
  destruct (start_stored imgs index w H) as (H1 & _ & _ & H4).
  destruct (startModalImageRotationWithIndex imgs index w) as [w' [i p]].
  simpl in *. unfold timers_stored in *.
  change (stored_pair (timers w') (Intervals (Some i) (Some p)) (next_handle w')).
  by rewrite <- H4.
Qed.

Lemma closeProductModal_stored w : timers_stored w → timers_stored (closeProductModal w).
Proof.
  intros H. unfold closeProductModal.
  eapply stored_same; [reflexivity | reflexivity | reflexivity |].
  apply stopAllImageRotation_stored. same_core H.
Qed.

Lemma restartImageRotation_stored w :
  timers_stored w → timers_stored (restartImageRotation w).
Proof.
  intros H. unfold restartImageRotation, startModalImageRotation.
  destruct (negb (enabled _)); [done |].
  destruct (modal_display w); [| done].
  destruct (negb (String.eqb _ _)); [| done].
  destruct (has_thumbnail _ _); [| done].
  by apply start_keeps_stored.
Qed.

Lemma toggleImageRotation_stored b w :
  timers_stored w → timers_stored (toggleImageRotation b w).
Proof.
  intros H. unfold toggleImageRotation.
  assert (H' : timers_stored (set_enabled b w)) by same_core H.
  destruct b; [by apply restartImageRotation_stored | by apply stopAllImageRotation_stored].
Qed.

Lemma setImageRotationInterval_stored i w :
  timers_stored w → timers_stored (setImageRotationInterval i w).
Proof.
  intros H. unfold setImageRotationInterval.
  set (w1 := set_cfg _ w).
  assert (H' : timers_stored w1) by same_core H.
  destruct (enabled (cfg w1)); [by apply restartImageRotation_stored | done].
Qed.

Lemma forceStartImageRotation_stored w :
  timers_stored w → timers_stored (forceStartImageRotation w).
Proof.
  intros H. unfold forceStartImageRotation. apply restartImageRotation_stored.
  destruct (negb _); [| done]. same_core H.
Qed.

Lemma testImageRotation_stored w :
  timers_stored w → timers_stored (testImageRotation w).
Proof.
  intros H. unfold testImageRotation, startModalImageRotation.
  destruct (1 <? _)%nat; [| done].
  pose proof (start_keeps_stored (map src (thumbnails w)) 0 w H) as H'.
  destruct (startModalImageRotationWithIndex _ 0 w) as [w' [i p]].
  by apply setTimeout_stored.
Qed.

Lemma stored_pair_reschedule t ts cri nh :
  stored_pair ts cri nh → stored_pair (reschedule t ts) cri nh.
Proof.
  intros H. unfold reschedule. destruct (period t) as [p|]; [| by apply stored_pair_filter].
  destruct H as [Ha Hp Hn Hf H0].
  set (g := λ u, if (tid u =? tid t)%nat then Timer (tid u) (due u + p) (period u) (cb u) else u).
  assert (Hg : ∀ u, tid (g u) = tid u ∧ cb (g u) = cb u).
  { intros u. unfold g. by destruct (_ =? _)%nat. }
  assert (Hin : ∀ v, v ∈ map g ts → ∃ u, u ∈ ts ∧ tid v = tid u ∧ cb v = cb u).
  { intros v (u & -> & Hu)%list_elem_of_fmap. exists u. by destruct (Hg u). }
  split; try done.
  - intros v (u & Hu & Hid & Hcb)%Hin Hv. rewrite Hid. apply Ha; [done |].
    unfold is_advance in *. by rewrite <- Hcb.
  - intros v (u & Hu & Hid & Hcb)%Hin Hv. rewrite Hid. apply Hp; [done |].
    unfold is_progress in *. by rewrite <- Hcb.
  - rewrite map_map. erewrite map_ext; [exact Hn |]. intros u. simpl. by destruct (Hg u).
  - intros v (u & Hu & Hid & Hcb)%Hin. rewrite Hid. by apply Hf.
Qed.

Lemma run_callback_stored f w : timers_stored w → timers_stored (run_callback f w).
Proof.
  intros H. destruct f; simpl.
  - by apply rotateImages_stored.
  - by apply updateProgress_stored.
  - same_core H.
  - by apply openStart_stored.
  - by apply switchRestart_stored.
  - same_core H.
  - unfold testStop. by do 2 apply clear_if_set_stored.
Qed.

Lemma fire_stored t w : timers_stored w → timers_stored (fire t w).
Proof.
  intros H. unfold fire. apply run_callback_stored.
  change (stored_pair (reschedule t (timers w)) (currentRotationIntervals w) (next_handle w)).
  by apply stored_pair_reschedule.
Qed.

Create HintDb stored discriminated.

#[local] Hint Resolve openProductModal_stored closeProductModal_stored
  switchMainImage_stored toggleImageRotation_stored
  setImageRotationInterval_stored forceStartImageRotation_stored
  restartImageRotation_stored stopAllImageRotation_stored
  resetProgressBar_stored forceResetProgressBar_stored
  testImageRotation_stored fire_stored pauseOnHover_stored
  resumeOnLeave_stored : stored.

Lemma step_stored e w : timers_stored w → timers_stored (step e w).
Proof.
  intros H. destruct e; simpl; auto with stored.
  - destruct (thumbnails w !! k); auto with stored.
  - unfold mouseenter. apply foldl_invariant; auto with stored.
  - unfold mouseleave. apply foldl_invariant; auto with stored.
  - unfold fire_next. destruct (next_timer _); auto with stored.
Qed.

Lemma run_stored events w : timers_stored w → timers_stored (run events w).
Proof. intros H. unfold run. apply foldl_invariant; [| done]. intros. by apply step_stored. Qed.

Lemma initial_stored ps : timers_stored (initial_world ps).
Proof.
  split; simpl; try lia.
  - intros t Ht. by apply elem_of_nil in Ht.
  - intros t Ht. by apply elem_of_nil in Ht.
  - constructor.
  - intros t Ht. by apply elem_of_nil in Ht.
Qed.

Lemma NoDup_all_equal {A} (l : list A) :
  NoDup l → (∀ x y, x ∈ l → y ∈ l → x = y) → (length l ≤ 1)%nat.
Proof.
  intros Hn Heq. destruct l as [|x [|y l]]; simpl; [lia | lia |].
  exfalso. inversion Hn as [|? ? Hx _]; subst. apply Hx.
  rewrite (Heq x y); [by left | by left | by right; left].
Qed.

Lemma stored_pair_at_most_one ts cri nh :
  stored_pair ts cri nh →
  (length (List.filter is_advance ts) ≤ 1)%nat ∧
  (length (List.filter is_progress ts) ≤ 1)%nat.
Proof.
  intros H.
  pose proof (stored_pair_filter is_advance _ _ _ H) as [Ha _ Hna _ _].
  pose proof (stored_pair_filter is_progress _ _ _ H) as [_ Hp Hnp _ _].
  assert (Hf : ∀ f t, t ∈ List.filter f ts → f t = true).
  { intros f t Ht. apply list_elem_of_In in Ht. by apply filter_In in Ht as [_ Ht]. }
  split.
  - rewrite <- (length_map tid). apply NoDup_all_equal; [done |].
    intros x y (u & -> & Hu)%list_elem_of_fmap (v & -> & Hv)%list_elem_of_fmap.
    pose proof (Ha u Hu (Hf _ _ Hu)) as E1. pose proof (Ha v Hv (Hf _ _ Hv)) as E2.
    congruence.
  - rewrite <- (length_map tid). apply NoDup_all_equal; [done |].
    intros x y (u & -> & Hu)%list_elem_of_fmap (v & -> & Hv)%list_elem_of_fmap.
    pose proof (Hp u Hu (Hf _ _ Hu)) as E1. pose proof (Hp v Hv (Hf _ _ Hv)) as E2.
    congruence.
Qed.

(** C5: in every state the page can reach, two starts in succession leave
    exactly one advance timer and one progress timer, the pair whose
    handles the second start returns and stores; and no reachable state has
    more than one live advance timer or more than one live progress
    timer. *)
Theorem start_twice_leaves_one_pair
    (ps : list product) (events : list event)
    (imgs1 imgs2 : list string) (i1 i2 : Z) :
  let w := run events (initial_world ps) in
  let w1 := fst (startModalImageRotationWithIndex imgs1 i1 w) in
  let w2 := fst (startModalImageRotationWithIndex imgs2 i2 w1) in
  let handles := snd (startModalImageRotationWithIndex imgs2 i2 w1) in
  map tid (advance_timers w2) = [fst handles] ∧
  map tid (progress_timers w2) = [snd handles] ∧
  currentRotationIntervals w2 = Intervals (Some (fst handles)) (Some (snd handles)) ∧
  (length (advance_timers w) ≤ 1)%nat ∧ (length (progress_timers w) ≤ 1)%nat.
Proof.
  intros w w1 w2 handles.
  assert (H : timers_stored w) by apply run_stored, initial_stored.
  assert (H1 : timers_stored w1) by by apply start_keeps_stored.
  destruct (start_stored imgs2 i2 w1 H1) as (_ & Ha & Hp & Hc).
  destruct (stored_pair_at_most_one _ _ _ H) as [La Lp].
  exact (conj Ha (conj Hp (conj Hc (conj La Lp)))).
Qed.

(** ** The scheduler *)

Lemma earlier_total a b : earlier a b = true ∨ earlier b a = true.
Proof.
  unfold earlier.
  destruct (Z.ltb_spec (due a) (due b)), (Z.ltb_spec (due b) (due a)),
           (Z.eqb_spec (due a) (due b)), (Z.eqb_spec (due b) (due a)),
           (Nat.leb_spec (tid a) (tid b)), (Nat.leb_spec (tid b) (tid a));
    simpl; auto; lia.
Qed.

Lemma earlier_trans a b c : earlier a b = true → earlier b c = true → earlier a c = true.
Proof.
  unfold earlier.
  destruct (Z.ltb_spec (due a) (due b)), (Z.ltb_spec (due b) (due c)),
           (Z.ltb_spec (due a) (due c)),
           (Z.eqb_spec (due a) (due b)), (Z.eqb_spec (due b) (due c)),
           (Z.eqb_spec (due a) (due c)),
           (Nat.leb_spec (tid a) (tid b)), (Nat.leb_spec (tid b) (tid c)),
           (Nat.leb_spec (tid a) (tid c));
    simpl; auto; lia.
Qed.

Lemma earlier_refl a : earlier a a = true.
Proof. unfold earlier. rewrite Z.eqb_refl, Nat.leb_refl. apply orb_true_r. Qed.

Lemma earlier_due a b :
  earlier a b = true → due a < due b ∨ (due a = due b ∧ (tid a ≤ tid b)%nat).
Proof.
  unfold earlier.
  destruct (Z.ltb_spec (due a) (due b)), (Z.eqb_spec (due a) (due b)),
           (Nat.leb_spec (tid a) (tid b)); simpl; intros; try discriminate; auto.
Qed.

(** The timer the host picks is in the queue and runs no later than any
    other. *)
Lemma next_timer_spec l t :
  next_timer l = Some t → t ∈ l ∧ ∀ u, u ∈ l → earlier t u = true.
Proof.
  revert t. induction l as [|x l IH]; intros t; simpl; [done |].
  destruct (next_timer l) as [m|] eqn:E.
  - destruct (IH m eq_refl) as [Hm Hmin].
    destruct (earlier x m) eqn:Ex; intros [= <-].
    + split; [by left |]. intros u [-> | Hu]%elem_of_cons; [apply earlier_refl |].
      eapply earlier_trans; [exact Ex | by apply Hmin].
    + split; [by right |]. intros u [-> | Hu]%elem_of_cons; [| by apply Hmin].
      destruct (earlier_total m x); congruence.
  - intros [= <-]. destruct l as [|y l].
    2:{ simpl in E. destruct (next_timer l) as [m|]; [destruct (earlier y m) |]; discriminate. }
    split; [by left |]. intros u [-> | Hu]%elem_of_cons; [apply earlier_refl | by apply elem_of_nil in Hu].
Qed.

Lemma next_timer_some l t : t ∈ l → ∃ u, next_timer l = Some u.
Proof.
  destruct l as [|x l]; [by intros ?%elem_of_nil |]. intros _. simpl.
  destruct (next_timer l) as [m|]; [destruct (earlier x m) |]; eauto.
Qed.

(** ** What one turn of the loop does *)

Lemma fire_restore t s w :
  cb t = RestoreTransition s → period t = None →
  fire t w
  = set_transition s
      (set_timers (List.filter (λ u, negb (tid u =? tid t)%nat) (timers w))
         (set_now (Z.max (now w) (due t)) w)).
Proof. intros Hc Hp. unfold fire, reschedule. by rewrite Hc, Hp. Qed.

Lemma fire_progress t sid s w :
  cb t = UpdateProgress sid → period t = Some 50 →
  sessions w !! sid = Some s →
  timers (fire t w)
    = map (λ u, if (tid u =? tid t)%nat then Timer (tid u) (due u + 50) (period u) (cb u) else u)
          (timers w) ∧
  mainImage_src (fire t w) = mainImage_src w ∧
  thumbnails (fire t w) = thumbnails w ∧
  now (fire t w) = Z.max (now w) (due t) ∧
  ∃ q, sessions (fire t w)
       = <[sid := Session (session_images s) (currentImageIndex s) q]> (sessions w).
Proof.
  intros Hc Hp Hs. unfold fire, reschedule. rewrite Hc, Hp.
  unfold run_callback, updateProgress.
  match goal with |- context [sessions ?w' !! sid] => change (sessions w') with (sessions w) end.
  rewrite Hs.
  destruct (Qle_bool _ _); (repeat split; [eexists; reflexivity]).
Qed.


(** ** The work left before the advance timer runs *)

Lemma work_left_remove T t l :
  t ∈ l →
  (work_left T (List.filter (λ u, negb (tid u =? tid t)%nat) l) + runs_left T t
   ≤ work_left T l)%nat.
Proof.
  assert (Hle : ∀ l, (work_left T (List.filter (λ u, negb (tid u =? tid t)%nat) l)
                      ≤ work_left T l)%nat).
  { clear. intros l. induction l as [|x l IH]; simpl; [lia |].
    destruct (negb _); simpl; lia. }
  induction l as [|x l IH]; [by intros ?%elem_of_nil |].
  intros [<- | Ht]%elem_of_cons; simpl.
  - rewrite Nat.eqb_refl. simpl. specialize (Hle l). lia.
  - specialize (IH Ht). destruct (negb _); simpl; lia.
Qed.

Lemma work_left_map T (g : timer → timer) t l :
  (∀ u, u ∈ l → (runs_left T (g u) ≤ runs_left T u)%nat) →
  t ∈ l → (runs_left T (g t) < runs_left T t)%nat →
  (work_left T (map g l) < work_left T l)%nat.
Proof.
  intros Hle Ht Hlt.
  assert (Hall : ∀ l, (∀ u, u ∈ l → (runs_left T (g u) ≤ runs_left T u)%nat) →
                      (work_left T (map g l) ≤ work_left T l)%nat).
  { clear. intros l. induction l as [|x l IH]; intros H; simpl; [lia |].
    pose proof (H x ltac:(by left)). 
    assert (work_left T (map g l) ≤ work_left T l)%nat by (apply IH; intros; apply H; by right).
    lia. }
  induction l as [|x l IH]; [by apply elem_of_nil in Ht |].
  apply elem_of_cons in Ht as [<- | Ht]; simpl.
  - assert (work_left T (map g l) ≤ work_left T l)%nat
      by (apply Hall; intros; apply Hle; by right).
    lia.
  - pose proof (Hle x ltac:(by left)).
    assert (work_left T (map g l) < work_left T l)%nat
      by (apply IH; [intros; apply Hle; by right | done]).
    lia.
Qed.

Lemma ticks_decrease T d :
  d < T → (Z.to_nat ((T - (d + 50) + 49) / 50) < Z.to_nat ((T - d + 49) / 50))%nat.
Proof.
  intros H.
  replace (T - (d + 50) + 49) with ((T - d + 49) + (-1) * 50) by lia.
  rewrite Z.div_add by lia.
  assert (1 ≤ (T - d + 49) / 50) by (apply Z.div_le_lower_bound; lia).
  lia.
Qed.

Lemma ticks_monotone T d :
  (Z.to_nat ((T - (d + 50) + 49) / 50) ≤ Z.to_nat ((T - d + 49) / 50))%nat.
Proof.
  replace (T - (d + 50) + 49) with ((T - d + 49) + (-1) * 50) by lia.
  rewrite Z.div_add by lia. lia.
Qed.

Section Session.

(** One session: its images and start index, the handle [a] and the due
    time [T] of its advance timer, the interval [I], and what the page
    showed at the start. *)
Variables (imgs : list string) (i : Z) (sid a : nat) (T I : Z).
Variables (src0 : string) (th0 : list thumbnail).

(** While the session runs, a turn of the loop either is the advance
    timer's, or keeps the session running with less work left. *)
Lemma running_turn w :
  running imgs i sid a T I src0 th0 w →
  next_timer (timers w) = Some (Timer a T (Some I) (RotateImages sid)) ∨
  (running imgs i sid a T I src0 th0 (fire_next w) ∧
   (work_left T (timers (fire_next w)) < work_left T (timers w))%nat).
Proof.
  intros [Hadv Hts [q Hs] Hsrc Hth Hnow].
  destruct (next_timer_some _ _ Hadv) as [t Ht].
  destruct (next_timer_spec _ _ Ht) as [Hin Hmin].
  unfold fire_next. rewrite Ht.
  pose proof (earlier_due _ _ (Hmin _ Hadv)) as Hle. cbn [due tid] in Hle.
  destruct (Hts t Hin) as [-> | [[d ->] | (Hna & Hnp & Hper & s & Hcb)]].
  - by left.
  - right. cbn [due tid] in Hle.
    assert (Hd : d < T) by lia.
    destruct (fire_progress (Timer (S a) d (Some 50) (UpdateProgress sid)) sid _ w
                eq_refl eq_refl Hs) as (Et & Esrc & Eth & Enow & q' & Es).
    simpl in Et, Enow, Es.
    set (g := λ u, if (tid u =? S a)%nat then Timer (tid u) (due u + 50) (period u) (cb u) else u) in Et.
    split.
    + split.
      * rewrite Et. apply list_elem_of_fmap. eexists. split; [| exact Hadv].
        unfold g; simpl. destruct (Nat.eqb_spec a (S a)); [lia | done].
      * intros u'. rewrite Et. intros (u & -> & Hu)%list_elem_of_fmap.
        destruct (Hts u Hu) as [-> | [[d' ->] | (Hua & Hup & Huper & Hucb)]]; unfold g; simpl.
        -- left. destruct (Nat.eqb_spec a (S a)); [lia | done].
        -- right; left. rewrite Nat.eqb_refl. eauto.
        -- right; right. destruct (Nat.eqb_spec (tid u) (S a)); [done | auto].
      * exists q'. rewrite Es. apply list_lookup_insert_eq. by eapply lookup_lt_Some.
      * congruence.
      * congruence.
      * lia.
    + rewrite Et. apply (work_left_map T g (Timer (S a) d (Some 50) (UpdateProgress sid))); [| done |].
      * intros u Hu.
        destruct (Hts u Hu) as [-> | [[d' ->] | (Hua & Hup & Huper & Hucb)]]; unfold g; simpl.
        -- destruct (Nat.eqb_spec a (S a)); [lia | done].
        -- rewrite Nat.eqb_refl. unfold runs_left; simpl. apply ticks_monotone.
        -- destruct (Nat.eqb_spec (tid u) (S a)); [done | lia].
      * unfold g, runs_left; simpl. rewrite Nat.eqb_refl; simpl. by apply ticks_decrease.
  - right.
    assert (Hd : due t ≤ T) by lia.
    rewrite (fire_restore t s w Hcb Hper).
    split.
    + split.
      * change (Timer a T (Some I) (RotateImages sid)
                  ∈ List.filter (λ u, negb (tid u =? tid t)%nat) (timers w)).
        apply list_elem_of_In, filter_In. split; [by apply list_elem_of_In |].
        simpl. destruct (Nat.eqb_spec a (tid t)); [congruence | done].
      * intros u Hu.
        change (u ∈ List.filter (λ u, negb (tid u =? tid t)%nat) (timers w)) in Hu.
        apply list_elem_of_In, filter_In in Hu as [Hu _]. apply Hts. by apply list_elem_of_In.
      * exists q. exact Hs.
      * exact Hsrc.
      * exact Hth.
      * change (Z.max (now w) (due t) ≤ T). lia.
    + change (work_left T (List.filter (λ u, negb (tid u =? tid t)%nat) (timers w))
              < work_left T (timers w))%nat.
      pose proof (work_left_remove T t _ Hin) as Hw.
      assert (runs_left T t = 1%nat) by (unfold runs_left; by rewrite Hcb).
      lia.
Qed.

Lemma turns_succ k w : turns (S k) w = turns k (fire_next w).
Proof. unfold turns. apply Nat.iter_succ_r. Qed.


End Session.

(** Right after a start the session is running. *)
Lemma start_running imgs i w :
  quiet w → 0 < interval (cfg w) →
  running imgs i (length (sessions w)) (S (next_handle w))
          (now w + interval (cfg w)) (interval (cfg w))
          (mainImage_src w) (thumbnails w)
          (fst (startModalImageRotationWithIndex imgs i w)).
Proof.
  intros Hq HI. rewrite start_shape. cbn [fst].
  rewrite Z.max_r by lia. rewrite cleared_clear_list.
  split; cbn [timers sessions mainImage_src thumbnails now].
  - apply elem_of_app. right. right. by left.
  - intros t [Ht | Ht]%elem_of_app.
    + do 2 apply elem_of_clear_list in Ht.
      destruct (Hq t Ht) as (Hlt & Hper & Hcb). right; right.
      repeat split; [lia | lia | done | done].
    + apply list_elem_of_In in Ht. simpl in Ht.
      destruct Ht as [<- | [<- | [<- | []]]].
      * right; right. simpl. repeat split; [lia | lia | eauto].
      * by left.
      * right; left. eauto.
  - exists 0%Q. apply list_lookup_middle. done.
  - done.
  - done.
  - lia.
Qed.




(** ** What a close leaves *)

Lemma stopAllImageRotation_falsy w :
  truthy (modal (currentRotationIntervals (stopAllImageRotation w))) = false ∧
  truthy (progress (currentRotationIntervals (stopAllImageRotation w))) = false.
Proof.
  destruct w as [c ap md mn ms th ps pb [m p] ss hv ts nh nw].
  destruct m as [[|m]|], p as [[|p]|]; split; reflexivity.
Qed.

Lemma stopAllImageRotation_display w :
  modal_display (stopAllImageRotation w) = modal_display w.
Proof.
  destruct w as [c ap md mn ms th ps pb [m p] ss hv ts nh nw].
  by destruct m as [[|m]|], p as [[|p]|].
Qed.

(** With the invariant, a stop leaves no advance and no progress timer. *)
Lemma stopAllImageRotation_cancels w :
  timers_stored w →
  advance_timers (stopAllImageRotation w) = [] ∧
  progress_timers (stopAllImageRotation w) = [].
Proof.
  intros H. apply stopAllImageRotation_stored in H.
  destruct (stopAllImageRotation_falsy w) as [Fm Fp].
  destruct H as [Ha Hp _ Hf _].
  split; apply filter_none; intros t Ht.
  - destruct (is_advance t) eqn:E; [| done].
    specialize (Ha t Ht E). specialize (Hf t Ht). rewrite Ha in Fm.
    destruct (tid t); [lia | done].
  - destruct (is_progress t) eqn:E; [| done].
    specialize (Hp t Ht E). specialize (Hf t Ht). rewrite Hp in Fp.
    destruct (tid t); [lia | done].
Qed.

Lemma closeProductModal_cancels w :
  timers_stored w →
  modal_display (closeProductModal w) = false ∧
  advance_timers (closeProductModal w) = [] ∧
  progress_timers (closeProductModal w) = [] ∧
  width (progressBar (closeProductModal w)) = 0%Q.
Proof.
  intros H. split; [| split; [| split]].
  - change (modal_display (stopAllImageRotation (set_modal_display false w)) = false).
    by rewrite stopAllImageRotation_display.
  - assert (H' : timers_stored (set_modal_display false w)) by same_core H.
    exact (proj1 (stopAllImageRotation_cancels _ H')).
  - assert (H' : timers_stored (set_modal_display false w)) by same_core H.
    exact (proj2 (stopAllImageRotation_cancels _ H')).
  - reflexivity.
Qed.

(** ** What a resume does *)

Lemma resumeOnLeave_restarts k h w :
  timers_stored w →
  hover w !! k = Some h →
  enabled (cfg w) = true →
  mainImage_src (resumeOnLeave k w) = mainImage_src w ∧
  thumbnails (resumeOnLeave k w) = thumbnails w ∧
  width (progressBar (resumeOnLeave k w)) = 0%Q ∧
  sessions (resumeOnLeave k w) = sessions w ++ [Session (hover_images h) 0 0] ∧
  length (advance_timers (resumeOnLeave k w)) = 1%nat ∧
  length (progress_timers (resumeOnLeave k w)) = 1%nat.
Proof.
  intros H Hk He. unfold resumeOnLeave, startModalImageRotation. rewrite Hk, He.
  destruct (start_stored (hover_images h) 0 w H) as (_ & Ha & Hp & _).
  pose proof (start_shape (hover_images h) 0 w) as E. cbv zeta in E.
  destruct (startModalImageRotationWithIndex (hover_images h) 0 w) as [w1 [i p]].
  injection E as -> _ _.
  change (advance_timers (set_hover ?x ?w')) with (advance_timers w').
  change (progress_timers (set_hover ?x ?w')) with (progress_timers w').
  apply (f_equal length) in Ha, Hp. rewrite length_map in Ha, Hp.
  repeat split; [exact Ha | exact Hp].
Qed.

(** ** What opening a product with at most one image does *)

Lemma openProductModal_few_images p w :
  (length (images p) ≤ 1)%nat →
  timers (openProductModal p w) = timers w ∧
  currentRotationIntervals (openProductModal p w) = currentRotationIntervals w.
Proof.
  intros Hn. unfold openProductModal.
  replace (1 <? length (images p))%nat with false
    by (symmetry; apply Nat.ltb_ge; lia).
  rewrite andb_false_r. unfold showModal, fillModalContent, createImageGallery.
  by destruct (images p).
Qed.

(** ** Runs on the sample shop *)

(** C1: in every state the page can reach, [resumeOnLeave] leaves the main
    image and the thumbnails as they are, puts the bar at 0 and arms one
    advance and one progress timer, in a new session that starts from
    index 0. So on the sample shop: the third image (index 2) is shown when
    the pointer enters; the pause cancels both timers; the resume shows the
    same image; and one interval later the second image (index 1) is shown,
    where a session resumed from the displayed index would show the first
    ([(2 + 1) mod 3 = 0]). *)
Theorem resume_restarts_from_index_zero :
  (∀ ps events k h,
     let w := run events (initial_world ps) in
     hover w !! k = Some h →
     enabled (cfg w) = true →
     mainImage_src (resumeOnLeave k w) = mainImage_src w ∧
     thumbnails (resumeOnLeave k w) = thumbnails w ∧
     width (progressBar (resumeOnLeave k w)) = 0%Q ∧
     sessions (resumeOnLeave k w) = sessions w ++ [Session (hover_images h) 0 0] ∧
     length (advance_timers (resumeOnLeave k w)) = 1%nat ∧
     length (progress_timers (resumeOnLeave k w)) = 1%nat) ∧
  mainImage_src at_third = "img/rakija-3.jpg" ∧
  map currentImageIndex (sessions at_third) = [2] ∧
  advance_timers hovered = [] ∧ progress_timers hovered = [] ∧
  mainImage_src resumed = "img/rakija-3.jpg" ∧
  width (progressBar resumed) = 0%Q ∧
  map cb (advance_timers resumed) = [RotateImages 1] ∧
  map cb (progress_timers resumed) = [UpdateProgress 1] ∧
  sessions resumed !! 1%nat = Some (Session (images rakija) 0 0) ∧
  now after_resume = now resumed + 3000 ∧
  mainImage_src after_resume = "img/rakija-2.jpg" ∧
  image_at (images rakija) ((2 + 1) mod 3) = "img/rakija-1.jpg".
Proof.
  split; [| vm_compute; repeat split].
  intros ps events k h w Hk He.
  apply resumeOnLeave_restarts; [apply run_stored, initial_stored | done | done].
Qed.

(** C6: [openProductModal] of a product with at most one image leaves the
    timer queue and the stored handles as they are. But once the modal shows
    the product with one image, [setImageRotationInterval],
    [forceStartImageRotation], [toggleImageRotation(true)] and
    [restartImageRotation] each arm an advance timer and a progress timer
    over the one-image list. *)
Theorem restart_arms_timers_for_one_image :
  (∀ p w, (length (images p) ≤ 1)%nat →
          timers (openProductModal p w) = timers w ∧
          currentRotationIntervals (openProductModal p w) = currentRotationIntervals w) ∧
  length (images tea) = 1%nat ∧
  modal_display single = true ∧
  timers single = [] ∧
  ∀ e, e ∈ [SetInterval 3000; ForceStart; Toggle true; Restart] →
       map cb (advance_timers (step e single)) = [RotateImages 0] ∧
       map cb (progress_timers (step e single)) = [UpdateProgress 0] ∧
       sessions (step e single) = [Session (images tea) 0 0].
Proof.
  split; [exact openProductModal_few_images |].
  split; [reflexivity |]. split; [reflexivity |]. split; [reflexivity |].
  intros e He. apply list_elem_of_In in He. simpl in He.
  destruct He as [<- | [<- | [<- | [<- | []]]]]; vm_compute; repeat split.
Qed.

(** C8: in every state the page can reach, [closeProductModal] hides the
    modal, leaves no advance and no progress timer and puts the bar at 0.
    But when a thumbnail is clicked and the modal is closed 50 ms later, the
    restart the click has scheduled is still pending; it runs 100 ms after
    the close, arms a new pair, and one interval later the main image changes
    with the modal closed. *)
Theorem delayed_restart_runs_after_close :
  (∀ ps events,
     let w := closeProductModal (run events (initial_world ps)) in
     modal_display w = false ∧ advance_timers w = [] ∧ progress_timers w = [] ∧
     width (progressBar w) = 0%Q) ∧
  modal_display closed = false ∧
  advance_timers closed = [] ∧ progress_timers closed = [] ∧
  currentRotationIntervals closed = Intervals None None ∧
  width (progressBar closed) = 0%Q ∧
  mainImage_src closed = "img/rakija-2.jpg" ∧
  map cb (List.filter (λ t, negb (is_advance t || is_progress t)) (timers closed))
    = [RestoreTransition ""; RestoreTransition "width 0.1s ease-out";
       SwitchRestart (images rakija) 1] ∧
  now long_after_close = now closed + 3100 ∧
  modal_display long_after_close = false ∧
  mainImage_src long_after_close = "img/rakija-3.jpg" ∧
  map cb (advance_timers long_after_close) = [RotateImages 1].
Proof.
  split; [| vm_compute; repeat split].
  intros ps events w. apply closeProductModal_cancels, run_stored, initial_stored.
Qed.

End Rotation.

(** * More on the product store: the cache as a whole *)
Section StoreQueries.
Import ProductData.

(** ** What a query reads and writes *)

(** A query with a key answers from the cache entry when there is one and
    from the list otherwise, and then leaves the answer under its key. *)
Lemma answer_keyed q k st :
  cache_key q = Some k →
  answer q st = match filterCache st !! k with
                | Some v => Value v
                | None => computed q (products st)
                end ∧
  ∀ v, answer q st = Value v → filterCache (ask q st) !! k = Some v.
Proof.
  assert (Hins : ∀ (c : gmap string value) k' v v',
            Value v = Value v' → <[k' := v]> c !! k' = Some v').
  { intros c k' v v' [= <-]. apply lookup_insert_eq. }
  destruct q as [c | i | | | q | lo hi | c]; simpl; try discriminate.
  - intros [= <-]. unfold filterProductsByCategory, by_category.
    destruct (filterCache st !! c) as [v|] eqn:E; simpl; (split; [done |]).
    + by intros v' [= <-].
    + apply Hins.
  - intros [= <-]. unfold getProductById.
    destruct (filterCache st !! _) as [v|] eqn:E; simpl; (split; [done |]).
    + by intros v' [= <-].
    + apply Hins.
  - intros [= <-]. unfold getUniqueCategories.
    destruct (filterCache st !! _) as [v|] eqn:E; simpl; (split; [done |]).
    + by intros v' [= <-].
    + apply Hins.
  - unfold blank, searchProducts.
    destruct (decide (q = "")) as [Hq | Hq].
    { by rewrite bool_decide_eq_true_2. }
    rewrite (bool_decide_eq_false_2 _ Hq).
    destruct (decide (trim q = "")) as [Ht | Ht].
    { by rewrite (bool_decide_eq_true_2 _ Ht). }
    rewrite (bool_decide_eq_false_2 _ Ht). simpl. intros [= <-].
    destruct (filterCache st !! _) as [v|] eqn:E; simpl; (split; [done |]).
    + by intros v' [= <-].
    + apply Hins.
  - intros [= <-]. unfold getProductsByPriceRange.
    destruct (filterCache st !! _) as [v|] eqn:E; simpl; (split; [done |]).
    + by intros v' [= <-].
    + apply Hins.
  - intros [= <-]. unfold getProductsByCountry.
    destruct (filterCache st !! _) as [v|] eqn:E; simpl; (split; [done |]).
    + by intros v' [= <-].
    + apply Hins.
Qed.

(** A query without a key answers from the list, or from [statsCache]. *)
Lemma answer_unkeyed q st :
  cache_key q = None →
  answer q st = match q, statsCache st with
                | Statistics, Some s => Statistic s
                | _, _ => computed q (products st)
                end.
Proof.
  destruct q as [c | i | | | q | lo hi | c]; simpl; try discriminate.
  - intros _. unfold getProductsStats. by destruct (statsCache st).
  - unfold blank, searchProducts.
    destruct (decide (q = "")) as [Hq | Hq].
    { rewrite (bool_decide_eq_true_2 _ Hq). simpl. by destruct (statsCache st). }
    rewrite (bool_decide_eq_false_2 _ Hq).
    destruct (decide (trim q = "")) as [Ht | Ht].
    { rewrite (bool_decide_eq_true_2 _ Ht). simpl. by destruct (statsCache st). }
    by rewrite (bool_decide_eq_false_2 _ Ht).
Qed.

(** No query changes the list. *)
Lemma ask_products q st : products (ask q st) = products st.
Proof.
  destruct q as [c | i | | | q | lo hi | c]; simpl.
  - unfold filterProductsByCategory. by destruct (filterCache st !! _).
  - unfold getProductById. by destruct (filterCache st !! _).
  - unfold getUniqueCategories. by destruct (filterCache st !! _).
  - unfold getProductsStats. by destruct (statsCache st).
  - unfold searchProducts. repeat case_decide; simpl; try done.
    by destruct (filterCache st !! _).
  - unfold getProductsByPriceRange. by destruct (filterCache st !! _).
  - unfold getProductsByCountry. by destruct (filterCache st !! _).
Qed.

Lemma asked_products qs st : products (asked qs st) = products st.
Proof.
  revert st. induction qs as [|q qs IH]; intros st; [done |].
  unfold asked in *; simpl. by rewrite IH, ask_products.
Qed.

(** The statistics object, once cached, stays. *)
Lemma ask_statsCache q st s :
  statsCache st = Some s → statsCache (ask q st) = Some s.
Proof.
  intros Hs. destruct q as [c | i | | | q | lo hi | c]; simpl.
  - unfold filterProductsByCategory. by destruct (filterCache st !! _).
  - unfold getProductById. by destruct (filterCache st !! _).
  - unfold getUniqueCategories. by destruct (filterCache st !! _).
  - unfold getProductsStats. by rewrite Hs.
  - unfold searchProducts. repeat case_decide; simpl; try done.
    by destruct (filterCache st !! _).
  - unfold getProductsByPriceRange. by destruct (filterCache st !! _).
  - unfold getProductsByCountry. by destruct (filterCache st !! _).
Qed.

Lemma asked_statsCache qs st s :
  statsCache st = Some s → statsCache (asked qs st) = Some s.
Proof.
  revert st. induction qs as [|q qs IH]; intros st Hs; [done |].
  unfold asked in *; simpl. by apply IH, ask_statsCache.
Qed.

(** X1: once a query has been made, the same query returns the same answer
    for the rest of the cache epoch, whatever other queries are made in
    between. *)
Theorem answer_stable (q : query) (qs : list query) (st : state) :
  answer q (asked qs (ask q st)) = answer q st.
Proof.
  destruct (cache_key q) as [k|] eqn:Hk.
  - destruct (answer_keyed q k st Hk) as [Ha Hw].
    destruct (answer_keyed q k (asked qs (ask q st)) Hk) as [Ha' _].
    assert (∃ v, answer q st = Value v) as [v Hv].
    { rewrite Ha. destruct (filterCache st !! k); [by eexists |].
      destruct q; simpl in *; try discriminate; by eexists. }
    rewrite Ha', (asked_keeps_entry qs _ k v (Hw v Hv)). done.
  - rewrite !answer_unkeyed by done.
    rewrite asked_products, ask_products.
    destruct q as [c | i | | | q | lo hi | c]; simpl in *; try discriminate.
    + unfold getProductsStats.
      destruct (statsCache st) as [s|] eqn:Hs; simpl.
      * by rewrite (asked_statsCache qs st s Hs).
      * by erewrite asked_statsCache by reflexivity.
    + done.
Qed.

(** ** Keys of different queries *)

Lemma has_char_pretty_N_go x s :
  has_char "_" (pretty_N_go x s) = has_char "_" s.
Proof.
  revert s. induction (N.lt_wf_0 x) as [x _ IH]; intros s.
  assert (x = 0 ∨ 0 < x)%N as [-> | Hx] by lia.
  - by rewrite pretty_N_go_0.
  - rewrite pretty_N_go_step by done. rewrite IH by (by apply N.div_lt).
    simpl. unfold pretty_N_char. by repeat case_match.
Qed.

Lemma has_char_pretty_Z (z : Z) : has_char "_" (pretty z) = false.
Proof.
  assert (HN : ∀ n : N, has_char "_" (pretty n) = false).
  { intros n. unfold pretty, pretty_N. case_decide; [done |].
    by rewrite has_char_pretty_N_go. }
  destruct z as [|p|p]; [done | apply HN |].
  change (has_char "_" (String "-" (pretty (N.pos p))) = false).
  simpl. apply HN.
Qed.

Lemma split_at_char c a a' b b' :
  has_char c a = false → has_char c a' = false →
  a +:+ String c b = a' +:+ String c b' → a = a' ∧ b = b'.
Proof.
  revert a'. induction a as [|x a IH]; intros [|x' a'] Ha Ha'; simpl in *.
  - by intros [= ->].
  - intros [= <- _]. by rewrite Ascii.eqb_refl in Ha'.
  - intros [= -> _]. by rewrite Ascii.eqb_refl in Ha.
  - intros [= <- E]. apply orb_false_iff in Ha as [_ Ha], Ha' as [_ Ha'].
    destruct (IH a' Ha Ha' E) as [-> ->]. done.
Qed.

Lemma price_key_inj (lo hi lo' hi' : Z) :
  pretty lo +:+ "_" +:+ pretty hi = pretty lo' +:+ "_" +:+ pretty hi' →
  lo = lo' ∧ hi = hi'.
Proof.
  intros E.
  apply split_at_char in E as [E1 E2]; [| apply has_char_pretty_Z ..].
  split; by apply (inj pretty).
Qed.

(** Two queries that use the same key and their own kind of key compute
    the same. *)
Lemma cache_key_inj q q' k ps :
  own_key q = true → own_key q' = true →
  cache_key q = Some k → cache_key q' = Some k →
  computed q ps = computed q' ps.
Proof.
  intros Ho Ho' Hk Hk'.
  assert (Hf : ∀ c, negb (foreign_key c) = true → foreign_key c = true → False).
  { intros c H1 H2. by rewrite H2 in H1. }
  assert (Hb : ∀ s, (if blank s then None else Some ("search_" +:+ trim (toLowerCase s)))
                    = Some k → blank s = false ∧ k = "search_" +:+ trim (toLowerCase s)).
  { intros s. destruct (blank s); [done |]. by intros [= <-]. }
  destruct q as [c | i | | | s | lo hi | c], q' as [c' | i' | | | s' | lo' hi' | c'];
    simpl in *; try discriminate;
    try apply Hb in Hk as [Hbl ->]; try apply Hb in Hk' as [Hbl' Hk'];
    simplify_eq/=; try done;
    try (exfalso; eapply Hf; [eassumption |];
         first [apply foreign_product | apply foreign_search
               | apply foreign_price | apply foreign_country | reflexivity]).
  - rewrite Hbl, Hbl'. by rewrite Hk'.
  - match goal with E : _ +:+ _ = _ |- _ =>
      by destruct (price_key_inj _ _ _ _ E) as [-> ->] end.
Qed.

Lemma transparent_answer ps q st :
  transparent ps st → own_key q = true → answer q st = computed q ps.
Proof.
  intros (Hp & Hc & Hs) Ho.
  destruct (cache_key q) as [k|] eqn:Hk.
  - destruct (answer_keyed q k st Hk) as [-> _].
    destruct (filterCache st !! k) as [v|] eqn:E; [by eapply Hc | by rewrite Hp].
  - rewrite answer_unkeyed by done. rewrite Hp.
    destruct q; try done. destruct (statsCache st) as [s|] eqn:E; [by apply Hs | done].
Qed.

Lemma transparent_ask ps q st :
  transparent ps st → own_key q = true → transparent ps (ask q st).
Proof.
  intros Ht Ho. pose proof (transparent_answer ps q st Ht Ho) as Ha.
  destruct Ht as (Hp & Hc & Hs).
  split; [by rewrite ask_products |]. split.
  - intros q' k' v' Ho' Hk' Hl.
    destruct (cache_key q) as [k|] eqn:Hk.
    + destruct (decide (k' = k)) as [-> | Hne].
      * destruct (answer_keyed q k st Hk) as [Hans Hw].
        assert (∃ v, answer q st = Value v) as [v Hv].
        { rewrite Hans. destruct (filterCache st !! k); [by eexists |].
          destruct q; simpl in *; try discriminate; by eexists. }
        rewrite (Hw v Hv) in Hl. injection Hl as <-.
        rewrite <- Hv, Ha. by apply (cache_key_inj q q' k).
      * apply (Hc q' k' v' Ho' Hk').
        revert Hl. clear -Hk Hne.
        destruct q as [c | i | | | s | lo hi | c]; simpl in *; try discriminate.
        -- injection Hk as <-. unfold filterProductsByCategory.
           destruct (filterCache st !! c); simpl; [done |]. by rewrite lookup_insert_ne.
        -- injection Hk as <-. unfold getProductById.
           destruct (filterCache st !! _); simpl; [done |]. by rewrite lookup_insert_ne.
        -- injection Hk as <-. unfold getUniqueCategories.
           destruct (filterCache st !! _); simpl; [done |]. by rewrite lookup_insert_ne.
        -- unfold searchProducts. repeat case_decide; simpl; try done.
           destruct (blank s); [done |]. injection Hk as <-.
           destruct (filterCache st !! _); simpl; [done |]. by rewrite lookup_insert_ne.
        -- injection Hk as <-. unfold getProductsByPriceRange.
           destruct (filterCache st !! _); simpl; [done |]. by rewrite lookup_insert_ne.
        -- injection Hk as <-. unfold getProductsByCountry.
           destruct (filterCache st !! _); simpl; [done |]. by rewrite lookup_insert_ne.
    + apply (Hc q' k' v' Ho' Hk').
      revert Hl. clear -Hk.
      destruct q as [c | i | | | s | lo hi | c]; simpl in *; try discriminate.
      * unfold getProductsStats. by destruct (statsCache st).
      * unfold searchProducts, blank in *. repeat case_decide; simpl; try done.
        all: rewrite !bool_decide_eq_false_2 in Hk by done; done.
  - intros s. destruct q as [c | i | | | s' | lo hi | c]; simpl.
    + unfold filterProductsByCategory. destruct (filterCache st !! _); apply Hs.
    + unfold getProductById. destruct (filterCache st !! _); apply Hs.
    + unfold getUniqueCategories. destruct (filterCache st !! _); apply Hs.
    + unfold getProductsStats. destruct (statsCache st) as [s0|] eqn:E; simpl.
      * rewrite E. apply Hs.
      * intros [= <-]. by rewrite Hp.
    + unfold searchProducts. repeat case_decide; simpl; try apply Hs.
      destruct (filterCache st !! _); apply Hs.
    + unfold getProductsByPriceRange. destruct (filterCache st !! _); apply Hs.
    + unfold getProductsByCountry. destruct (filterCache st !! _); apply Hs.
Qed.

Lemma transparent_asked ps qs st :
  transparent ps st → forallb own_key qs = true → transparent ps (asked qs st).
Proof.
  revert st. induction qs as [|q qs IH]; intros st Ht Hqs; [done |].
  simpl in Hqs. apply andb_true_iff in Hqs as [Hq Hqs].
  unfold asked in *; simpl. apply IH; [| done]. by apply transparent_ask.
Qed.

Lemma transparent_clearCaches st : transparent (products st) (clearCaches st).
Proof.
  split; [done |]. split.
  - intros q k v _ _. unfold clearCaches; simpl. by rewrite lookup_empty.
  - done.
Qed.

(** X2: after [clearCaches()], as long as no category query is made with a
    tag that is a key of another query kind, every query returns what its
    body computes from the product list: the cache is invisible. *)
Theorem queries_return_what_they_compute (st : state) (qs : list query) (q : query) :
  forallb own_key qs = true →
  own_key q = true →
  answer q (asked qs (clearCaches st)) = computed q (products st).
Proof.
  intros Hqs Hq. apply transparent_answer; [| done].
  apply transparent_asked; [apply transparent_clearCaches | done].
Qed.

(** An instance: a price query on the sample shop after a lookup by id, a
    category query and a search. *)
Lemma queries_return_what_they_compute_witness :
  answer (ByPriceRange 400 500)
    (asked [ById 1; ByCategory "serbia"; Search "tea"; ByPriceRange 400 500]
       (clearCaches shop))
  = Value (VArray [tea]).
Proof.
  exact (queries_return_what_they_compute shop
           [ById 1; ByCategory "serbia"; Search "tea"; ByPriceRange 400 500]
           (ByPriceRange 400 500) eq_refl eq_refl).
Defined.

End StoreQueries.

(** * What the single queries compute *)
Section QueryResults.
Import ProductData.

(** ** Tags *)

Lemma add_tag_foldl l seen :
  NoDup seen →
  NoDup (foldl add_tag seen l) ∧
  ∀ t, t ∈ foldl add_tag seen l ↔ t ∈ seen ∨ t ∈ l.
Proof.
  revert seen. induction l as [|x l IH]; intros seen Hn; simpl.
  - split; [done |]. intros t. split; [by left | intros [H | H]; [done | by apply elem_of_nil in H]].
  - assert (Hn' : NoDup (add_tag seen x)).
    { unfold add_tag. case_decide as Hx; [done |].
      apply NoDup_app. split; [done |]. split; [| apply NoDup_singleton].
      intros y Hy Hy'%list_elem_of_singleton. by subst. }
    destruct (IH _ Hn') as [H1 H2]. split; [done |].
    intros t. rewrite H2. unfold add_tag. case_decide as Hx.
    + split.
      * intros [H | H]; [by left | right; by right].
      * intros [H | [-> | H]%elem_of_cons]; [by left | by left | by right].
    + rewrite elem_of_app, list_elem_of_singleton. split.
      * intros [[H | ->] | H]; [by left | right; by left | right; by right].
      * intros [H | [-> | H]%elem_of_cons]; [left; by left | left; by right | by right].
Qed.

Lemma elem_of_concat_tags t (ps : list product) :
  t ∈ concat (map tags ps) ↔ ∃ p, p ∈ ps ∧ t ∈ tags p.
Proof.
  induction ps as [|p ps IH]; simpl.
  - split; [by intros H%elem_of_nil | by intros (p & H%elem_of_nil & _)].
  - rewrite elem_of_app, IH. split.
    + intros [H | (q & Hq & Ht)]; [exists p; split; [by left | done] |].
      exists q. split; [by right | done].
    + intros (q & [-> | Hq]%elem_of_cons & Ht); [by left |]. right. by exists q.
Qed.

(** X3: when nothing is cached for it, [getUniqueCategories()] returns
    every tag that some product carries, each of them once. *)
Theorem getUniqueCategories_each_tag_once (st : state) :
  filterCache st !! "unique_categories" = None →
  ∃ l, fst (getUniqueCategories st) = VStrings l ∧
       NoDup l ∧
       ∀ t, t ∈ l ↔ ∃ p, p ∈ products st ∧ t ∈ tags p.
Proof.
  intros Hc. unfold getUniqueCategories. rewrite Hc. simpl.
  eexists. split; [reflexivity |].
  destruct (add_tag_foldl (concat (map tags (products st))) [] (NoDup_nil_2 (A:=string))) as [H1 H2].
  split; [done |]. intros t. rewrite H2, <- elem_of_concat_tags.
  split; [intros [H%elem_of_nil | H]; done | by right].
Qed.

Lemma getUniqueCategories_each_tag_once_witness :
  ∃ l, fst (getUniqueCategories shop) = VStrings l ∧ NoDup l ∧
       ∀ t, t ∈ l ↔ ∃ p, p ∈ products shop ∧ t ∈ tags p.
Proof. exact (getUniqueCategories_each_tag_once shop eq_refl). Defined.

(** ** Statistics *)

Lemma count_up_foldl_by {A} (f : A → string) c (l : list A) (m : gmap string nat) :
  foldl (λ m x, count_up (f x) m) m l !! c =
  if (length (List.filter (λ x, String.eqb (f x) c) l) =? 0)%nat then m !! c
  else Some (default 0%nat (m !! c) + length (List.filter (λ x, String.eqb (f x) c) l))%nat.
Proof.
  revert m. induction l as [|x l IH]; intros m; [done |].
  simpl. rewrite IH. unfold count_up.
  destruct (String.eqb_spec (f x) c) as [-> | Hne]; simpl.
  - rewrite lookup_insert_eq. simpl.
    destruct (Nat.eqb_spec (length (List.filter (λ y, String.eqb (f y) c) l)) 0) as [-> | _].
    + f_equal. lia.
    + f_equal. lia.
  - by rewrite lookup_insert_ne.
Qed.

Lemma count_up_foldl (f : product → string) c ps (m : gmap string nat) :
  foldl (λ m p, count_up (f p) m) m ps !! c =
  if (count_of f c ps =? 0)%nat then m !! c
  else Some (default 0%nat (m !! c) + count_of f c ps)%nat.
Proof. apply count_up_foldl_by. Qed.

(** X4: when no statistics object is cached, [getProductsStats()] gives
    the length of the list as [total], and under each country and each
    category the number of products that have it; a name that no product
    has is absent. (For names other than those a plain object inherits,
    such as [constructor].) *)
Theorem getProductsStats_counts (st : state) (c : string) :
  statsCache st = None →
  inherited_name c = false →
  let s := fst (getProductsStats st) in
  total s = length (products st) ∧
  byCountry s !! c =
    (if (count_of country c (products st) =? 0)%nat then None
     else Some (count_of country c (products st))) ∧
  byCategory s !! c =
    (if (count_of category c (products st) =? 0)%nat then None
     else Some (count_of category c (products st))).
Proof.
  intros Hs _. unfold getProductsStats. rewrite Hs. simpl.
  split; [done |]. by rewrite !count_up_foldl, !lookup_empty.
Qed.

Lemma getProductsStats_counts_witness :
  let s := fst (getProductsStats shop) in
  total s = 2%nat ∧ byCountry s !! "drinks" = None ∧
  byCategory s !! "drinks" = Some 2%nat.
Proof. exact (getProductsStats_counts shop "drinks" eq_refl eq_refl). Defined.

(** ** Lookup by id *)

Lemma find_first {A} (f : A → bool) l x :
  List.find f l = Some x →
  ∃ before after, l = before ++ x :: after ∧ f x = true ∧
                  ∀ y, y ∈ before → f y = false.
Proof.
  induction l as [|a l IH]; simpl; [done |].
  destruct (f a) eqn:E.
  - intros [= <-]. exists [], l. split; [done |]. split; [done |].
    by intros y Hy%elem_of_nil.
  - intros (before & after & -> & Hx & Hb)%IH.
    exists (a :: before), after. split; [done |]. split; [done |].
    intros y [-> | Hy]%elem_of_cons; auto.
Qed.

Lemma find_nothing {A} (f : A → bool) l :
  List.find f l = None → ∀ y, y ∈ l → f y = false.
Proof.
  intros H y Hy. apply list_elem_of_In in Hy. by apply (find_none f l H).
Qed.

(** X5: when nothing is cached under its key, [getProductById(id)]
    returns the first product of the list with that id, and [null] when
    no product has it. *)
Theorem getProductById_first_match (st : state) (i : Z) :
  filterCache st !! ("product_" +:+ pretty i) = None →
  match fst (getProductById i st) with
  | VProduct p =>
      ∃ before after, products st = before ++ p :: after ∧ id p = i ∧
                      ∀ x, x ∈ before → id x ≠ i
  | VNull => ∀ x, x ∈ products st → id x ≠ i
  | _ => False
  end.
Proof.
  intros Hc. unfold getProductById. rewrite Hc. simpl. unfold find_by_id.
  destruct (List.find _ _) as [p|] eqn:E.
  - apply find_first in E as (before & after & E & Hp & Hb).
    exists before, after. split; [done |]. split; [by apply Z.eqb_eq |].
    intros x Hx. by apply Z.eqb_neq, Hb.
  - intros x Hx. by apply Z.eqb_neq, (find_nothing _ _ E).
Qed.

Lemma getProductById_first_match_witness :
  ∃ before after, products shop = before ++ tea :: after ∧ id tea = 2 ∧
                  ∀ x, x ∈ before → id x ≠ 2.
Proof. exact (getProductById_first_match shop 2 eq_refl). Defined.

(** ** Search *)

Lemma searchProducts_unfold q st :
  searchProducts q st =
  if blank q then (VArray (products st), st)
  else
    let n := trim (toLowerCase q) in
    match filterCache st !! ("search_" +:+ n) with
    | Some cached => (cached, st)
    | None =>
        (VArray (List.filter (matches n) (products st)),
         set_filterCache (<["search_" +:+ n := VArray (List.filter (matches n) (products st))]>
                            (filterCache st)) st)
    end.
Proof.
  unfold searchProducts, blank.
  destruct (decide (q = "")) as [Hq | Hq].
  { by rewrite (bool_decide_eq_true_2 _ Hq). }
  rewrite (bool_decide_eq_false_2 _ Hq).
  destruct (decide (trim q = "")) as [Ht | Ht].
  { by rewrite (bool_decide_eq_true_2 _ Ht). }
  by rewrite (bool_decide_eq_false_2 _ Ht).
Qed.



Lemma append_assoc (a b c : string) : (a +:+ b) +:+ c = a +:+ b +:+ c.
Proof.
  induction a as [|x a IH]; [done |].
  change (String x ((a +:+ b) +:+ c) = String x (a +:+ b +:+ c)). by rewrite IH.
Qed.

Lemma append_nil_r (a : string) : a +:+ "" = a.
Proof.
  induction a as [|x a IH]; [done |].
  change (String x (a +:+ "") = String x a). by rewrite IH.
Qed.

Lemma rev_app_app s t : String.rev_app s t = String.rev_app s "" +:+ t.
Proof.
  revert t. induction s as [|c s IH]; intros t; simpl; [done |].
  rewrite (IH (String c t)), (IH (String c "")).
  by rewrite append_assoc.
Qed.

Lemma rev_app_rev_app s t u :
  String.rev_app (String.rev_app s t) u = String.rev_app t (s +:+ u).
Proof. revert t. induction s as [|c s IH]; intros t; simpl; [done |]. apply (IH (String c t)). Qed.

Lemma rev_involutive s : String.rev (String.rev s) = s.
Proof. unfold String.rev. rewrite rev_app_rev_app. simpl. apply append_nil_r. Qed.

Lemma rev_append a b : String.rev (a +:+ b) = String.rev b +:+ String.rev a.
Proof.
  assert (H : ∀ acc, String.rev_app (a +:+ b) acc = String.rev_app b (String.rev_app a acc)).
  { induction a as [|c a IH]; intros acc; [done |]. apply (IH (String c acc)). }
  unfold String.rev. by rewrite H, rev_app_app.
Qed.

(** What [strip] removes is a prefix. *)
Lemma prefix_skip p s : String.prefix p s = true → s = p +:+ skip (String.length p) s.
Proof.
  revert s. induction p as [|c p IH]; intros s; [done |].
  destruct s as [|d s]; [done |].
  intros H. cbn [String.prefix] in H.
  destruct (ascii_dec c d) as [-> | Hne]; [| done].
  change (String d s = String d (p +:+ skip (String.length p) s)).
  by rewrite <- IH.
Qed.

Lemma strip_all_suffix patterns fuel s : ∃ a, s = a +:+ strip_all patterns fuel s.
Proof.
  revert s. induction fuel as [|fuel IH]; intros s; simpl; [by exists "" |].
  unfold strip. destruct (List.find _ patterns) as [p|] eqn:E; [| by exists ""].
  apply find_some in E as [_ E].
  destruct (IH (skip (String.length p) s)) as [a Ha].
  exists (p +:+ a). rewrite append_assoc, <- Ha. by apply prefix_skip.
Qed.

(** The trimmed string sits inside the string. *)
Lemma trim_inside s : ∃ a b, s = a +:+ trim s +:+ b.
Proof.
  destruct (strip_all_suffix (map utf8 white_space) (String.length s) s) as [a Ha].
  fold (trimStart s) in Ha.
  destruct (strip_all_suffix (map (λ c, String.rev (utf8 c)) white_space)
              (String.length (trimStart s)) (String.rev (trimStart s))) as [b Hb].
  exists a, (String.rev b). rewrite Ha at 1. f_equal.
  unfold trim, trimEnd. rewrite <- rev_append, <- Hb. by rewrite rev_involutive.
Qed.

Lemma includes_prefix s sub : String.prefix sub s = true → includes s sub = true.
Proof. intros H. destruct s; cbn [includes]; by rewrite H. Qed.

Lemma includes_inside a x b : includes (a +:+ x +:+ b) x = true.
Proof.
  induction a as [|c a IH].
  - change (includes (x +:+ b) x = true). apply includes_prefix, prefix_append.
  - change (String.prefix x (String c a +:+ x +:+ b) || includes (a +:+ x +:+ b) x = true).
    rewrite IH. apply orb_true_r.
Qed.

Lemma includes_trim s : includes s (trim s) = true.
Proof.
  destruct (trim_inside s) as (a & b & E). rewrite E at 1. apply includes_inside.
Qed.

(** X7: searching for the name of a product of the list, in any letter
    case (of any script) and with white space around it, finds that
    product (when nothing is cached under the key of the query). *)
Theorem searchProducts_finds_by_name (st : state) (p : product) (q : string) :
  p ∈ products st →
  trim (toLowerCase q) = trim (toLowerCase (name p)) →
  filterCache st !! ("search_" +:+ trim (toLowerCase q)) = None →
  ∃ r, fst (searchProducts q st) = VArray r ∧ p ∈ r.
Proof.
  intros Hp Hq Hc. rewrite searchProducts_unfold.
  destruct (blank q); simpl; [by eexists |].
  rewrite Hc. simpl. eexists. split; [reflexivity |].
  apply list_elem_of_In, filter_In. split; [by apply list_elem_of_In |].
  unfold matches. by rewrite Hq, includes_trim.
Qed.

(** An instance: the Russian name in capital letters, with spaces and an
    ideographic space around it. *)
Lemma searchProducts_finds_by_name_witness :
  ∃ r, fst (searchProducts ("  ЧАЙ ЗЕЛЁНЫЙ" +:+ String "227" (String "128" (String "128" "")))
                           lavka) = VArray r ∧
       chai ∈ r.
Proof.
  apply (searchProducts_finds_by_name lavka chai);
    [right; left | by vm_compute | by vm_compute].
Defined.

(** ** Price ranges *)

(** Reading back the digits [pretty] writes. *)
Lemma read_digits_pretty_N_go (x : N) (s : string) :
  ∃ k : nat,
    ∀ acc count,
      read_digits (pretty_N_go x s) acc count
      = read_digits s (acc * 10 ^ Z.of_nat k + Z.of_N x) (count + k)%nat.
Proof.
  revert s. induction (N.lt_wf_0 x) as [x _ IH]; intros s.
  assert (x = 0 ∨ 0 < x)%N as [-> | Hx] by lia.
  - exists 0%nat. intros acc count. rewrite pretty_N_go_0.
    f_equal; [f_equal; lia | lia].
  - rewrite pretty_N_go_step by done.
    destruct (IH (x `div` 10)%N ltac:(by apply N.div_lt)
                 (String (pretty_N_char (x `mod` 10)) s)) as [k Hk].
    exists (S k). intros acc count. rewrite Hk.
    assert (Hd : (x `mod` 10 < 10)%N) by (by apply N.mod_lt).
    assert (Hc : is_digit (pretty_N_char (x `mod` 10)) = true ∧
                 Z.of_nat (nat_of_ascii (pretty_N_char (x `mod` 10))) - 48
                 = Z.of_N (x `mod` 10)).
    { unfold pretty_N_char.
      destruct (x `mod` 10)%N as [|[[[|[]|]|[[]|[]|]|]|[[|[]|]|[[]|[]|]|]|]]; try done; lia. }
    destruct Hc as [Hc1 Hc2].
    cbn [read_digits]. rewrite Hc1, Hc2.
    f_equal; [| lia].
    rewrite Nat2Z.inj_succ, Z.pow_succ_r by lia.
    pose proof (N.div_mod x 10 ltac:(done)) as Hdm.
    assert (Hz : Z.of_N x = 10 * Z.of_N (x `div` 10) + Z.of_N (x `mod` 10)) by lia.
    rewrite Hz. ring.
Qed.

Lemma read_digits_pretty (n : N) :
  ∃ k : nat, (0 < k)%nat ∧ read_digits (pretty n) 0 0%nat = (Z.of_N n, k, "").
Proof.
  unfold pretty, pretty_N. case_decide as Hn.
  - subst. exists 1%nat. split; [lia | reflexivity].
  - destruct (read_digits_pretty_N_go n "") as [k Hk].
    rewrite Hk. simpl. exists k. split; [| done].
    destruct k as [|k]; [| lia].
    exfalso. revert Hk.
    rewrite pretty_N_go_step by lia. intros Hk. specialize (Hk 0 0%nat).
    destruct (read_digits_pretty_N_go (n `div` 10)%N
                (String (pretty_N_char (n `mod` 10)) "")) as [k' Hk'].
    rewrite Hk' in Hk. simpl in Hk.
    assert (Hc : is_digit (pretty_N_char (n `mod` 10)) = true).
    { unfold pretty_N_char. by repeat case_match. }
    rewrite Hc in Hk. simpl in Hk. injection Hk as _ Hk. lia.
Qed.

(** A whole number below [2^53] is a double. *)
Lemma to_double_whole (n : Z) :
  0 ≤ n < 2 ^ 53 → to_double n 1 = Finite (inject_Z n).
Proof.
  intros Hn. unfold to_double.
  destruct (Z.eqb_spec n 0) as [-> | Hne]; [done |].
  assert (Hpos : 0 < n) by lia.
  change (Z.log2 1) with 0. rewrite Z.sub_0_r.
  pose proof (Z.log2_spec n Hpos) as [Hlo Hhi].
  pose proof (Z.log2_nonneg n) as Hl0.
  assert (Hl : Z.log2 n < 53).
  { apply Z.log2_lt_pow2; lia. }
  set (l := Z.log2 n) in *.
  destruct (Z.leb_spec 0 l); [| lia].
  destruct (Z.leb_spec (1 * 2 ^ l) n); [| lia].
  rewrite Z.max_l by lia.
  set (j := 52 - l).
  assert (Hj : 0 ≤ j) by (unfold j; lia).
  assert (Hnj : n * 2 ^ j < 2 ^ 53).
  { replace 53 with (Z.succ l + j) by (unfold j; lia).
    rewrite Z.pow_add_r by lia. apply Z.mul_lt_mono_pos_r; [| done].
    by apply Z.pow_pos_nonneg. }
  assert (Hbig : 2 ^ 53 ≤ 2 ^ (1024 - (l - 52))).
  { apply Z.pow_le_mono_r; lia. }
  destruct (Z.leb_spec 0 (l - 52)) as [Hk | Hk].
  - assert (l = 52) by lia. subst j.
    replace (l - 52) with 0 in * by lia. rewrite Z.pow_0_r, !Z.mul_1_r.
    rewrite Z.div_1_r, Z.mod_1_r. simpl.
    match goal with |- context [?a <=? n] => destruct (Z.leb_spec a n) as [Hov | _] end;
      [lia | done].
  - replace (- (l - 52)) with j by (unfold j; lia).
    rewrite Z.div_1_r, Z.mod_1_r. simpl.
    match goal with |- context [?a <=? ?b] => destruct (Z.leb_spec a b) as [Hov | _] end;
      [lia |].
    f_equal. rewrite <- (inject_Z_Qred n).
    apply Qred_complete. unfold Qeq. simpl.
    rewrite Z2Pos.id by (by apply Z.pow_pos_nonneg). lia.
Qed.

(** X8: [getProductsByPriceRange(min, max)] with whole-number bounds, when
    nothing is cached under its key, returns products of the list only,
    and among them a product whose price reads as a whole number [n] below
    [2^53] (the digits of the price string, whatever stands between them,
    are the decimal numeral of [n], and the string has no dot) exactly when
    [min ≤ n ≤ max]; a product whose price has no digit and no dot is never
    returned. *)
Theorem getProductsByPriceRange_whole_prices (st : state) (lo hi : Z) :
  filterCache st !! ("price_" +:+ pretty lo +:+ "_" +:+ pretty hi) = None →
  ∃ r, fst (getProductsByPriceRange lo hi st) = VArray r ∧
       (∀ p, p ∈ r → p ∈ products st) ∧
       (∀ p (n : N), p ∈ products st →
          keep_digits_and_dots (price p) = pretty n →
          Z.of_N n < 2 ^ 53 →
          (p ∈ r ↔ lo ≤ Z.of_N n ≤ hi)) ∧
       (∀ p, p ∈ r → keep_digits_and_dots (price p) ≠ "").
Proof.
  intros Hc. unfold getProductsByPriceRange. rewrite Hc. simpl.
  eexists. split; [reflexivity |].
  assert (Hin : ∀ p, p ∈ List.filter (in_range lo hi) (products st) ↔
                     p ∈ products st ∧ in_range lo hi p = true).
  { intros p. by rewrite !list_elem_of_In, filter_In. }
  split; [| split].
  - intros p Hp. by apply Hin in Hp as [Hp _].
  - intros p n Hp Hprice Hn. rewrite Hin.
    assert (E : in_range lo hi p
                = Qle_bool (inject_Z lo) (inject_Z (Z.of_N n))
                  && Qle_bool (inject_Z (Z.of_N n)) (inject_Z hi)).
    { unfold in_range, parseFloat. rewrite Hprice.
      destruct (read_digits_pretty n) as (k & Hk & ->).
      destruct (Nat.eqb_spec k 0); [lia |].
      rewrite to_double_whole by lia. done. }
    rewrite E, andb_true_iff, !Qle_bool_iff, <- !Zle_Qle. tauto.
  - intros p Hp Hempty. apply Hin in Hp as [_ Hp].
    unfold in_range in Hp. by rewrite Hempty in Hp.
Qed.

(** An instance: the tea at 450 dinars is in the range from 400 to 500,
    the brandy at 1200 is not. *)
Lemma getProductsByPriceRange_whole_prices_witness :
  ∃ r, fst (getProductsByPriceRange 400 500 shop) = VArray r ∧ tea ∈ r ∧ rakija ∉ r.
Proof.
  destruct (getProductsByPriceRange_whole_prices shop 400 500 eq_refl)
    as (r & H1 & _ & H2 & _).
  exists r. split; [exact H1 |]. split.
  - apply (H2 tea 450%N); [right; left | reflexivity | reflexivity | lia].
  - intros Hr. apply (H2 rakija 1200%N) in Hr; [lia | left | reflexivity | reflexivity].
Defined.

End QueryResults.

(** * Loading: what is fetched, what is cached, what is fetched again *)
Section Loading.
Import ProductData.

(** ** One file *)

Lemma loadProductsFromFile_run net path st :
  ProductLoader.loadProductsFromFile net path st
  = (after_file net path st, Ok (contribution net st path)).
Proof.
  unfold ProductLoader.loadProductsFromFile, after_file, contribution.
  unfold mbind, M_bind, gets, try_catch, lift, modify, mret, M_ret, throw; simpl.
  destruct (productsCache st !! path) as [ps|]; [done |].
  destruct (net path) as [|ok status b]; simpl; [done |].
  destruct ok; simpl; [| done].
  destruct b as [|[ps|]]; simpl; done.
Qed.

Lemma after_file_same net path st : same_store st (after_file net path st).
Proof.
  unfold after_file, same_store.
  destruct (productsCache st !! path); [done |]. by destruct (fails _).
Qed.

Lemma after_file_lookup net path st k :
  productsCache (after_file net path st) !! k
  = if decide (k = path) then file_entry net st path else productsCache st !! k.
Proof.
  unfold after_file, file_entry.
  destruct (productsCache st !! path) as [ps|] eqn:E.
  - case_decide; [by subst |done].
  - destruct (fails (net path)); simpl.
    + case_decide; [by subst | done].
    + rewrite lookup_insert. case_decide; case_decide; by subst.
Qed.

(** X9: [loadProductsFromFile] caches an array it was served and nothing
    else. After a request that succeeded, a later call for the same file
    resolves to the same array whatever the network then answers; after a
    request that failed, a later call fetches again. *)
Theorem loadProductsFromFile_caches_success_only
    (net net' : string → fetched document) (path : string) (st : state) :
  productsCache st !! path = None →
  let st1 := fst (ProductLoader.loadProductsFromFile net path st) in
  snd (ProductLoader.loadProductsFromFile net path st) = Ok (served (net path)) ∧
  snd (ProductLoader.loadProductsFromFile net' path st1)
  = Ok (if fails (net path) then served (net' path) else served (net path)).
Proof.
  intros Hc st1. subst st1. rewrite !loadProductsFromFile_run. simpl.
  unfold contribution. rewrite Hc. split; [done |].
  rewrite after_file_lookup, decide_True by done.
  unfold file_entry. rewrite Hc. by destruct (fails (net path)).
Qed.

Lemma loadProductsFromFile_caches_success_only_witness :
  let good := λ _ : string, Response true 200 (Parsed (DocArray [rakija])) in
  let bad := λ _ : string, @NetworkError document in
  let st1 := fst (ProductLoader.loadProductsFromFile good "product/serbia-products.json" initial_state) in
  let st2 := fst (ProductLoader.loadProductsFromFile bad "product/serbia-products.json" initial_state) in
  snd (ProductLoader.loadProductsFromFile bad "product/serbia-products.json" st1) = Ok [rakija] ∧
  snd (ProductLoader.loadProductsFromFile good "product/serbia-products.json" st2) = Ok [rakija].
Proof.
  intros good bad st1 st2. split.
  - exact (proj2 (loadProductsFromFile_caches_success_only good bad
                    "product/serbia-products.json" initial_state eq_refl)).
  - exact (proj2 (loadProductsFromFile_caches_success_only bad good
                    "product/serbia-products.json" initial_state eq_refl)).
Defined.

(** ** The six files *)

Lemma allSettled_run net paths st :
  NoDup paths →
  ProductLoader.allSettled net paths st
  = (foldl (λ st p, after_file net p st) st paths,
     map (λ p, Ok (contribution net st p)) paths).
Proof.
  revert st. induction paths as [|p paths IH]; intros st Hn; [done |].
  apply NoDup_cons in Hn as [Hp Hn].
  simpl. rewrite loadProductsFromFile_run, IH by done. f_equal. f_equal.
  apply map_ext_in. intros q Hq%list_elem_of_In. f_equal.
  unfold contribution. rewrite after_file_lookup, decide_False; [done |].
  by intros ->.
Qed.

Lemma after_files_same net paths st :
  same_store st (foldl (λ st p, after_file net p st) st paths).
Proof.
  revert st. induction paths as [|p paths IH]; intros st; [done |].
  simpl. destruct (IH (after_file net p st)) as (H1 & H2 & H3 & H4 & H5).
  destruct (after_file_same net p st) as (G1 & G2 & G3 & G4 & G5).
  unfold same_store. by rewrite H1, H2, H3, H4, H5.
Qed.

Lemma after_files_lookup net paths st k :
  NoDup paths →
  productsCache (foldl (λ st p, after_file net p st) st paths) !! k
  = if decide (k ∈ paths) then file_entry net st k else productsCache st !! k.
Proof.
  revert st. induction paths as [|p paths IH]; intros st Hn; simpl.
  - done.
  - apply NoDup_cons in Hn as [Hp Hn]. rewrite IH by done.
    destruct (decide (k ∈ paths)) as [Hk | Hk].
    + rewrite decide_True by (by right).
      unfold file_entry. rewrite after_file_lookup, decide_False; [done |].
      by intros ->.
    + rewrite after_file_lookup. destruct (decide (k = p)) as [-> | Hne].
      * by rewrite decide_True by (by left).
      * rewrite decide_False; [done |]. by intros [-> | H]%elem_of_cons.
Qed.

Lemma merge_fulfilled {A} (f : A → list product) (l : list A) :
  ProductLoader.merge (map (λ x, Ok (f x)) l) = concat (map f l).
Proof. unfold ProductLoader.merge. by rewrite map_map. Qed.

Lemma files_NoDup : NoDup ProductLoader.files.
Proof. apply (bool_decide_unpack _). by vm_compute. Qed.

Lemma all_products_no_file : "all_products" ∉ ProductLoader.files.
Proof. apply (bool_decide_unpack _). by vm_compute. Qed.

(** A call of [loadAllProducts] on a page where the files have not been
    merged yet and no load is in flight. *)
Lemma loadAllProducts_run net st :
  productsCache st !! "all_products" = None →
  loaderIsLoading st = false →
  let all := concat (map (contribution net st) ProductLoader.files) in
  ∃ st', ProductLoader.loadAllProducts net st = Some (st', Ok all) ∧
         productsCache st' !! "all_products" = Some all ∧
         (∀ p, p ∈ ProductLoader.files → productsCache st' !! p = file_entry net st p) ∧
         same_store st st'.
Proof.
  intros Hc Hl all.
  unfold ProductLoader.loadAllProducts, ProductLoader.loadAllProducts_call.
  rewrite Hc, Hl.
  rewrite allSettled_run by apply files_NoDup.
  set (st1 := safeLog Info "loading all products" (set_loaderIsLoading true st)).
  set (st2 := foldl _ st1 _).
  unfold ProductLoader.loadAllProducts_settle, finally, try_catch.
  unfold mbind, M_bind, modify, mret, M_ret.
  rewrite !merge_fulfilled.
  change (contribution net st1) with (contribution net st). fold all.
  eexists. split; [reflexivity |].
  pose proof (after_files_same net ProductLoader.files st1) as (H1 & H2 & H3 & H4 & H5).
  fold st2 in H1, H2, H3, H4, H5.
  split; [| split];
    cbn [fst snd set_loaderIsLoading set_productsCache safeLog
         products filterCache statsCache dataIsLoading productsCache loaderIsLoading console].
  - apply lookup_insert_eq.
  - intros p Hp. rewrite lookup_insert_ne.
    2:{ intros <-. exact (all_products_no_file Hp). }
    subst st2. rewrite after_files_lookup by apply files_NoDup.
    by rewrite decide_True.
  - unfold same_store.
    cbn [fst snd set_loaderIsLoading set_productsCache safeLog
         products filterCache statsCache dataIsLoading productsCache loaderIsLoading console].
    by rewrite H1, H2, H3, H4.
Qed.

(** X10: on a page where the files have not been merged yet and no load
    is in flight, [loadAllProducts()] resolves to the arrays of the six
    files put end to end in the fixed order of the files, a file that fails
    contributing nothing; it stores that list under ['all_products'], keeps
    each array it was served under its path, lowers its flag and leaves the
    product-data module as it is. *)
Theorem loadAllProducts_concatenates (net : string → fetched document) (st : state) :
  productsCache st !! "all_products" = None →
  loaderIsLoading st = false →
  let all := concat (map (contribution net st) ProductLoader.files) in
  ∃ st', ProductLoader.loadAllProducts net st = Some (st', Ok all) ∧
         productsCache st' !! "all_products" = Some all ∧
         (∀ p, p ∈ ProductLoader.files → productsCache st' !! p = file_entry net st p) ∧
         loaderIsLoading st' = false ∧
         products st' = products st ∧ filterCache st' = filterCache st ∧
         statsCache st' = statsCache st ∧ dataIsLoading st' = dataIsLoading st.
Proof.
  intros Hc Hl all.
  destruct (loadAllProducts_run net st Hc Hl) as (st' & H1 & H2 & H3 & G1 & G2 & G3 & G4 & G5).
  exists st'. rewrite G5. done.
Qed.

(** An instance: the Serbian and the Chinese file are served, the other
    requests fail. *)
Lemma loadAllProducts_concatenates_witness :
  let net := λ p : string,
    if String.eqb p "product/serbia-products.json"
    then Response true 200 (Parsed (DocArray [rakija]))
    else if String.eqb p "product/china-products.json"
    then Response true 200 (Parsed (DocArray [tea]))
    else NetworkError in
  ∃ st', ProductLoader.loadAllProducts net initial_state = Some (st', Ok [rakija; tea]) ∧
         productsCache st' !! "all_products" = Some [rakija; tea].
Proof.
  intros net.
  destruct (loadAllProducts_concatenates net initial_state eq_refl eq_refl)
    as (st' & H1 & H2 & _).
  exists st'. split; [exact H1 | exact H2].
Defined.

(** ** The product-data module on top of the loader *)

Lemma ask_same_loader q st :
  dataIsLoading (ask q st) = dataIsLoading st ∧
  productsCache (ask q st) = productsCache st ∧
  loaderIsLoading (ask q st) = loaderIsLoading st.
Proof.
  destruct q as [c | i | | | q | lo hi | c]; simpl.
  - unfold filterProductsByCategory. by destruct (filterCache st !! _).
  - unfold getProductById. by destruct (filterCache st !! _).
  - unfold getUniqueCategories. by destruct (filterCache st !! _).
  - unfold getProductsStats. by destruct (statsCache st).
  - unfold searchProducts. repeat case_decide; simpl; try done.
    by destruct (filterCache st !! _).
  - unfold getProductsByPriceRange. by destruct (filterCache st !! _).
  - unfold getProductsByCountry. by destruct (filterCache st !! _).
Qed.

Lemma asked_same_loader qs st :
  dataIsLoading (asked qs st) = dataIsLoading st ∧
  productsCache (asked qs st) = productsCache st ∧
  loaderIsLoading (asked qs st) = loaderIsLoading st.
Proof.
  revert st. induction qs as [|q qs IH]; intros st; [done |].
  unfold asked in *; simpl.
  destruct (IH (ask q st)) as (H1 & H2 & H3).
  destruct (ask_same_loader q st) as (G1 & G2 & G3).
  by rewrite H1, H2, H3.
Qed.

(** [loadProducts] through the loader, on a page that is ready to load. *)
Lemma loadProducts_run net combined hasEvents st :
  ready_to_load st →
  let all := concat (map (contribution net st) ProductLoader.files) in
  ∃ st', loadProducts true hasEvents net combined st = Some (Loaded st' (Ok all)) ∧
         products st' = all ∧
         filterCache st' = (if hasEvents then filterCache st else ∅) ∧
         statsCache st' = (if hasEvents then statsCache st else None) ∧
         dataIsLoading st' = false ∧ loaderIsLoading st' = false ∧
         productsCache st' !! "all_products" = Some all.
Proof.
  intros (Hp & Hd & Hl & Hc) all.
  unfold loadProducts, loadProducts_call. rewrite Hd, Hp. simpl.
  set (st1 := safeLog Info "using ProductLoader" _).
  destruct (loadAllProducts_run net st1 Hc Hl) as (st2 & H1 & H2 & _ & G1 & G2 & G3 & G4 & G5).
  change (contribution net st1) with (contribution net st) in H1, H2. fold all in H1, H2.
  rewrite H1.
  unfold loadProducts_settle_loader, loadProducts_finish, finally, try_catch.
  unfold mbind, M_bind, modify, mret, M_ret, gets, lift. simpl.
  destruct hasEvents; simpl;
    (eexists; split; [reflexivity |]; simpl; by rewrite ?G2, ?G3, G5).
Qed.

(** Once the loader holds the merged list [all], [loadProducts] resolves to
    it from any state of the product-data module that is not loading and
    either empty or filled with [all]. *)
Lemma loadProducts_again net combined hasEvents st all :
  productsCache st !! "all_products" = Some all →
  dataIsLoading st = false →
  products st = all ∨ products st = [] →
  ∃ st', loadProducts true hasEvents net combined st = Some (Loaded st' (Ok all)) ∧
         products st' = all ∧ dataIsLoading st' = false ∧
         productsCache st' = productsCache st.
Proof.
  intros Hc Hd Hp.
  unfold loadProducts, loadProducts_call. rewrite Hd.
  destruct (0 <? length (products st))%nat eqn:E.
  - destruct Hp as [Hp | Hp]; [| by rewrite Hp in E].
    eexists. split; [by rewrite Hp |]. done.
  - assert (Hnil : products st = []).
    { destruct (products st); [done | simpl in E; discriminate]. }
    simpl. unfold ProductLoader.loadAllProducts, ProductLoader.loadAllProducts_call.
    simpl. rewrite Hc.
    unfold loadProducts_settle_loader, loadProducts_finish, finally, try_catch.
    unfold mbind, M_bind, modify, mret, M_ret, gets, lift. simpl.
    destruct hasEvents; simpl; (eexists; split; [reflexivity |]; done).
Qed.

(** X11: on a page that is ready to load, [loadProducts()] through the
    loader resolves to the six arrays put end to end, stores that list as
    the product list and lowers its flag. The call [clearCaches()] in it
    runs the function the global name is bound to: on the page
    [loadAllModules] builds that is the function of the events module, and
    [filterCache] and [statsCache] are left as they are, so that a category
    query answered before the load is answered the same after it; only
    where the events module has not run are the two caches emptied. *)
Theorem loadProducts_stores_the_merge
    (net : string → fetched document) (combined : fetched combined_document)
    (hasEvents : bool) (st : state) :
  ready_to_load st →
  let all := concat (map (contribution net st) ProductLoader.files) in
  ∃ st', loadProducts true hasEvents net combined st = Some (Loaded st' (Ok all)) ∧
         products st' = all ∧ dataIsLoading st' = false ∧
         filterCache st' = (if hasEvents then filterCache st else ∅) ∧
         statsCache st' = (if hasEvents then statsCache st else None) ∧
         (hasEvents = true →
          ∀ c v, filterCache st !! c = Some v → fst (filterProductsByCategory c st') = v).
Proof.
  intros Hr all.
  destruct (loadProducts_run net combined hasEvents st Hr) as (st' & H1 & H2 & H3 & H4 & H5 & _).
  exists st'. repeat (split; [done |]).
  intros -> c v Hc. unfold filterProductsByCategory. by rewrite H3, Hc.
Qed.

(** An instance: before anything is loaded the category ['china'] is asked
    for, and the answer, the empty array, is cached; the load brings the
    tea, and on the page with the events module the category is still
    answered with the empty array. *)
Lemma loadProducts_stores_the_merge_witness :
  let net := λ p : string,
    if String.eqb p "product/china-products.json"
    then Response true 200 (Parsed (DocArray [tea]))
    else Response false 404 Unparsable in
  let st := snd (filterProductsByCategory "china" initial_state) in
  ∃ st', loadProducts true true net NetworkError st = Some (Loaded st' (Ok [tea])) ∧
         products st' = [tea] ∧
         fst (filterProductsByCategory "china" st') = VArray [].
Proof.
  intros net st.
  assert (Hr : ready_to_load st) by (repeat split).
  destruct (loadProducts_stores_the_merge net NetworkError true st Hr)
    as (st' & H1 & H2 & _ & _ & _ & H3).
  exists st'. split; [exact H1 |]. split; [exact H2 |].
  exact (H3 eq_refl "china" (VArray []) eq_refl).
Defined.

(** X12: the files are fetched once. After [loadProducts()] has run
    through the loader, whatever queries follow, a later [loadProducts()]
    and a later [refreshProducts()] resolve to the list of the first load
    whatever the network then answers: the loader serves its cached merge,
    also when the first load got nothing. Only after the loader's
    [clearCaches()] does [refreshProducts()] fetch again. *)
Theorem later_loads_serve_the_first_merge
    (net net' : string → fetched document) (combined combined' : fetched combined_document)
    (hasEvents : bool) (qs : list query) (st : state) :
  ready_to_load st →
  let all := concat (map (contribution net st) ProductLoader.files) in
  ∃ st1,
    loadProducts true hasEvents net combined st = Some (Loaded st1 (Ok all)) ∧
    (∃ st2, loadProducts true hasEvents net' combined' (asked qs st1)
            = Some (Loaded st2 (Ok all)) ∧
            products st2 = all) ∧
    (∃ st2, refreshProducts true hasEvents net' combined' (asked qs st1)
            = Some (Loaded st2 (Ok all)) ∧
            products st2 = all) ∧
    (∃ st2, refreshProducts true hasEvents net' combined'
              (ProductLoader.clearCaches (asked qs st1))
            = Some (Loaded st2 (Ok (concat (map (λ p, served (net' p)) ProductLoader.files)))) ∧
            products st2 = concat (map (λ p, served (net' p)) ProductLoader.files)).
Proof.
  intros Hr all.
  destruct (loadProducts_run net combined hasEvents st Hr)
    as (st1 & H1 & H2 & H3 & H4 & H5 & H6 & H7).
  fold all in H1, H2, H7.
  exists st1. split; [exact H1 |].
  destruct (asked_same_loader qs st1) as (G1 & G2 & G3).
  pose proof (asked_products qs st1) as G4.
  assert (Hsame : ∀ s, dataIsLoading (call_clearCaches hasEvents s) = dataIsLoading s ∧
                       loaderIsLoading (call_clearCaches hasEvents s) = loaderIsLoading s ∧
                       productsCache (call_clearCaches hasEvents s) = productsCache s).
  { intros s. by destruct hasEvents. }
  split; [| split].
  - destruct (loadProducts_again net' combined' hasEvents (asked qs st1) _
                ltac:(by rewrite G2) ltac:(by rewrite G1) ltac:(left; by rewrite G4))
      as (st2 & E1 & E2 & _).
    by exists st2.
  - unfold refreshProducts.
    destruct (Hsame (asked qs st1)) as (S1 & S2 & S3).
    destruct (loadProducts_again net' combined' hasEvents
                (set_products [] (call_clearCaches hasEvents (asked qs st1))) all)
      as (st2 & E1 & E2 & _).
    + simpl. by rewrite S3, G2.
    + simpl. by rewrite S1, G1.
    + by right.
    + by exists st2.
  - unfold refreshProducts.
    destruct (Hsame (ProductLoader.clearCaches (asked qs st1))) as (S1 & S2 & S3).
    assert (Hr' : ready_to_load
                    (set_products []
                       (call_clearCaches hasEvents (ProductLoader.clearCaches (asked qs st1))))).
    { split; [done |]. split; [simpl; by rewrite S1; simpl; rewrite G1 |].
      split; [simpl; by rewrite S2; simpl; rewrite G3 |].
      simpl. rewrite S3. apply lookup_empty. }
    destruct (loadProducts_run net' combined' hasEvents _ Hr') as (st2 & E1 & E2 & _).
    exists st2.
    assert (Hcontr : ∀ p, contribution net'
                            (set_products []
                               (call_clearCaches hasEvents
                                  (ProductLoader.clearCaches (asked qs st1)))) p
                          = served (net' p)).
    { intros p. unfold contribution. simpl. rewrite S3. simpl. by rewrite lookup_empty. }
    rewrite (map_ext _ _ Hcontr) in E1, E2.
    split; [exact E1 | exact E2].
Qed.

(** An instance: every request of the first load fails; the network then
    recovers, and the list stays empty until the loader's cache is
    cleared. *)
Lemma later_loads_serve_the_first_merge_witness :
  let down := λ _ : string, @NetworkError document in
  let up := λ p : string,
    if String.eqb p "product/china-products.json"
    then Response true 200 (Parsed (DocArray [tea]))
    else Response true 200 (Parsed (DocArray [])) in
  ∃ st1,
    loadProducts true true down NetworkError initial_state = Some (Loaded st1 (Ok [])) ∧
    (∃ st2, refreshProducts true true up NetworkError st1 = Some (Loaded st2 (Ok []))) ∧
    (∃ st2, refreshProducts true true up NetworkError (ProductLoader.clearCaches st1)
            = Some (Loaded st2 (Ok [tea]))).
Proof.
  intros down up.
  assert (Hr : ready_to_load initial_state) by (repeat split).
  destruct (later_loads_serve_the_first_merge down up NetworkError NetworkError true []
              initial_state Hr) as (st1 & H1 & _ & (st2 & H2 & _) & (st3 & H3 & _)).
  exists st1. split; [exact H1 |]. split; [by exists st2 | by exists st3].
Defined.

(** ** Failing loads *)

Lemma after_file_console net path st :
  ∃ l, console (after_file net path st) = console st ++ l ∧
       (productsCache st !! path = None → fails (net path) = true →
        l = [(Error, "error loading " +:+ path)]).
Proof.
  unfold after_file. destruct (productsCache st !! path).
  - exists []. by rewrite app_nil_r.
  - destruct (fails (net path)); eexists; (split; [reflexivity | done]).
Qed.

(** Each file that fails to load leaves its console line at level Error. *)
Lemma after_files_console net paths st :
  NoDup paths →
  ∃ l, console (foldl (λ st p, after_file net p st) st paths) = console st ++ l ∧
       ∀ p, p ∈ paths → productsCache st !! p = None → fails (net p) = true →
            (Error, "error loading " +:+ p) ∈ l.
Proof.
  revert st. induction paths as [|p paths IH]; intros st Hn; simpl.
  - exists []. split; [by rewrite app_nil_r | by intros p ?%elem_of_nil].
  - apply NoDup_cons in Hn as [Hp Hn].
    destruct (IH (after_file net p st) Hn) as (l2 & E2 & H2).
    destruct (after_file_console net p st) as (l1 & E1 & H1).
    exists (l1 ++ l2). split; [by rewrite E2, E1, app_assoc |].
    intros q [-> | Hq]%elem_of_cons Hc Hf.
    + apply elem_of_app. left. rewrite (H1 Hc Hf). by left.
    + apply elem_of_app. right. apply H2; [done | | done].
      rewrite after_file_lookup, decide_False; [done |]. by intros ->.
Qed.

Lemma loadAllProducts_errors net st st' r :
  productsCache st !! "all_products" = None →
  loaderIsLoading st = false →
  ProductLoader.loadAllProducts net st = Some (st', r) →
  dataIsLoading st' = dataIsLoading st ∧ products st' = products st ∧
  ∃ l, console st' = console st ++ l ∧
       ∀ p, p ∈ ProductLoader.files → productsCache st !! p = None → fails (net p) = true →
            (Error, "error loading " +:+ p) ∈ l.
Proof.
  intros Hc Hl.
  unfold ProductLoader.loadAllProducts, ProductLoader.loadAllProducts_call.
  rewrite Hc, Hl.
  rewrite allSettled_run by apply files_NoDup.
  set (st1 := safeLog Info "loading all products" (set_loaderIsLoading true st)).
  destruct (after_files_console net ProductLoader.files st1 files_NoDup) as (l & E & H).
  pose proof (after_files_same net ProductLoader.files st1) as (G1 & _ & _ & G4 & _).
  set (st2 := foldl _ st1 _) in *.
  unfold ProductLoader.loadAllProducts_settle, finally, try_catch.
  unfold mbind, M_bind, modify, mret, M_ret.
  intros H0.
  match type of H0 with
  | Some (?a, _) = _ => assert (Est : st' = a) by congruence
  end.
  clear H0. subst st'.
  cbn [set_loaderIsLoading set_productsCache safeLog
       products filterCache statsCache dataIsLoading productsCache loaderIsLoading console].
  split; [by rewrite G4 |]. split; [by rewrite G1 |].
  eexists. split.
  - rewrite E. unfold st1. cbn [console safeLog]. rewrite <- !app_assoc. reflexivity.
  - intros p Hp Hcp Hf. apply elem_of_cons. right.
    apply elem_of_app. left. by apply H.
Qed.

(** No call through the loader rejects its promise, whatever the state of
    the page. *)
Lemma loadAllProducts_fulfils net st st' r :
  ProductLoader.loadAllProducts net st = Some (st', r) → ∃ ps, r = Ok ps.
Proof.
  unfold ProductLoader.loadAllProducts, ProductLoader.loadAllProducts_call.
  destruct (productsCache st !! "all_products") as [ps|].
  { intros [= _ <-]. by eexists. }
  destruct (loaderIsLoading st); [done |].
  destruct (ProductLoader.allSettled _ _ _) as [st2 settled].
  unfold ProductLoader.loadAllProducts_settle, finally, try_catch.
  unfold mbind, M_bind, modify, mret, M_ret.
  intros H. eexists. by injection H as _ <-.
Qed.

Lemma loadProducts_loader_fulfils hasEvents net combined st l :
  loadProducts true hasEvents net combined st = Some l → ∃ st' ps, l = Loaded st' (Ok ps).
Proof.
  unfold loadProducts, loadProducts_call.
  destruct (dataIsLoading st). { intros [= <-]. by do 2 eexists. }
  destruct (0 <? _)%nat. { intros [= <-]. by do 2 eexists. }
  cbn [loadProducts_start].
  destruct (ProductLoader.loadAllProducts _ _) as [[st2 awaited]|] eqn:E; [| done].
  destruct (loadAllProducts_fulfils _ _ _ _ E) as [ps ->].
  unfold loadProducts_settle_loader, loadProducts_finish, finally, try_catch.
  unfold mbind, M_bind, modify, mret, M_ret, gets, lift.
  intros [= <-]. by do 2 eexists.
Qed.

(** C9: what holds, and where the code lets an error pass. Whatever the
    state of the page, [loadProductsFromFile], [loadAllProducts] and
    [loadProducts] through the loader fulfil their promises when they
    settle. On a page that is ready to load,
    - [loadProductsFromFile] fulfils its promise, with the empty array and
      a console line at level Error when its request fails (network error,
      status not OK, a body that does not parse, a document that is not an
      array) and nothing is cached for the file;
    - [loadAllProducts], and [loadProducts] through it, fulfil theirs with
      the arrays of the files put end to end, a file that fails
      contributing nothing and leaving its line at level Error;
    - [loadProducts] on its fallback fulfils its promise with the empty
      array, after a line at level Error, when the request for the combined
      document fails or the document is [null].
    But the fallback stores [data.products] unchecked.
    - When the document has no [products] member (or [null] for it), the
      call still answers with the empty array and an Error line, but the
      variable [products] is left [undefined], and the next call of
      [loadProducts] rejects its promise with the [TypeError] of
      [products.length], which is read before the [try].
    - When [data.products] is some other value that is no array, the call
      fulfils its promise with that value and logs no error. *)
Theorem fallback_stores_document_unchecked
    (net : string → fetched document) (hasEvents : bool) (status : Z) (st : state) :
  ready_to_load st →
  (∀ st0 path combined,
     (∃ ps, snd (ProductLoader.loadProductsFromFile net path st0) = Ok ps) ∧
     (∀ st1 r, ProductLoader.loadAllProducts net st0 = Some (st1, r) → ∃ ps, r = Ok ps) ∧
     (∀ l, loadProducts true hasEvents net combined st0 = Some l →
           ∃ st1 ps, l = Loaded st1 (Ok ps))) ∧
  (∀ path,
     ∃ st', ProductLoader.loadProductsFromFile net path st
            = (st', Ok (contribution net st path)) ∧
            (productsCache st !! path = None → fails (net path) = true →
             contribution net st path = [] ∧ logs_error st st')) ∧
  (∃ st', ProductLoader.loadAllProducts net st
          = Some (st', Ok (concat (map (contribution net st) ProductLoader.files))) ∧
          ∀ p, p ∈ ProductLoader.files → productsCache st !! p = None →
               fails (net p) = true →
               contribution net st p = [] ∧ (Error, "error loading " +:+ p) ∈ console st') ∧
  (∀ combined,
     ∃ st', loadProducts true hasEvents net combined st
            = Some (Loaded st' (Ok (concat (map (contribution net st) ProductLoader.files)))) ∧
            dataIsLoading st' = false ∧
            ∀ p, p ∈ ProductLoader.files → productsCache st !! p = None →
                 fails (net p) = true → (Error, "error loading " +:+ p) ∈ console st') ∧
  (∀ combined, fails_combined combined = true →
     ∃ st', loadProducts false hasEvents net combined st = Some (Loaded st' (Ok [])) ∧
            logs_error st st' ∧ dataIsLoading st' = false ∧ products st' = []) ∧
  (∃ st1, loadProducts false hasEvents net
            (Response true status (Parsed (Combined MNullish))) st
          = Some (Lost st1 Nullish) ∧
          logs_error st st1 ∧ dataIsLoading st1 = false ∧
          ∃ e, loadProducts_call_held Nullish false st1 = Rejects st1 e) ∧
  (∀ long,
     ∃ st1 l, loadProducts false hasEvents net
                (Response true status (Parsed (Combined (MOther long)))) st
              = Some (Lost st1 (Other long)) ∧
              console st1 = console st ++ l ∧ existsb is_error l = false).
Proof.
  intros (Hp & Hd & Hl & Hc).
  assert (Hempty : ∀ p, productsCache st !! p = None → fails (net p) = true →
                        contribution net st p = []).
  { intros p Hcp Hf. unfold contribution. rewrite Hcp. unfold fails, served in *.
    destruct (net p) as [|[] ? [|[]]]; simpl in *; done. }
  split; [| split; [| split; [| split; [| split; [| split]]]]].
  - intros st0 path combined. split; [| split].
    + rewrite loadProductsFromFile_run. by eexists.
    + intros st1 r. apply loadAllProducts_fulfils.
    + intros l. apply loadProducts_loader_fulfils.
  - intros path. rewrite loadProductsFromFile_run. eexists. split; [reflexivity |].
    intros Hcp Hf. split; [by apply Hempty |].
    destruct (after_file_console net path st) as (l & E & H).
    exists l. split; [done |]. by rewrite (H Hcp Hf).
  - destruct (loadAllProducts_run net st Hc Hl) as (st' & H1 & _).
    exists st'. split; [exact H1 |].
    intros p Hpf Hcp Hf. split; [by apply Hempty |].
    destruct (loadAllProducts_errors net st st' _ Hc Hl H1) as (_ & _ & l & E & H).
    rewrite E. apply elem_of_app. right. by apply H.
  - intros combined.
    unfold loadProducts, loadProducts_call. rewrite Hd, Hp. simpl.
    set (st1 := safeLog Info "using ProductLoader" _).
    destruct (loadAllProducts_run net st1 Hc Hl) as (st2 & H1 & _).
    destruct (loadAllProducts_errors net st1 st2 _ Hc Hl H1) as (G1 & G2 & l & E & H).
    change (contribution net st1) with (contribution net st) in H1.
    rewrite H1.
    unfold loadProducts_settle_loader, loadProducts_finish, finally, try_catch.
    unfold mbind, M_bind, modify, mret, M_ret, gets, lift. simpl.
    assert (Hin : ∀ p, p ∈ ProductLoader.files → productsCache st !! p = None →
                       fails (net p) = true →
                       (Error, "error loading " +:+ p) ∈ console st2).
    { intros p Hpf Hcp Hf. rewrite E. apply elem_of_app. right. by apply H. }
    destruct hasEvents; simpl;
      (eexists; split; [reflexivity |]; split; [done |];
       intros p Hpf Hcp Hf; simpl; repeat (apply elem_of_app; left); by apply Hin).
  - intros combined Hcomb.
    unfold loadProducts, loadProducts_call. rewrite Hd, Hp. simpl.
    assert (Hlog : ∀ s, console s = (console st ++ [(Info, "start loading products")])
                          ++ [(Info, "ProductLoader not found, falling back to product.json")] →
                        logs_error st (set_dataIsLoading false
                                         (safeLog Error "error loading products" s))).
    { intros s Hs. eexists. split; [simpl; rewrite Hs, <- !app_assoc; reflexivity | reflexivity]. }
    unfold loadProducts_settle_fetch.
    destruct combined as [|[] status' [|[|m]]]; simpl in *; try done;
      (eexists; split; [reflexivity |]; split; [by apply Hlog | done]).
  - unfold loadProducts, loadProducts_call. rewrite Hd, Hp. simpl.
    eexists. split; [reflexivity |].
    split.
    { eexists. split; [simpl; rewrite <- !app_assoc; reflexivity | reflexivity]. }
    split; [done |]. eexists. reflexivity.
  - intros long.
    unfold loadProducts, loadProducts_call. rewrite Hd, Hp. simpl.
    destruct hasEvents; simpl;
      (eexists; eexists; split; [reflexivity |];
       split; [simpl; rewrite <- !app_assoc; reflexivity | reflexivity]).
Qed.

(** An instance, on the page as the scripts find it without the loader:
    [product.json] is the document [{}]; the first call answers with the
    empty array, the second rejects. With [{"products": {}}] the call
    answers with the object. *)
Lemma fallback_stores_document_unchecked_witness :
  let down := λ _ : string, @NetworkError document in
  ∃ st1,
    loadProducts false true down (Response true 200 (Parsed (Combined MNullish))) initial_state
    = Some (Lost st1 Nullish) ∧
    (∃ e, loadProducts_call_held Nullish false st1 = Rejects st1 e) ∧
    ∃ st2, loadProducts false true down
             (Response true 200 (Parsed (Combined (MOther false)))) initial_state
           = Some (Lost st2 (Other false)).
Proof.
  intros down.
  assert (Hr : ready_to_load initial_state) by (repeat split).
  destruct (fallback_stores_document_unchecked down true 200 initial_state Hr)
    as (_ & _ & _ & _ & _ & (st1 & H1 & _ & _ & H2) & H3).
  destruct (H3 false) as (st2 & l & H4 & _).
  exists st1. split; [exact H1 |]. split; [exact H2 |]. by exists st2.
Defined.

End Loading.

(** * The loader's own queries *)
Section LoaderQueryResults.
Import LoaderQueries.

Lemma count_in_NoDup t (l : list string) :
  NoDup l →
  length (List.filter (λ x, String.eqb x t) l) = if decide (t ∈ l) then 1%nat else 0%nat.
Proof.
  induction 1 as [|x l Hx Hn IH]; simpl; [done |].
  destruct (String.eqb_spec x t) as [-> | Hne]; simpl.
  - rewrite decide_True by (by left). rewrite IH, decide_False; done.
  - rewrite IH. destruct (decide (t ∈ l)) as [Ht | Ht].
    + by rewrite decide_True by (by right).
    + rewrite decide_False; [done |]. by intros [-> | H]%elem_of_cons.
Qed.

Lemma count_tags_foldl t (ps : list product) (m : gmap string nat) :
  (∀ p, p ∈ ps → NoDup (tags p)) →
  foldl (λ stats product,
           foldl (λ stats tag, ProductData.count_up tag stats) stats (tags product))
        m ps !! t
  = if (length (filter (λ p, t ∈ tags p) ps) =? 0)%nat then m !! t
    else Some (default 0%nat (m !! t) + length (filter (λ p, t ∈ tags p) ps))%nat.
Proof.
  revert m. induction ps as [|p ps IH]; intros m Hn; [done |].
  simpl. rewrite IH by (intros q Hq; apply Hn; by right).
  pose proof (count_up_foldl_by (λ x : string, x) t (tags p) m) as Hp.
  cbv beta in Hp. rewrite Hp. clear Hp.
  rewrite count_in_NoDup by (apply Hn; by left).
  rewrite filter_cons. destruct (decide (t ∈ tags p)) as [Ht | Ht]; simpl.
  - destruct (Nat.eqb_spec (length (filter (λ p0, t ∈ tags p0) ps)) 0) as [-> | _];
      f_equal; lia.
  - done.
Qed.

(** X13: the loader's two views of the merged list agree. When each
    product lists a tag at most once, [getCountryStats()] holds under a tag
    the number of products [getProductsByCountry(tag)] returns, and has no
    entry for a tag without products; before anything is loaded the
    statistics are empty and no product is returned. (For tags other than
    the names a plain object inherits.) *)
Theorem getCountryStats_counts_listed_products (st : state) (t : string) :
  (∀ all p, productsCache st !! "all_products" = Some all → p ∈ all → NoDup (tags p)) →
  inherited_name t = false →
  getCountryStats st !! t =
    (if (length (getProductsByCountry t st) =? 0)%nat then None
     else Some (length (getProductsByCountry t st))) ∧
  (productsCache st !! "all_products" = None →
   getCountryStats st = ∅ ∧ getProductsByCountry t st = []).
Proof.
  intros Hn _. unfold getCountryStats, getProductsByCountry.
  destruct (productsCache st !! "all_products") as [all|] eqn:E.
  - split; [| done]. rewrite count_tags_foldl by (intros p; by apply Hn).
    by rewrite lookup_empty.
  - split; [apply lookup_empty | done].
Qed.

Lemma getCountryStats_counts_listed_products_witness :
  let st := set_productsCache {["all_products" := [rakija; tea]]} initial_state in
  getCountryStats st !! "china" = Some 1%nat ∧ getProductsByCountry "china" st = [tea].
Proof.
  intros st.
  assert (Hn : ∀ all p, productsCache st !! "all_products" = Some all → p ∈ all → NoDup (tags p)).
  { intros all p [= <-] Hp. apply list_elem_of_In in Hp. simpl in Hp.
    destruct Hp as [<- | [<- | []]]; apply NoDup_singleton. }
  split; [| reflexivity].
  exact (proj1 (getCountryStats_counts_listed_products st "china" Hn eq_refl)).
Defined.

End LoaderQueryResults.

(** * The progress bar stays between 0% and 100% *)
Section ProgressBar.
Import UI.

Lemma bar_kept_refl w : bar_kept w w.
Proof.
  split; [done |]. split; [by left |].
  exists []. split; [by rewrite app_nil_r | constructor].
Qed.

Lemma bar_kept_trans w1 w2 w3 : bar_kept w1 w2 → bar_kept w2 w3 → bar_kept w1 w3.
Proof.
  intros (I1 & W1 & l1 & S1 & F1) (I2 & W2 & l2 & S2 & F2).
  split; [congruence |]. split.
  - destruct W2 as [W2 | W2]; [| by right].
    destruct W1 as [W1 | W1]; [left | right]; congruence.
  - exists (l1 ++ l2). split; [by rewrite S2, S1, app_assoc |].
    by apply Forall_app.
Qed.

Lemma bar_kept_within w w' : bar_kept w w' → bar_within w → bar_within w'.
Proof.
  intros (HI & HW & l & HS & HF) (BI & B0 & B1 & BS).
  split; [by rewrite HI |].
  split; [| split].
  - destruct HW as [-> | ->]; [done | apply Qle_refl].
  - destruct HW as [-> | ->]; [done | by compute].
  - rewrite HS. apply Forall_app. split; [done |].
    eapply Forall_impl; [exact HF |]. intros s ->. apply Qle_refl.
Qed.

(** [w'] has the interval, the bar and the sessions of [w]. *)
Lemma bar_same w w' :
  interval (cfg w') = interval (cfg w) →
  width (progressBar w') = width (progressBar w) →
  sessions w' = sessions w →
  bar_kept w w'.
Proof.
  intros HI HW HS. split; [done |]. split; [by left |].
  exists []. split; [by rewrite app_nil_r | constructor].
Qed.

(** [w'] has the interval and the sessions of [w], and its bar at 0. *)
Lemma bar_zero w w' :
  interval (cfg w') = interval (cfg w) →
  width (progressBar w') = 0%Q →
  sessions w' = sessions w →
  bar_kept w w'.
Proof.
  intros HI HW HS. split; [done |]. split; [by right |].
  exists []. split; [by rewrite app_nil_r | constructor].
Qed.

Lemma clear_if_set_bar h w : bar_kept w (clear_if_set h w).
Proof. destruct h as [[|n]|]; by apply bar_same. Qed.

Lemma forceResetProgressBar_bar w : bar_kept w (forceResetProgressBar w).
Proof. by apply bar_zero. Qed.

Lemma resetProgressBar_bar w : bar_kept w (resetProgressBar w).
Proof. by apply bar_zero. Qed.

Lemma start_bar imgs i w :
  bar_kept w (fst (startModalImageRotationWithIndex imgs i w)).
Proof.
  rewrite start_shape. cbn [fst].
  split; [done |]. split; [by right |].
  exists [Session imgs i 0]. split; [done |]. by repeat constructor.
Qed.

Lemma stopAllImageRotation_bar w : bar_kept w (stopAllImageRotation w).
Proof.
  destruct w as [c ap md mn ms th ps pb [m p] ss hv ts nh nw].
  destruct m as [[|m]|], p as [[|p]|]; by apply bar_same.
Qed.

Lemma openProductModal_bar p w : bar_kept w (openProductModal p w).
Proof.
  unfold openProductModal, createImageGallery.
  destruct (images p); (destruct (_ && _); [by apply bar_zero | by apply bar_same]).
Qed.

Lemma openStart_bar imgs w : bar_kept w (openStart imgs w).
Proof.
  unfold openStart, startModalImageRotation.
  destruct (negb _); [apply bar_kept_refl |].
  pose proof (start_bar imgs 0 w) as H.
  destruct (startModalImageRotationWithIndex imgs 0 w) as [w' [i p]].
  eapply bar_kept_trans; [exact H | by apply bar_same].
Qed.

Lemma pauseOnHover_bar h w : bar_kept w (pauseOnHover h w).
Proof. unfold pauseOnHover. destruct (intervalId h); by apply bar_same. Qed.

Lemma resumeOnLeave_bar k w : bar_kept w (resumeOnLeave k w).
Proof.
  unfold resumeOnLeave, startModalImageRotation.
  destruct (hover w !! k) as [h|]; [| apply bar_kept_refl].
  destruct (enabled (cfg w)); [| apply bar_kept_refl].
  pose proof (start_bar (hover_images h) 0 w) as H.
  destruct (startModalImageRotationWithIndex (hover_images h) 0 w) as [w' [i p]].
  eapply bar_kept_trans; [exact H | by apply bar_same].
Qed.

Lemma foldl_bar {B} (f : world → B → world) (l : list B) w :
  (∀ w b, bar_kept w (f w b)) → bar_kept w (foldl f w l).
Proof.
  intros Hf. apply (foldl_invariant (bar_kept w)); [| apply bar_kept_refl].
  intros a b Ha. eapply bar_kept_trans; [exact Ha | apply Hf].
Qed.

Lemma switchMainImage_bar imageSrc clicked w :
  bar_kept w (switchMainImage imageSrc clicked w).
Proof.
  unfold switchMainImage.
  set (w1 := set_thumbnails _ _).
  assert (H1 : bar_kept w w1) by (by apply bar_same).
  clearbody w1. destruct (enabled (cfg w1)); [| done].
  set (w2 := forceResetProgressBar _).
  assert (H2 : bar_kept w w2).
  { eapply bar_kept_trans; [exact H1 |].
    eapply bar_kept_trans; [apply clear_if_set_bar |].
    eapply bar_kept_trans; [apply clear_if_set_bar | apply forceResetProgressBar_bar]. }
  clearbody w2.
  destruct (List.find _ _) as [currentProduct|]; [| done].
  destruct (1 <? _)%nat; [| done].
  eapply bar_kept_trans; [exact H2 | by apply bar_same].
Qed.

Lemma switchRestart_bar imgs index w : bar_kept w (switchRestart imgs index w).
Proof.
  unfold switchRestart.
  pose proof (start_bar imgs index w) as H.
  destruct (startModalImageRotationWithIndex imgs index w) as [w' [i p]].
  eapply bar_kept_trans; [exact H | by apply bar_same].
Qed.

Lemma closeProductModal_bar w : bar_kept w (closeProductModal w).
Proof.
  unfold closeProductModal.
  apply (bar_kept_trans w (stopAllImageRotation (set_modal_display false w))).
  - eapply bar_kept_trans; [| apply stopAllImageRotation_bar]. by apply bar_same.
  - by apply bar_zero.
Qed.

Lemma restartImageRotation_bar w : bar_kept w (restartImageRotation w).
Proof.
  unfold restartImageRotation, startModalImageRotation.
  destruct (negb (enabled _)); [apply bar_kept_refl |].
  destruct (modal_display w); [| apply bar_kept_refl].
  destruct (negb (String.eqb _ _)); [| apply bar_kept_refl].
  destruct (has_thumbnail _ _); [| apply bar_kept_refl].
  apply start_bar.
Qed.

Lemma toggleImageRotation_bar b w : bar_kept w (toggleImageRotation b w).
Proof.
  unfold toggleImageRotation.
  eapply bar_kept_trans; [by apply (bar_same w (set_enabled b w)) |].
  destruct b; [apply restartImageRotation_bar | apply stopAllImageRotation_bar].
Qed.

Lemma forceStartImageRotation_bar w : bar_kept w (forceStartImageRotation w).
Proof.
  unfold forceStartImageRotation.
  eapply bar_kept_trans; [| apply restartImageRotation_bar].
  destruct (negb _); [by apply bar_same | apply bar_kept_refl].
Qed.

Lemma testImageRotation_bar w : bar_kept w (testImageRotation w).
Proof.
  unfold testImageRotation, startModalImageRotation.
  destruct (1 <? _)%nat; [| apply bar_kept_refl].
  pose proof (start_bar (map src (thumbnails w)) 0 w) as H.
  destruct (startModalImageRotationWithIndex _ 0 w) as [w' [i p]].
  eapply bar_kept_trans; [exact H | by apply bar_same].
Qed.

Lemma setImageRotationInterval_bar i w :
  0 < i → bar_within w → bar_within (setImageRotationInterval i w).
Proof.
  intros Hi (_ & B0 & B1 & BS). unfold setImageRotationInterval.
  set (w1 := set_cfg _ w).
  assert (H1 : bar_within w1) by done.
  clearbody w1. destruct (enabled (cfg w1)); [| done].
  eapply bar_kept_within; [apply restartImageRotation_bar | done].
Qed.

(** ** The two callbacks of a session *)

Lemma increment_positive w : 0 < interval (cfg w) → (0 < increment w)%Q.
Proof.
  intros HI. unfold increment.
  apply Qlt_shift_div_l.
  - apply Qlt_shift_div_l; [done |]. rewrite Qmult_0_l.
    change 0%Q with (inject_Z 0). by rewrite <- Zlt_Qlt.
  - by rewrite Qmult_0_l.
Qed.

Lemma rotateImages_bar sid w : bar_within w → bar_within (rotateImages sid w).
Proof.
  intros (BI & B0 & B1 & BS). unfold rotateImages.
  destruct (sessions w !! sid) as [s|] eqn:E; [| done].
  pose proof (Forall_lookup_1 _ _ _ _ BS E) as Hs. simpl in Hs.
  split; [done |]. split; [apply Qle_refl |]. split; [by compute |].
  change (Forall (λ s, (0 <= session_progress s)%Q)
            (<[sid := Session (session_images s)
                        (Z.rem (currentImageIndex s + 1) (Z.of_nat (length (session_images s)))) 0]>
               (<[sid := Session (session_images s)
                           (Z.rem (currentImageIndex s + 1) (Z.of_nat (length (session_images s))))
                           (session_progress s)]> (sessions w)))).
  apply Forall_insert; [apply Forall_insert; done | apply Qle_refl].
Qed.

Lemma updateProgress_bar sid w : bar_within w → bar_within (updateProgress sid w).
Proof.
  intros (BI & B0 & B1 & BS). unfold updateProgress.
  destruct (sessions w !! sid) as [s|] eqn:E; [| done].
  pose proof (Forall_lookup_1 _ _ _ _ BS E) as Hs. simpl in Hs.
  set (p := Qred (session_progress s + increment w)).
  assert (Hp : (0 <= p)%Q).
  { unfold p. rewrite Qred_correct.
    pose proof (increment_positive w BI) as Hinc.
    apply Qlt_le_weak in Hinc.
    rewrite <- (Qplus_0_l 0). by apply Qplus_le_compat. }
  assert (HS : Forall (λ s, (0 <= session_progress s)%Q)
                 (<[sid := Session (session_images s) (currentImageIndex s) p]> (sessions w)))
    by (by apply Forall_insert).
  destruct (Qle_bool p 100) eqn:Hle.
  - apply Qle_bool_iff in Hle. by split.
  - by split.
Qed.

Lemma run_callback_bar f w : bar_within w → bar_within (run_callback f w).
Proof.
  intros H. destruct f; simpl.
  - by apply rotateImages_bar.
  - by apply updateProgress_bar.
  - revert H. by apply bar_kept_within, bar_same.
  - revert H. apply bar_kept_within, openStart_bar.
  - revert H. apply bar_kept_within, switchRestart_bar.
  - revert H. by apply bar_kept_within, bar_zero.
  - revert H. apply bar_kept_within. unfold testStop.
    eapply bar_kept_trans; apply clear_if_set_bar.
Qed.

Lemma fire_bar t w : bar_within w → bar_within (fire t w).
Proof. intros H. unfold fire. by apply run_callback_bar. Qed.

Lemma step_bar e w :
  positive_interval e = true → bar_within w → bar_within (step e w).
Proof.
  intros He H. destruct e; simpl in *.
  - revert H. apply bar_kept_within, openProductModal_bar.
  - revert H. apply bar_kept_within, closeProductModal_bar.
  - destruct (thumbnails w !! k); [| done].
    revert H. apply bar_kept_within, switchMainImage_bar.
  - revert H. apply bar_kept_within. unfold mouseenter.
    apply foldl_bar. intros. apply pauseOnHover_bar.
  - revert H. apply bar_kept_within. unfold mouseleave.
    apply foldl_bar. intros. apply resumeOnLeave_bar.
  - revert H. apply bar_kept_within, toggleImageRotation_bar.
  - apply setImageRotationInterval_bar; [by apply Z.ltb_lt | done].
  - revert H. by apply bar_kept_within, bar_same.
  - revert H. apply bar_kept_within, forceStartImageRotation_bar.
  - revert H. apply bar_kept_within, restartImageRotation_bar.
  - revert H. apply bar_kept_within, stopAllImageRotation_bar.
  - revert H. apply bar_kept_within, resetProgressBar_bar.
  - revert H. apply bar_kept_within, forceResetProgressBar_bar.
  - revert H. apply bar_kept_within, testImageRotation_bar.
  - unfold fire_next. destruct (next_timer _); [by apply fire_bar | done].
Qed.

Lemma run_bar events w :
  forallb positive_interval events = true → bar_within w → bar_within (run events w).
Proof.
  revert w. induction events as [|e events IH]; intros w He H; [done |].
  simpl in He. apply andb_true_iff in He as [He Hes].
  unfold run in *. simpl. apply IH; [done |]. by apply step_bar.
Qed.

(** X14: whatever happens on the page (products opened and closed,
    thumbnails clicked, the pointer moved, the rotation switched, restarted
    or tested, timers run), as long as [setImageRotationInterval] is only
    given positive intervals the progress bar is never below 0% and never
    above 100%. *)
Theorem progress_bar_within_bounds (ps : list product) (events : list event) :
  forallb positive_interval events = true →
  let w := run events (initial_world ps) in
  (0 <= width (progressBar w))%Q ∧ (width (progressBar w) <= 100)%Q.
Proof.
  intros He w.
  assert (H0 : bar_within (initial_world ps)).
  { split; [done |]. split; [apply Qle_refl |]. split; [by compute | constructor]. }
  destruct (run_bar events _ He H0) as (_ & B0 & B1 & _). done.
Qed.

(** An instance: the three-image product is opened, the delayed start and
    two progress ticks run, and the interval is set to one second. *)
Lemma progress_bar_within_bounds_witness :
  let w := run [Open rakija; Tick; Tick; Tick; SetInterval 1000; Tick] (initial_world [rakija; tea]) in
  (0 <= width (progressBar w))%Q ∧ (width (progressBar w) <= 100)%Q.
Proof.
  exact (progress_bar_within_bounds [rakija; tea]
           [Open rakija; Tick; Tick; Tick; SetInterval 1000; Tick] eq_refl).
Defined.

End ProgressBar.

(** * Rotation switched off stays off *)
Section Switch.
Import UI.

Lemma harmless_cb t u : cb u = cb t → harmless u = harmless t.
Proof. unfold harmless. by intros ->. Qed.

Lemma harmless_no_rotation t :
  harmless t = true → is_advance t = false ∧ is_progress t = false.
Proof. unfold harmless, is_advance, is_progress. by destruct (cb t). Qed.

Lemma off_kept_refl w : off_kept w w.
Proof. split; [done |]. intros t Ht. left. by exists t. Qed.

Lemma off_kept_trans w1 w2 w3 : off_kept w1 w2 → off_kept w2 w3 → off_kept w1 w3.
Proof.
  intros [E1 T1] [E2 T2]. split; [congruence |].
  intros t Ht. destruct (T2 t Ht) as [(u & Hu & Hcb) | Hh]; [| by right].
  destruct (T1 u Hu) as [(v & Hv & Hcb') | Hh].
  - left. exists v. split; [done | congruence].
  - right. by rewrite <- (harmless_cb t u).
Qed.

Lemma off_kept_switched w w' : off_kept w w' → switched_off w → switched_off w'.
Proof.
  intros [E T] [He Hh]. split; [congruence |].
  apply forallb_forall. intros t Ht%list_elem_of_In.
  destruct (T t Ht) as [(u & Hu & Hcb) | H]; [| done].
  rewrite <- (harmless_cb t u Hcb).
  rewrite forallb_forall in Hh. by apply Hh, list_elem_of_In.
Qed.

(** [w'] has the switch of [w] and no timer that [w] has not. *)
Lemma off_sub w w' :
  enabled (cfg w') = enabled (cfg w) →
  (∀ t, t ∈ timers w' → t ∈ timers w) →
  off_kept w w'.
Proof. intros E T. split; [done |]. intros t Ht. left. exists t. auto. Qed.

(** [w'] has the switch of [w] and one more timer, a harmless one. *)
Lemma off_add w w' t :
  enabled (cfg w') = enabled (cfg w) →
  timers w' = timers w ++ [t] → harmless t = true →
  off_kept w w'.
Proof.
  intros E T Hh. split; [done |]. intros u. rewrite T.
  intros [Hu | ->%list_elem_of_singleton]%elem_of_app; [| by right].
  left. by exists u.
Qed.

Lemma elem_of_filter_sub {A} (f : A → bool) l x : x ∈ List.filter f l → x ∈ l.
Proof. intros H%list_elem_of_In%filter_In. apply list_elem_of_In. tauto. Qed.

Lemma clearInterval_off h w : off_kept w (clearInterval h w).
Proof. apply off_sub; [done |]. intros t. apply elem_of_filter_sub. Qed.

Lemma clear_if_set_off h w : off_kept w (clear_if_set h w).
Proof. destruct h as [[|n]|]; [apply off_kept_refl | apply clearInterval_off | apply off_kept_refl]. Qed.

Lemma forceResetProgressBar_off w : off_kept w (forceResetProgressBar w).
Proof. by eapply off_add. Qed.

Lemma resetProgressBar_off w : off_kept w (resetProgressBar w).
Proof. by eapply off_add. Qed.

Lemma stopAllImageRotation_off w : off_kept w (stopAllImageRotation w).
Proof.
  apply off_sub.
  - destruct w as [c ap md mn ms th ps pb [m p] ss hv ts nh nw].
    by destruct m as [[|m]|], p as [[|p]|].
  - destruct w as [c ap md mn ms th ps pb [m p] ss hv ts nh nw].
    destruct m as [[|m]|], p as [[|p]|]; intros t; cbn;
      repeat (let H := fresh in intros H; apply elem_of_filter_sub in H; revert H); done.
Qed.

Lemma openProductModal_off p w :
  enabled (cfg w) = false → off_kept w (openProductModal p w).
Proof.
  intros He. unfold openProductModal, createImageGallery.
  destruct (images p); cbn [showModal fillModalContent]; simpl; rewrite He; simpl;
    by apply off_sub.
Qed.

Lemma closeProductModal_off w : off_kept w (closeProductModal w).
Proof.
  unfold closeProductModal.
  apply (off_kept_trans w (stopAllImageRotation (set_modal_display false w))).
  - eapply off_kept_trans; [| apply stopAllImageRotation_off]. by apply off_sub.
  - by apply off_sub.
Qed.

Lemma switchMainImage_off imageSrc clicked w :
  enabled (cfg w) = false → off_kept w (switchMainImage imageSrc clicked w).
Proof.
  intros He. unfold switchMainImage.
  set (w1 := set_thumbnails _ _).
  change (enabled (cfg w1)) with (enabled (cfg w)). rewrite He.
  by apply off_sub.
Qed.

Lemma pauseOnHover_off h w : off_kept w (pauseOnHover h w).
Proof.
  unfold pauseOnHover. destruct (intervalId h); [apply off_kept_refl |].
  apply off_sub; [done |]. intros t Ht.
  change (t ∈ List.filter (λ u, negb (tid u =? progressInterval h)%nat)
                (List.filter (λ u, negb (tid u =? S n)%nat) (timers w))) in Ht.
  by do 2 apply elem_of_filter_sub in Ht.
Qed.

Lemma resumeOnLeave_off k w :
  enabled (cfg w) = false → off_kept w (resumeOnLeave k w).
Proof.
  intros He. unfold resumeOnLeave. destruct (hover w !! k); [| apply off_kept_refl].
  rewrite He. apply off_kept_refl.
Qed.

Lemma foldl_off {B} (f : world → B → world) (l : list B) w :
  enabled (cfg w) = false →
  (∀ w b, enabled (cfg w) = false → off_kept w (f w b)) →
  off_kept w (foldl f w l).
Proof.
  intros He Hf. apply (foldl_invariant (off_kept w)); [| apply off_kept_refl].
  intros a b Ha. eapply off_kept_trans; [exact Ha |]. apply Hf.
  destruct Ha as [E _]. congruence.
Qed.

Lemma restartImageRotation_off w :
  enabled (cfg w) = false → off_kept w (restartImageRotation w).
Proof. intros He. unfold restartImageRotation. rewrite He. apply off_kept_refl. Qed.

Lemma setImageRotationInterval_off i w :
  enabled (cfg w) = false → off_kept w (setImageRotationInterval i w).
Proof.
  intros He. unfold setImageRotationInterval.
  set (w1 := set_cfg _ w).
  change (enabled (cfg w1)) with (enabled (cfg w)). rewrite He.
  by apply off_sub.
Qed.

Lemma reschedule_cb t l u :
  u ∈ reschedule t l → ∃ v, v ∈ l ∧ cb v = cb u.
Proof.
  unfold reschedule. destruct (period t) as [p|].
  - intros (v & -> & Hv)%list_elem_of_fmap. exists v. split; [done |].
    by destruct (_ =? _)%nat.
  - intros Hu%elem_of_filter_sub. by exists u.
Qed.

Lemma fire_off t w :
  harmless t = true → off_kept w (fire t w).
Proof.
  intros Hh. unfold fire.
  set (w1 := set_timers _ _).
  assert (H1 : off_kept w w1).
  { split; [done |]. intros u Hu. left. by apply (reschedule_cb t). }
  eapply off_kept_trans; [exact H1 |]. clearbody w1.
  unfold harmless in Hh. destruct (cb t); try discriminate; simpl.
  - by apply off_sub.
  - by apply off_sub.
  - unfold testStop. eapply off_kept_trans; apply clear_if_set_off.
Qed.

Lemma step_off e w :
  keeps_off e = true → switched_off w → switched_off (step e w).
Proof.
  intros He H. pose proof H as [Hen Hh].
  revert H. apply off_kept_switched.
  destruct e; simpl in *; try discriminate.
  - by apply openProductModal_off.
  - apply closeProductModal_off.
  - destruct (thumbnails w !! k); [by apply switchMainImage_off | apply off_kept_refl].
  - unfold mouseenter. apply foldl_off; [done |]. intros. apply pauseOnHover_off.
  - unfold mouseleave. apply foldl_off; [done |]. intros. by apply resumeOnLeave_off.
  - destruct b; [discriminate |]. unfold toggleImageRotation.
    eapply off_kept_trans; [| apply stopAllImageRotation_off].
    apply off_sub; [by rewrite Hen | done].
  - by apply setImageRotationInterval_off.
  - by apply off_sub.
  - by apply restartImageRotation_off.
  - apply stopAllImageRotation_off.
  - apply resetProgressBar_off.
  - apply forceResetProgressBar_off.
  - unfold fire_next. destruct (next_timer _) as [t|] eqn:E; [| apply off_kept_refl].
    apply fire_off. apply next_timer_spec in E as [Ht _].
    rewrite forallb_forall in Hh. by apply Hh, list_elem_of_In.
Qed.

Lemma run_off events w :
  forallb keeps_off events = true → switched_off w → switched_off (run events w).
Proof.
  revert w. induction events as [|e events IH]; intros w He H; [done |].
  simpl in He. apply andb_true_iff in He as [He Hes].
  unfold run in *. simpl. apply IH; [done |]. by apply step_off.
Qed.

Lemma toggle_off_switched w :
  timers_stored w → no_start_pending w = true →
  switched_off (toggleImageRotation false w).
Proof.
  intros Hs Hp. unfold toggleImageRotation.
  assert (Hs' : timers_stored (set_enabled false w)) by (revert Hs; by apply stored_same).
  destruct (stopAllImageRotation_cancels _ Hs') as [Ha Hpr].
  destruct (stopAllImageRotation_off (set_enabled false w)) as [He Ht].
  split; [by rewrite He |].
  apply forallb_forall. intros t Hin%list_elem_of_In.
  assert (Hna : is_advance t = false).
  { destruct (is_advance t) eqn:E; [| done].
    assert (t ∈ advance_timers (stopAllImageRotation (set_enabled false w)))
      by (apply list_elem_of_In, filter_In; split; [by apply list_elem_of_In | done]).
    rewrite Ha in H. by apply elem_of_nil in H. }
  assert (Hnp : is_progress t = false).
  { destruct (is_progress t) eqn:E; [| done].
    assert (t ∈ progress_timers (stopAllImageRotation (set_enabled false w)))
      by (apply list_elem_of_In, filter_In; split; [by apply list_elem_of_In | done]).
    rewrite Hpr in H. by apply elem_of_nil in H. }
  destruct (Ht t Hin) as [(u & Hu & Hcb) | Hh]; [| done].
  unfold no_start_pending in Hp. rewrite forallb_forall in Hp.
  apply list_elem_of_In, Hp in Hu.
  rewrite <- (harmless_cb t u Hcb).
  unfold is_advance, is_progress in *. rewrite <- Hcb in Hna, Hnp.
  by rewrite Hna, Hnp, !orb_false_r in Hu.
Qed.

(** X15: [toggleImageRotation(false)], called in a state the page can
    reach in which no delayed start is pending, leaves rotation switched
    off for good: whatever follows (products opened and closed, thumbnails
    clicked, the pointer moved, intervals and modes set, restarts, timers
    run), until one of [toggleImageRotation(true)],
    [forceStartImageRotation()] and [testImageRotation()] is called, the
    flag stays down and no advance and no progress timer is live. *)
Theorem switched_off_rotation_stays_off
    (ps : list product) (before after : list event) :
  let w := run before (initial_world ps) in
  no_start_pending w = true →
  forallb keeps_off after = true →
  let w' := run after (toggleImageRotation false w) in
  enabled (cfg w') = false ∧ advance_timers w' = [] ∧ progress_timers w' = [].
Proof.
  intros w Hp Ha w'.
  assert (Hs : timers_stored w) by apply run_stored, initial_stored.
  destruct (run_off after _ Ha (toggle_off_switched w Hs Hp)) as [He Hh].
  split; [done |].
  rewrite forallb_forall in Hh.
  split; apply filter_none; intros t Ht%list_elem_of_In%Hh;
    by destruct (harmless_no_rotation t Ht).
Qed.

(** An instance: the rotation of the three-image product runs when it is
    switched off; then the modal is closed, the product opened again, a
    thumbnail clicked, and timers run. *)
Lemma switched_off_rotation_stays_off_witness :
  let w' := run [Close; Open rakija; Tick; ClickThumbnail 1; MouseLeave; Tick; Tick]
              (toggleImageRotation false
                 (run [Open rakija; Tick; Tick] (initial_world [rakija; tea]))) in
  enabled (cfg w') = false ∧ advance_timers w' = [] ∧ progress_timers w' = [].
Proof.
  exact (switched_off_rotation_stays_off [rakija; tea] [Open rakija; Tick; Tick]
           [Close; Open rakija; Tick; ClickThumbnail 1; MouseLeave; Tick; Tick]
           eq_refl eq_refl).
Defined.

End Switch.

(** * The rotation goes round the images *)
Section Cycle.
Import UI.












End Cycle.

(** * The bar between two advances *)
Section Window.
Import UI.

Lemma fire_progress_bar t sid s w :
  cb t = UpdateProgress sid →
  sessions w !! sid = Some s →
  let p := Qred (session_progress s + increment w) in
  cfg (fire t w) = cfg w ∧
  sessions (fire t w) = <[sid := Session (session_images s) (currentImageIndex s) p]> (sessions w) ∧
  width (progressBar (fire t w)) = (if Qle_bool p 100 then p else width (progressBar w)).
Proof.
  intros Hc Hs p. unfold fire. rewrite Hc. unfold run_callback, updateProgress.
  match goal with |- context [sessions ?w' !! sid] => change (sessions w') with (sessions w) end.
  rewrite Hs.
  match goal with |- context [increment ?w'] => change (increment w') with (increment w) end.
  fold p. by destruct (Qle_bool p 100).
Qed.

(** A turn of the loop in a running session is the advance timer's, or it
    keeps the session running with less work left and the bar where it was
    or further on. *)
Lemma running_turn_bar imgs i sid a T I src0 th0 w :
  running imgs i sid a T I src0 th0 w →
  bar_follows sid w →
  next_timer (timers w) = Some (Timer a T (Some I) (RotateImages sid)) ∨
  (running imgs i sid a T I src0 th0 (fire_next w) ∧
   (work_left T (timers (fire_next w)) < work_left T (timers w))%nat ∧
   bar_follows sid (fire_next w) ∧
   (width (progressBar w) <= width (progressBar (fire_next w)))%Q).
Proof.
  intros Hr (HI & H100 & s & Hs & Hle).
  pose proof Hr as [Hadv Hts _ _ _ _].
  destruct (next_timer_some _ _ Hadv) as [t Ht].
  destruct (next_timer_spec _ _ Ht) as [Hin _].
  destruct (Hts t Hin) as [-> | [[d ->] | (Hna & Hnp & Hper & r & Hcb)]]; [by left | |].
  - right.
    destruct (running_turn _ _ _ _ _ _ _ _ _ Hr) as [Hn | [Hr' Hlt]].
    { rewrite Ht in Hn. injection Hn as Hn _. lia. }
    split; [done |]. split; [done |].
    unfold fire_next. rewrite Ht.
    destruct (fire_progress_bar (Timer (S a) d (Some 50) (UpdateProgress sid)) sid s w
                eq_refl Hs) as (Ec & Es & Ew).
    set (p := Qred (session_progress s + increment w)) in *.
    assert (Hp : (session_progress s <= p)%Q).
    { unfold p. rewrite Qred_correct.
      pose proof (increment_positive w HI) as Hinc. apply Qlt_le_weak in Hinc.
      assert (H : (session_progress s + 0 <= session_progress s + increment w)%Q)
        by (apply Qplus_le_compat; [apply Qle_refl | exact Hinc]).
      by rewrite Qplus_0_r in H. }
    assert (Hlook : sessions (fire (Timer (S a) d (Some 50) (UpdateProgress sid)) w) !! sid
                    = Some (Session (session_images s) (currentImageIndex s) p)).
    { rewrite Es. apply list_lookup_insert_eq. by eapply lookup_lt_Some. }
    unfold bar_follows. rewrite Ew. destruct (Qle_bool p 100) eqn:E.
    + apply Qle_bool_iff in E. split.
      * split; [by rewrite Ec |]. split; [exact E |].
        eexists. split; [exact Hlook | apply Qle_refl].
      * eapply Qle_trans; [exact Hle | exact Hp].
    + split; [| apply Qle_refl].
      split; [by rewrite Ec |]. split; [done |].
      eexists. split; [exact Hlook |]. simpl. eapply Qle_trans; [exact Hle | exact Hp].
  - right.
    destruct (running_turn _ _ _ _ _ _ _ _ _ Hr) as [Hn | [Hr' Hlt]].
    { rewrite Ht in Hn. injection Hn as ->. by simpl in Hna. }
    split; [done |]. split; [done |].
    unfold fire_next. rewrite Ht. rewrite (fire_restore t r w Hcb Hper).
    split; [| apply Qle_refl].
    split; [done |]. split; [done |]. by exists s.
Qed.

(** The advance timer gets its turn, and in every turn before the bar
    stays where it is or moves on. *)
Lemma running_bar_grows imgs i sid a T I src0 th0 m w :
  running imgs i sid a T I src0 th0 w →
  bar_follows sid w →
  (work_left T (timers w) ≤ m)%nat →
  ∃ k, next_timer (timers (turns k w)) = Some (Timer a T (Some I) (RotateImages sid)) ∧
       ∀ j, (j < k)%nat →
            (width (progressBar (turns j w)) <= width (progressBar (turns (S j) w)))%Q ∧
            (width (progressBar (turns (S j) w)) <= 100)%Q ∧
            mainImage_src (turns (S j) w) = src0.
Proof.
  revert w. induction m as [|m IH]; intros w Hr Hf Hm.
  - destruct (running_turn_bar _ _ _ _ _ _ _ _ _ Hr Hf) as [Hn | (_ & Hlt & _)]; [| lia].
    exists 0%nat. split; [done |]. intros j Hj. lia.
  - destruct (running_turn_bar _ _ _ _ _ _ _ _ _ Hr Hf) as [Hn | (Hr' & Hlt & Hf' & Hle)].
    + exists 0%nat. split; [done |]. intros j Hj. lia.
    + destruct (IH (fire_next w) Hr' Hf' ltac:(lia)) as (k & Hn & Hk).
      exists (S k). rewrite turns_succ. split; [done |].
      intros [|j] Hj.
      * change (turns 0 w) with w. change (turns 1 w) with (fire_next w).
        split; [done |]. destruct Hf' as (_ & H100 & _). split; [done |].
        by destruct Hr'.
      * rewrite (turns_succ j w), (turns_succ (S j) w). apply Hk. lia.
Qed.

(** X17: in a session started with a positive interval on a page whose
    pending timers are transition timers only, and left alone, the event
    loop reaches the turn of the advance timer, and in every turn before it
    the bar, which the start has put at 0%, stays where it is or moves on,
    never beyond 100%, while the main image stays the one of the start. *)
Theorem progress_grows_until_the_advance (imgs : list string) (i : Z) (w : world) :
  quiet w →
  0 < interval (cfg w) →
  let w1 := fst (startModalImageRotationWithIndex imgs i w) in
  width (progressBar w1) = 0%Q ∧
  ∃ k,
    next_timer (timers (turns k w1))
    = Some (Timer (S (next_handle w)) (now w + interval (cfg w)) (Some (interval (cfg w)))
              (RotateImages (length (sessions w)))) ∧
    ∀ j, (j < k)%nat →
         (width (progressBar (turns j w1)) <= width (progressBar (turns (S j) w1)))%Q ∧
         (width (progressBar (turns (S j) w1)) <= 100)%Q ∧
         mainImage_src (turns (S j) w1) = mainImage_src w.
Proof.
  intros Hq HI w1.
  pose proof (start_running imgs i w Hq HI) as Hr. fold w1 in Hr.
  assert (Hw : width (progressBar w1) = 0%Q) by (unfold w1; by rewrite start_shape).
  split; [exact Hw |].
  assert (Hf : bar_follows (length (sessions w)) w1).
  { split; [unfold w1; by rewrite start_shape |].
    rewrite Hw. split; [by compute |].
    exists (Session imgs i 0). split; [| apply Qle_refl].
    unfold w1. rewrite start_shape. cbn [fst sessions]. by apply list_lookup_middle. }
  exact (running_bar_grows _ _ _ _ _ _ _ _ _ _ Hr Hf (Nat.le_refl _)).
Qed.

(** An instance: the session of three images on the page as the scripts
    find it. *)
Lemma progress_grows_until_the_advance_witness :
  let w1 := fst (startModalImageRotationWithIndex ["a.jpg"; "b.jpg"; "c.jpg"] 0 (initial_world [])) in
  ∃ k, ∀ j, (j < k)%nat →
         (width (progressBar (turns j w1)) <= width (progressBar (turns (S j) w1)))%Q ∧
         (width (progressBar (turns (S j) w1)) <= 100)%Q.
Proof.
  intros w1.
  assert (Hq : quiet (initial_world [])) by (by intros t Ht%elem_of_nil).
  destruct (progress_grows_until_the_advance ["a.jpg"; "b.jpg"; "c.jpg"] 0 (initial_world [])
              Hq eq_refl) as (_ & k & _ & Hk).
  exists k. intros j Hj. destruct (Hk j Hj) as (H1 & H2 & _). split; [exact H1 | exact H2].
Defined.

End Window.

(** * The modal: what it shows, and the hover pause *)
Section Modal.
Import UI.

(** X18: [openProductModal(product)] shows the modal with the name of the
    product. When the product has images, the main image is the first one
    and the strip holds one thumbnail per image, in order, only the first
    one active; when it has none, the main image gets the source
    ['undefined'] and the strip keeps the thumbnails of the product shown
    before. *)
Theorem openProductModal_shows_the_product (p : product) (w : world) :
  let w' := openProductModal p w in
  modal_display w' = true ∧
  modalProductName w' = name p ∧
  match images p with
  | [] => mainImage_src w' = "undefined" ∧ thumbnails w' = thumbnails w
  | first :: rest =>
      mainImage_src w' = first ∧
      map src (thumbnails w') = images p ∧
      map active (thumbnails w') = true :: map (λ _, false) rest
  end.
Proof.
  intros w'. subst w'. unfold openProductModal, createImageGallery, fillModalContent.
  destruct (images p) as [|first rest] eqn:E.
  - by destruct (_ && _).
  - assert (Hsrc : ∀ (g : nat → bool) (l : list string),
              map src (imap (λ index image, Thumbnail image (g index)) l) = l).
    { intros g l. revert g. induction l as [|x l IH]; intros g; simpl; [done |].
      f_equal. apply (IH (g ∘ S)). }
    assert (Hact : ∀ (g : nat → bool) (l : list string),
              (∀ j, g (S j) = false) →
              map active (imap (λ index image, Thumbnail image (g (S index))) l)
              = map (λ _, false) l).
    { intros g l Hg. revert g Hg. induction l as [|x l IH]; intros g Hg; simpl; [done |].
      rewrite Hg. f_equal. apply (IH (g ∘ S)). intros j. apply Hg. }
    destruct (_ && _); simpl; (split; [done |]; split; [done |]; split; [done |]);
      (split; [f_equal; apply (Hsrc (λ k, bool_decide (S k = 0%nat))) |
               f_equal; by apply (Hact (λ k, bool_decide (k = 0%nat)))]).
Qed.

(** ** Hover *)

Lemma pauseOnHover_keeps h w :
  mainImage_src (pauseOnHover h w) = mainImage_src w ∧
  thumbnails (pauseOnHover h w) = thumbnails w ∧
  sessions (pauseOnHover h w) = sessions w.
Proof. unfold pauseOnHover. by destruct (intervalId h). Qed.

Lemma pauseOnHover_timers h w t :
  t ∈ timers (pauseOnHover h w) →
  t ∈ timers w ∧
  (intervalId h ≠ 0%nat → tid t ≠ intervalId h ∧ tid t ≠ progressInterval h).
Proof.
  unfold pauseOnHover. destruct (intervalId h) as [|n] eqn:E; [done |].
  intros Ht.
  change (t ∈ List.filter (λ u, negb (tid u =? progressInterval h)%nat)
                (List.filter (λ u, negb (tid u =? S n)%nat) (timers w))) in Ht.
  apply list_elem_of_In, filter_In in Ht as [Ht H2].
  apply filter_In in Ht as [Ht H1].
  split; [by apply list_elem_of_In |]. intros _.
  apply negb_true_iff, Nat.eqb_neq in H1, H2. done.
Qed.

Lemma pause_all_timers hs w t :
  t ∈ timers (foldl (λ w h, pauseOnHover h w) w hs) →
  t ∈ timers w ∧
  ∀ h, h ∈ hs → intervalId h ≠ 0%nat → tid t ≠ intervalId h ∧ tid t ≠ progressInterval h.
Proof.
  revert w. induction hs as [|h hs IH]; intros w; simpl.
  - intros Ht. split; [done |]. by intros h Hh%elem_of_nil.
  - intros [Ht Hhs]%IH. apply pauseOnHover_timers in Ht as [Ht Hh].
    split; [done |]. intros h' [-> | Hh']%elem_of_cons; auto.
Qed.

Lemma pause_all_keeps hs w :
  mainImage_src (foldl (λ w h, pauseOnHover h w) w hs) = mainImage_src w ∧
  thumbnails (foldl (λ w h, pauseOnHover h w) w hs) = thumbnails w ∧
  sessions (foldl (λ w h, pauseOnHover h w) w hs) = sessions w.
Proof.
  revert w. induction hs as [|h hs IH]; intros w; simpl; [done |].
  destruct (IH (pauseOnHover h w)) as (H1 & H2 & H3).
  destruct (pauseOnHover_keeps h w) as (G1 & G2 & G3).
  by rewrite H1, H2, H3.
Qed.

(** When the last listener pair holds the stored handles, [mouseenter]
    leaves no rotation timer, and keeps the image and the sessions. *)
Lemma mouseenter_pauses w :
  timers_stored w → tracked w →
  advance_timers (mouseenter w) = [] ∧ progress_timers (mouseenter w) = [] ∧
  mainImage_src (mouseenter w) = mainImage_src w ∧
  thumbnails (mouseenter w) = thumbnails w ∧
  sessions (mouseenter w) = sessions w.
Proof.
  intros [Ha Hp _ _ _] (hs & h & Hh & Hi & Hc). unfold mouseenter.
  destruct (pause_all_keeps (hover w) w) as (K1 & K2 & K3).
  split; [| split; [| done]].
  - apply filter_none. intros t Ht.
    destruct (is_advance t) eqn:E; [| done]. exfalso.
    apply pause_all_timers in Ht as [Ht Hne].
    specialize (Ha t Ht E). rewrite Hc in Ha. injection Ha as Ha.
    destruct (Hne h) as [H1 _]; [rewrite Hh; apply elem_of_app; right; by left | done |].
    congruence.
  - apply filter_none. intros t Ht.
    destruct (is_progress t) eqn:E; [| done]. exfalso.
    apply pause_all_timers in Ht as [Ht Hne].
    specialize (Hp t Ht E). rewrite Hc in Hp. injection Hp as Hp.
    destruct (Hne h) as [_ H2]; [rewrite Hh; apply elem_of_app; right; by left | done |].
    congruence.
Qed.

Lemma openStart_tracked imgs w :
  modal_display w = true →
  tracked (openStart imgs w) ∧
  mainImage_src (openStart imgs w) = mainImage_src w ∧
  sessions (openStart imgs w) = sessions w ++ [Session imgs 0 0].
Proof.
  intros Hd. unfold openStart, startModalImageRotation. rewrite Hd. cbn [negb].
  pose proof (start_shape imgs 0 w) as E. cbv zeta in E.
  destruct (startModalImageRotationWithIndex imgs 0 w) as [w1 [i p]].
  injection E as -> -> ->.
  split; [| done].
  eexists _, _. split; [reflexivity |]. split; [done | reflexivity].
Qed.

Lemma resumeOnLeave_last k h w :
  hover w !! k = Some h → enabled (cfg w) = true →
  hover (resumeOnLeave k w)
  = <[k := Handler (hover_images h) (S (next_handle w)) (S (S (next_handle w)))]> (hover w) ∧
  currentRotationIntervals (resumeOnLeave k w)
  = Intervals (Some (S (next_handle w))) (Some (S (S (next_handle w)))).
Proof.
  intros Hk He. unfold resumeOnLeave, startModalImageRotation. rewrite Hk, He.
  pose proof (start_shape (hover_images h) 0 w) as E. cbv zeta in E.
  destruct (startModalImageRotationWithIndex (hover_images h) 0 w) as [w1 [i p]].
  by injection E as -> -> ->.
Qed.

Lemma resumeOnLeave_frame k w :
  length (hover (resumeOnLeave k w)) = length (hover w) ∧
  enabled (cfg (resumeOnLeave k w)) = enabled (cfg w).
Proof.
  unfold resumeOnLeave, startModalImageRotation.
  destruct (hover w !! k) as [h|]; [| done].
  destruct (enabled (cfg w)) eqn:He; [| done].
  pose proof (start_shape (hover_images h) 0 w) as E. cbv zeta in E.
  destruct (startModalImageRotationWithIndex (hover_images h) 0 w) as [w1 [i p]].
  injection E as -> -> ->. cbn [hover set_hover cfg]. by rewrite length_insert.
Qed.

Lemma resume_some_frame ks w :
  length (hover (foldl (λ w k, resumeOnLeave k w) w ks)) = length (hover w) ∧
  enabled (cfg (foldl (λ w k, resumeOnLeave k w) w ks)) = enabled (cfg w).
Proof.
  revert w. induction ks as [|k ks IH]; intros w; simpl; [done |].
  destruct (IH (resumeOnLeave k w)) as [H1 H2].
  destruct (resumeOnLeave_frame k w) as [G1 G2]. by rewrite H1, H2.
Qed.

Lemma mouseleave_tracked w :
  enabled (cfg w) = true → hover w ≠ [] → tracked (mouseleave w).
Proof.
  intros He Hh. unfold mouseleave.
  destruct (length (hover w)) as [|m] eqn:El; [by destruct (hover w) |].
  rewrite seq_S, foldl_app. simpl.
  set (w1 := foldl _ w (seq 0 m)).
  destruct (resume_some_frame (seq 0 m) w) as [Hl He1]. fold w1 in Hl, He1.
  rewrite El in Hl. rewrite He in He1.
  destruct (lookup_lt_is_Some_2 (hover w1) m ltac:(lia)) as [h Hm].
  destruct (resumeOnLeave_last m h w1 Hm He1) as [E1 E2].
  exists (take m (hover w1)), (Handler (hover_images h) (S (next_handle w1)) (S (S (next_handle w1)))).
  split; [| split; [done | exact E2]].
  rewrite E1. clear -Hl Hm.
  rewrite <- (take_drop_middle _ _ _ Hm) at 1.
  rewrite insert_app_r_alt by (rewrite length_take; lia).
  rewrite length_take, Nat.min_l, Nat.sub_diag by lia. simpl.
  f_equal. f_equal.
  assert (length (drop (S m) (hover w1)) = 0%nat) by (rewrite length_drop; lia).
  by destruct (drop (S m) (hover w1)).
Qed.

(** X19: hover pauses the rotation. In every state the page can reach,
    the pointer entering the modal right after the delayed start of
    [openProductModal] has run, or right after the pointer has left the
    modal (rotation enabled, a listener pair registered), leaves no advance
    and no progress timer, and keeps the main image and the sessions. *)
Theorem hover_pauses_rotation (ps : list product) (events : list event) (imgs : list string) :
  let w := run events (initial_world ps) in
  (modal_display w = true →
   let w1 := openStart imgs w in
   advance_timers (mouseenter w1) = [] ∧ progress_timers (mouseenter w1) = [] ∧
   mainImage_src (mouseenter w1) = mainImage_src w ∧
   sessions (mouseenter w1) = sessions w ++ [Session imgs 0 0]) ∧
  (enabled (cfg w) = true → hover w ≠ [] →
   let w1 := mouseleave w in
   advance_timers (mouseenter w1) = [] ∧ progress_timers (mouseenter w1) = [] ∧
   mainImage_src (mouseenter w1) = mainImage_src w1 ∧
   sessions (mouseenter w1) = sessions w1).
Proof.
  intros w.
  assert (Hs : timers_stored w) by apply run_stored, initial_stored.
  split.
  - intros Hd w1.
    destruct (openStart_tracked imgs w Hd) as (Ht & E1 & E2). fold w1 in Ht, E1, E2.
    assert (Hs1 : timers_stored w1) by (by apply openStart_stored).
    destruct (mouseenter_pauses w1 Hs1 Ht) as (H1 & H2 & H3 & _ & H5).
    by rewrite H3, H5, E1, E2.
  - intros He Hh w1.
    assert (Hs1 : timers_stored w1) by (by apply (step_stored MouseLeave)).
    destruct (mouseenter_pauses w1 Hs1 (mouseleave_tracked w He Hh)) as (H1 & H2 & H3 & _ & H5).
    done.
Qed.

(** An instance: the three-image product is opened, and the modal is
    entered right after the delayed start; the same after the product has
    been open for a while and the pointer has gone in and out. *)
Lemma hover_pauses_rotation_witness :
  (let w := run [Open rakija] (initial_world [rakija; tea]) in
   advance_timers (mouseenter (openStart (images rakija) w)) = [] ∧
   progress_timers (mouseenter (openStart (images rakija) w)) = []) ∧
  (let w := run [Open rakija; Tick; Tick; MouseEnter] (initial_world [rakija; tea]) in
   advance_timers (mouseenter (mouseleave w)) = [] ∧
   progress_timers (mouseenter (mouseleave w)) = []).
Proof.
  split.
  - intros w.
    destruct (hover_pauses_rotation [rakija; tea] [Open rakija] (images rakija)) as [H1 _].
    destruct (H1 eq_refl) as (A1 & A2 & _). split; [exact A1 | exact A2].
  - intros w.
    destruct (hover_pauses_rotation [rakija; tea] [Open rakija; Tick; Tick; MouseEnter] [])
      as [_ H2].
    assert (Hh : hover w ≠ []) by discriminate.
    destruct (H2 eq_refl Hh) as (A1 & A2 & _). split; [exact A1 | exact A2].
Defined.

End Modal.

(** * A thumbnail click restarts the rotation from the clicked image *)
Section Click.
Import UI.




(** ** Until the delayed restart runs *)







End Click.

(** * A new interval takes effect at once *)
Section Interval.
Import UI.




End Interval.

(** * The product grid: the last call wins, and the flag comes down *)
Section GridResults.
Import Grid.

(** ** The queue *)

Lemma grid_earlier_due a b :
  earlier a b = true → due a < due b ∨ (due a = due b ∧ (tid a ≤ tid b)%nat).
Proof.
  unfold earlier.
  destruct (Z.ltb_spec (due a) (due b)), (Z.eqb_spec (due a) (due b)),
           (Nat.leb_spec (tid a) (tid b)); simpl; intros; try discriminate; auto.
Qed.

Lemma grid_earlier_intro a b :
  due a ≤ due b → (tid a ≤ tid b)%nat → earlier a b = true.
Proof.
  intros Hd Ht. unfold earlier.
  destruct (Z.ltb_spec (due a) (due b)); [done |].
  destruct (Z.eqb_spec (due a) (due b)); [| lia].
  destruct (Nat.leb_spec (tid a) (tid b)); [done | lia].
Qed.

Lemma grid_earlier_refl a : earlier a a = true.
Proof. apply grid_earlier_intro; lia. Qed.

Lemma grid_earlier_trans a b c :
  earlier a b = true → earlier b c = true → earlier a c = true.
Proof.
  intros H1%grid_earlier_due H2%grid_earlier_due. unfold earlier.
  destruct (Z.ltb_spec (due a) (due c)); [done |].
  destruct (Z.eqb_spec (due a) (due c)); [| lia].
  destruct (Nat.leb_spec (tid a) (tid c)); [done | lia].
Qed.

Lemma grid_earlier_total a b : earlier a b = true ∨ earlier b a = true.
Proof.
  destruct (Z.le_gt_cases (due a) (due b)) as [H | H].
  - destruct (Z.eq_dec (due a) (due b)) as [E | E].
    + destruct (Nat.le_gt_cases (tid a) (tid b)).
      * left. by apply grid_earlier_intro.
      * right. apply grid_earlier_intro; lia.
    + left. unfold earlier. destruct (Z.ltb_spec (due a) (due b)); [done | lia].
  - right. unfold earlier. destruct (Z.ltb_spec (due b) (due a)); [done | lia].
Qed.

(** The timer the host picks is in the queue and runs no later than any
    other. *)
Lemma grid_next_timer_spec l t :
  next_timer l = Some t → t ∈ l ∧ ∀ u, u ∈ l → earlier t u = true.
Proof.
  revert t. induction l as [|x l IH]; intros t; simpl; [done |].
  destruct (next_timer l) as [m|] eqn:E.
  - destruct (IH m eq_refl) as [Hm Hmin].
    destruct (earlier x m) eqn:Ex; intros [= <-].
    + split; [by left |]. intros u [-> | Hu]%elem_of_cons; [apply grid_earlier_refl |].
      eapply grid_earlier_trans; [exact Ex | by apply Hmin].
    + split; [by right |]. intros u [-> | Hu]%elem_of_cons; [| by apply Hmin].
      destruct (grid_earlier_total m x); congruence.
  - intros [= <-]. destruct l as [|y l].
    2:{ simpl in E. destruct (next_timer l) as [m|]; [destruct (earlier y m) |]; discriminate. }
    split; [by left |].
    intros u [-> | Hu]%elem_of_cons; [apply grid_earlier_refl | by apply elem_of_nil in Hu].
Qed.

Lemma NoDup_tid_eq (l : list timer) t u :
  NoDup (map tid l) → t ∈ l → u ∈ l → tid t = tid u → t = u.
Proof.
  induction l as [|x l IH]; simpl; [by intros _ ?%elem_of_nil |].
  intros [Hx Hn]%NoDup_cons [-> | Ht]%elem_of_cons [-> | Hu]%elem_of_cons E; auto.
  - exfalso. apply Hx. rewrite E. apply list_elem_of_fmap. by exists u.
  - exfalso. apply Hx. rewrite <- E. apply list_elem_of_fmap. by exists t.
Qed.

Lemma NoDup_tid_filter (f : timer → bool) l :
  NoDup (map tid l) → NoDup (map tid (List.filter f l)).
Proof.
  induction l as [|x l IH]; simpl; [done |].
  intros [Hx Hn]%NoDup_cons. destruct (f x); simpl; [| auto].
  apply NoDup_cons. split; [| auto].
  intros (u & E & Hu)%list_elem_of_fmap. apply Hx.
  apply list_elem_of_fmap. exists u. split; [done |].
  by apply elem_of_filter_sub in Hu.
Qed.

Lemma setTimeout_queue f d w : queue_sound w → queue_sound (setTimeout f d w).
Proof.
  intros [Hh Hn]. split; simpl.
  - intros t [Ht | ->%list_elem_of_singleton]%elem_of_app; [apply Hh in Ht; lia | simpl; lia].
  - rewrite map_app. apply NoDup_app. split; [done |]. split; [| apply NoDup_singleton].
    intros x (u & -> & Hu)%list_elem_of_fmap Hx%list_elem_of_singleton.
    apply Hh in Hu. simpl in Hx. lia.
Qed.

(** ** Cards *)





(** ** The order of the renders *)











(** ** The flag *)

Lemma flag_same w w' :
  isDisplayingProducts w' = isDisplayingProducts w →
  currentDisplayRequest w' = currentDisplayRequest w →
  timers w' = timers w → next_handle w' = next_handle w → now w ≤ now w' →
  flag_guarded w → flag_guarded w'.
Proof.
  intros Ef Ec Et Eh En [[Hh Hn] Hf Hs].
  split.
  - split; rewrite Et; [rewrite Eh |]; done.
  - by rewrite Ef, Ec.
  - rewrite Ec, Et. intros r Hr. destruct (Hs r Hr) as (t & Ht & Hcb & Hd).
    exists t. split; [done |]. split; [done | lia].
Qed.

Lemma setTimeout_flag f d w : flag_guarded w → flag_guarded (setTimeout f d w).
Proof.
  intros [Hq Hf Hs]. split.
  - by apply setTimeout_queue.
  - done.
  - simpl. intros r Hr. destruct (Hs r Hr) as (t & Ht & Hcb & Hd).
    exists t. split; [apply elem_of_app; by left | done].
Qed.

Lemma resetDisplayFlag_flag w : queue_sound w → flag_guarded (resetDisplayFlag w).
Proof. intros Hq. split; [done | | done]. simpl. split; [done | by intros []]. Qed.

Lemma finish_flag r w : flag_guarded w → flag_guarded (finish r w).
Proof.
  intros H. unfold finish. case_decide; [| done].
  apply resetDisplayFlag_flag. by destruct H.
Qed.

Lemma displayProducts_flag ps w : queue_sound w → flag_guarded (displayProducts ps w).
Proof.
  intros Hq. unfold displayProducts. split.
  - do 2 apply setTimeout_queue. done.
  - simpl. split; [done | done].
  - simpl. intros r [= <-]. eexists. split; [apply elem_of_app; right; by left |].
    simpl. split; [done | lia].
Qed.

Lemma fire_flag t w :
  t ∈ timers w → flag_guarded w → flag_guarded (fire t w).
Proof.
  intros Hin [[Hh Hn] Hf Hs]. unfold fire.
  set (w1 := Page _ _ _ _ _ _ _ _ _ _).
  assert (Hq1 : queue_sound w1).
  { split.
    - intros u Hu%elem_of_filter_sub. by apply Hh.
    - by apply NoDup_tid_filter. }
  (* the page before the callback, unless the callback is the safety timer
     of the current request *)
  assert (H1 : (∀ r, cb t = Safety r → currentDisplayRequest w ≠ Some r) → flag_guarded w1).
  { intros Hne. split; [done | done |].
    intros r Hr. destruct (Hs r Hr) as (u & Hu & Hcb & Hd).
    exists u. split; [| split; [done | simpl; lia]].
    change (u ∈ List.filter (λ u, negb (tid u =? tid t)%nat) (timers w)).
    apply list_elem_of_In, filter_In. split; [by apply list_elem_of_In |].
    apply negb_true_iff, Nat.eqb_neq. intros E.
    assert (u = t) by (by apply (NoDup_tid_eq (timers w))). subst u.
    by apply (Hne r). }
  destruct (cb t) as [r0 ps0 | r0 | r0] eqn:Ecb; simpl.
  - specialize (H1 ltac:(done)). unfold render. destruct ps0 as [|p ps0].
    + apply finish_flag. revert H1. by apply flag_same.
    + destruct (createCards _ _) as [cards cache].
      revert H1. by apply flag_same.
  - apply finish_flag, H1. done.
  - destruct (decide (currentDisplayRequest w = Some r0)) as [E | E].
    + unfold finish. rewrite decide_True by done. by apply resetDisplayFlag_flag.
    + apply finish_flag, H1. by intros r [= <-].
Qed.

Lemma step_flag e w : flag_guarded w → flag_guarded (step e w).
Proof.
  intros H. destruct e; simpl.
  - apply displayProducts_flag. by destruct H.
  - apply resetDisplayFlag_flag. by destruct H.
  - unfold fire_next. destruct (next_timer _) as [t|] eqn:E; [| done].
    apply fire_flag; [| done]. by apply grid_next_timer_spec in E as [? _].
  - unfold frame. apply foldl_invariant.
    + intros a r Ha. by apply setTimeout_flag.
    + revert H. by apply flag_same.
  - revert H. apply flag_same; simpl; try done; try lia.
Qed.

Lemma run_flag events w : flag_guarded w → flag_guarded (run events w).
Proof. intros H. unfold run. apply foldl_invariant; [| done]. intros. by apply step_flag. Qed.

(** X23: the render flag comes down. In every state the grid can reach,
    [isDisplayingProducts] is up exactly while [currentDisplayRequest]
    holds a request; while it does, the safety timer of that request is
    pending and due within two seconds; so once no safety timer is pending
    the flag is down. *)
Theorem display_flag_comes_down (events : list event) :
  let w := run events initial_page in
  (isDisplayingProducts w = true ↔ currentDisplayRequest w ≠ None) ∧
  (∀ r, currentDisplayRequest w = Some r →
        ∃ t, t ∈ timers w ∧ cb t = Safety r ∧ due t ≤ now w + 2000) ∧
  ((∀ t r, t ∈ timers w → cb t ≠ Safety r) →
   isDisplayingProducts w = false ∧ currentDisplayRequest w = None).
Proof.
  intros w.
  assert (H0 : flag_guarded initial_page).
  { split; simpl.
    - split; [by intros t ?%elem_of_nil | constructor].
    - done.
    - done. }
  destruct (run_flag events _ H0) as [_ Hf Hs]. fold w in Hf, Hs.
  split; [exact Hf |]. split; [exact Hs |].
  intros Hno.
  destruct (currentDisplayRequest w) as [r|] eqn:E.
  - destruct (Hs r eq_refl) as (t & Ht & Hcb & _). by destruct (Hno t r Ht).
  - split; [| done]. destruct (isDisplayingProducts w); [| done].
    by destruct (proj1 Hf eq_refl).
Qed.

(** ** The category filter *)




End GridResults.
